(** * Zumo compass example: heading computation and turn controller

    A shallow embedding of
    [ZumoMotors/examples/CompassExample/CompassExample.ino] and the
    properties of its heading computation, its calibration and its turn
    controller.

    The sketch runs on the AVR boards the Zumo shield plugs into (Arduino Uno
    and Leonardo).  There [int] is 16 bits wide, [long] is 32 bits wide, and
    both [float] and [double] are IEEE-754 binary32.  Integers are therefore
    modelled as [Z] with the 16-bit wrap-around written out, and floating
    point values as [spec_float] at precision 24 and maximal exponent 128,
    with the round-to-nearest-even operations of the standard library's
    specification of floating-point arithmetic.

    The sketch talks to the motors, the serial port, the button and the
    magnetometer.  What it does to them is recorded as a trace of events; what
    the magnetometer answers is a parameter [mag], and so is the math
    library's [atan2].  A float-to-integer conversion that C leaves undefined
    makes a computation [None]. *)

From Stdlib Require Import ZArith List Bool Lia String.
From Stdlib Require Import Floats.SpecFloat.
Import ListNotations.

Local Open Scope Z_scope.

(** ** The 16-bit [int] of the AVR *)

Module Int16.

Definition min_int : Z := -32768.
Definition max_int : Z := 32767.

Definition in_range (z : Z) : Prop := min_int <= z <= max_int.

(** Two's complement reduction of a mathematical result to 16 bits. *)
Definition wrap (z : Z) : Z := (z + 32768) mod 65536 - 32768.

Definition add (a b : Z) : Z := wrap (a + b).
Definition sub (a b : Z) : Z := wrap (a - b).
Definition mul (a b : Z) : Z := wrap (a * b).
Definition neg (a : Z) : Z := wrap (- a).
(** C division truncates toward zero; [%] is the matching remainder. *)
Definition div (a b : Z) : Z := wrap (Z.quot a b).
Definition rem (a b : Z) : Z := Z.rem a b.

End Int16.

(** ** Arduino.h helpers

    [abs], [min] and [max] are macros of the Arduino core:
    [abs(x)] is [((x)>0?(x):-(x))], [min(a,b)] is [((a)<(b)?(a):(b))] and
    [max(a,b)] is [((a)>(b)?(a):(b))]. *)

Definition c_abs (x : Z) : Z := if x >? 0 then x else Int16.neg x.
Definition c_min (a b : Z) : Z := if a <? b then a else b.
Definition c_max (a b : Z) : Z := if a >? b then a else b.

(** ** Constants of the sketch *)

Definition SPEED : Z := 200.
Definition CALIBRATION_SAMPLES : Z := 70.
Definition CRA_REG_M_220HZ : Z := 0x1C.
Definition DEVIATION_THRESHOLD : Z := 5.

(** ** [relativeHeading] *)

Definition relativeHeading (heading_from heading_to : Z) : Z :=
  let relative_heading := Int16.sub heading_to heading_from in
  let relative_heading :=
    if relative_heading >? 180 then Int16.sub relative_heading 360
    else relative_heading in
  let relative_heading :=
    if relative_heading <? -180 then Int16.add relative_heading 360
    else relative_heading in
  relative_heading.

(** ** IEEE-754 binary32: the [float] and [double] of the AVR *)

Module F32.

Definition prec : Z := 24.
Definition emax : Z := 128.

Definition float : Type := spec_float.

Definition add : float -> float -> float := SFadd prec emax.
Definition sub : float -> float -> float := SFsub prec emax.
Definition mul : float -> float -> float := SFmul prec emax.
Definition div : float -> float -> float := SFdiv prec emax.
Definition opp : float -> float := SFopp.
Definition valid : float -> bool := valid_binary prec emax.

(** Conversion of an integer to floating point (round to nearest even). *)
Definition of_int (n : Z) : float := binary_normalize prec emax n 0 false.

Definition is_nan (f : float) : bool :=
  match f with S754_nan => true | _ => false end.

Definition is_finite (f : float) : bool :=
  match f with S754_zero _ | S754_finite _ _ _ => true | _ => false end.


(** The comparisons [a <= b] and [a >= b]; false when an operand is NaN. *)
Definition leb (a b : float) : bool := SFleb a b.
Definition geb (a b : float) : bool := SFleb b a.

(** The integer part of a float, rounding toward zero; infinities and NaN
    have none. *)
Definition trunc (f : float) : option Z :=
  match f with
  | S754_zero _ => Some 0
  | S754_finite s m e =>
      let a := match e with
               | Zneg p => Z.shiftr (Zpos m) (Zpos p)
               | _ => Z.shiftl (Zpos m) e
               end in
      Some (if s then - a else a)
  | _ => None
  end.

(** Conversion to [long] and to [int].  C leaves the conversion
    undefined when the truncated value does not fit the target type (and
    for NaN and the infinities): [None]. *)
Definition to_long (f : float) : option Z :=
  match trunc f with
  | Some n => if (-2147483648 <=? n) && (n <=? 2147483647) then Some n else None
  | None => None
  end.

Definition to_int (f : float) : option Z :=
  match trunc f with
  | Some n => if (-32768 <=? n) && (n <=? 32767) then Some n else None
  | None => None
  end.

(** Literals of the sketch, as the binary32 values they denote. *)
Definition zero : float := S754_zero false.
Definition half : float := S754_finite false 8388608 (-24).    (* 0.5 *)
Definition one : float := S754_finite false 8388608 (-23).     (* 1.0 *)
Definition two : float := S754_finite false 8388608 (-22).     (* 2.0 *)
Definition ten : float := S754_finite false 10485760 (-20).    (* 10.0 *)
Definition c180 : float := S754_finite false 11796480 (-16).   (* 180 *)
(** [M_PI], 3.14159265358979323846, rounded to binary32: 0x40490FDB. *)
Definition M_PI : float := S754_finite false 13176795 (-22).

End F32.

(** [round] is a macro of the Arduino core as well:
    [((x)>=0?(long)((x)+0.5):(long)((x)-0.5))]. *)
Definition c_round (e : F32.float) : option Z :=
  if F32.geb e F32.zero
  then F32.to_long (F32.add e F32.half)
  else F32.to_long (F32.sub e F32.half).

(** ** The compass object *)

Module LSM303.

(** Modelled from the spec: the declaration of [LSM303::vector] is in the
    LSM303 library, which the sketch includes but this repository does not
    hold; the spec's data model gives a magnetic vector three integer
    components [x], [y] and [z].  They are 16-bit integers here. *)
Record vector : Type := { x : Z; y : Z; z : Z }.

(** The fields of the [compass] object the sketch uses: the last reading
    [m] and the calibration bounds [m_min] and [m_max]. *)
Record t : Type := { m : vector; m_min : vector; m_max : vector }.

End LSM303.

Section Heading.

(** [atan2] belongs to the C math library; the sketch only calls it. *)
Variable atan2 : F32.float -> F32.float -> F32.float.

(** The two scaled coordinates, as the first two statements of [heading]
    compute them. *)
Definition x_scaled (compass : LSM303.t) (v : LSM303.vector) : F32.float :=
  F32.sub
    (F32.div
       (F32.mul F32.two
          (F32.of_int (Int16.sub (LSM303.x v) (LSM303.x (LSM303.m_min compass)))))
       (F32.of_int (Int16.sub (LSM303.x (LSM303.m_max compass))
                              (LSM303.x (LSM303.m_min compass)))))
    F32.one.

Definition y_scaled (compass : LSM303.t) (v : LSM303.vector) : F32.float :=
  F32.sub
    (F32.div
       (F32.mul F32.two
          (F32.of_int (Int16.sub (LSM303.y v) (LSM303.y (LSM303.m_min compass)))))
       (F32.of_int (Int16.sub (LSM303.y (LSM303.m_max compass))
                              (LSM303.y (LSM303.m_min compass)))))
    F32.one.

(** The argument of [round]: the angle in degrees, as a float. *)
Definition degrees (compass : LSM303.t) (v : LSM303.vector) : F32.float :=
  F32.div
    (F32.mul (atan2 (y_scaled compass v) (x_scaled compass v)) F32.c180)
    F32.M_PI.

(** [heading]; [None] stands for a float-to-integer conversion that C
    leaves undefined. *)
Definition heading (compass : LSM303.t) (v : LSM303.vector) : option Z :=
  match c_round (degrees compass v) with
  | Some r =>
      let angle := Int16.wrap r in
      let angle := if angle <? 0 then Int16.add angle 360 else angle in
      Some angle
  | None => None
  end.

End Heading.

(** ** The world the sketch acts on *)

(** What the sketch does to its surroundings, in the order it does it. *)
Inductive event : Type :=
| SerialBegin (baud : Z)
| WireBegin
| CompassInit
| CompassEnableDefault
| CompassSetMagGain_25
| CompassWriteCRA (value : Z)
| CompassRead
| WaitForButton
| SetLeftSpeed (speed : Z)
| SetRightSpeed (speed : Z)
| SetSpeeds (left right : Z)
| Delay (ms : Z)
| Print (s : string)
| PrintInt (n : Z)
| Println.

Record World : Type := {
  compass : LSM303.t;            (* the global [compass]: [m], [m_min], [m_max] *)
  reads : nat;                   (* how many times [compass.read()] has run *)
  target_heading : option Z;     (* the static local of [loop]; [None] before its initialiser has run *)
  trace : list event             (* the events so far, oldest first *)
}.

Definition set_m (v : LSM303.vector) (w : World) : World :=
  {| compass := {| LSM303.m := v;
                   LSM303.m_min := LSM303.m_min (compass w);
                   LSM303.m_max := LSM303.m_max (compass w) |};
     reads := reads w; target_heading := target_heading w; trace := trace w |}.

Definition set_bounds (lo hi : LSM303.vector) (w : World) : World :=
  {| compass := {| LSM303.m := LSM303.m (compass w);
                   LSM303.m_min := lo; LSM303.m_max := hi |};
     reads := reads w; target_heading := target_heading w; trace := trace w |}.

Definition set_reads (n : nat) (w : World) : World :=
  {| compass := compass w; reads := n;
     target_heading := target_heading w; trace := trace w |}.

Definition set_target (t : Z) (w : World) : World :=
  {| compass := compass w; reads := reads w;
     target_heading := Some t; trace := trace w |}.

Definition add_event (e : event) (w : World) : World :=
  {| compass := compass w; reads := reads w;
     target_heading := target_heading w; trace := trace w ++ [e] |}.

(** Computations that read and change the world and may hit undefined
    behaviour. *)
Definition M (A : Type) : Type := World -> option (A * World).

Definition ret {A : Type} (a : A) : M A := fun w => Some (a, w).

Definition bind {A B : Type} (c : M A) (k : A -> M B) : M B :=
  fun w => match c w with
           | Some (a, w') => k a w'
           | None => None
           end.

Notation "x <- c ;; k" := (bind c (fun x => k))
  (at level 61, c at next level, right associativity).
Notation "c ;;; k" := (bind c (fun _ => k))
  (at level 61, right associativity).

Definition lift {A : Type} (o : option A) : M A :=
  fun w => match o with Some a => Some (a, w) | None => None end.

Definition get {A : Type} (f : World -> A) : M A := fun w => Some (f w, w).
Definition modify (f : World -> World) : M unit := fun w => Some (tt, f w).
Definition emit (e : event) : M unit := modify (add_event e).
Definition println (e : event) : M unit := emit e ;;; emit Println.

Section Sketch.

Variable atan2 : F32.float -> F32.float -> F32.float.

(** [mag n] is the vector the magnetometer delivers at the [n]-th call of
    [compass.read()]. *)
Variable mag : nat -> LSM303.vector.

(** [compass.read()] stores the next reading in [compass.m]. *)
Definition compass_read : M unit :=
  emit CompassRead ;;;
  modify (fun w => set_reads (S (reads w)) (set_m (mag (reads w)) w)).

(** *** [setup] *)

Definition running_min_init : LSM303.vector :=
  {| LSM303.x := 2047; LSM303.y := 2047; LSM303.z := 2047 |}.
Definition running_max_init : LSM303.vector :=
  {| LSM303.x := -2048; LSM303.y := -2048; LSM303.z := -2048 |}.

(** The [for] loop of [setup]: [index] counts up from 0 while it is below
    [CALIBRATION_SAMPLES]; [n] is the number of iterations left to run. *)
Fixpoint calibration_loop (n : nat) (index : Z)
    (running_min running_max : LSM303.vector)
  : M (LSM303.vector * LSM303.vector) :=
  match n with
  | O => ret (running_min, running_max)
  | S n' =>
      compass_read ;;;
      m <- get (fun w => LSM303.m (compass w)) ;;
      let running_min :=
        {| LSM303.x := c_min (LSM303.x running_min) (LSM303.x m);
           LSM303.y := c_min (LSM303.y running_min) (LSM303.y m);
           LSM303.z := LSM303.z running_min |} in
      let running_max :=
        {| LSM303.x := c_max (LSM303.x running_max) (LSM303.x m);
           LSM303.y := c_max (LSM303.y running_max) (LSM303.y m);
           LSM303.z := LSM303.z running_max |} in
      println (PrintInt index) ;;;
      emit (Delay 50) ;;;
      calibration_loop n' ((index + 1) mod 256) running_min running_max
  end.

Definition setup : M unit :=
  emit (SerialBegin 9600) ;;;
  emit WireBegin ;;;
  emit CompassInit ;;;
  emit CompassEnableDefault ;;;
  emit CompassSetMagGain_25 ;;;
  emit (CompassWriteCRA CRA_REG_M_220HZ) ;;;
  emit WaitForButton ;;;
  println (Print "starting calibration") ;;;
  emit (SetLeftSpeed SPEED) ;;;
  emit (SetRightSpeed (Int16.neg SPEED)) ;;;
  r <- calibration_loop (Z.to_nat CALIBRATION_SAMPLES) 0
         running_min_init running_max_init ;;
  let running_min := fst r in
  let running_max := snd r in
  emit (SetLeftSpeed 0) ;;;
  emit (SetRightSpeed 0) ;;;
  emit (Print "max.x   ") ;;; println (PrintInt (LSM303.x running_max)) ;;;
  emit (Print "max.y   ") ;;; println (PrintInt (LSM303.y running_max)) ;;;
  emit (Print "min.x   ") ;;; println (PrintInt (LSM303.x running_min)) ;;;
  emit (Print "min.y   ") ;;; println (PrintInt (LSM303.y running_min)) ;;;
  modify (fun w =>
    let lo := LSM303.m_min (compass w) in
    let hi := LSM303.m_max (compass w) in
    set_bounds
      {| LSM303.x := LSM303.x running_min; LSM303.y := LSM303.y running_min;
         LSM303.z := LSM303.z lo |}
      {| LSM303.x := LSM303.x running_max; LSM303.y := LSM303.y running_max;
         LSM303.z := LSM303.z hi |} w) ;;;
  emit WaitForButton.

(** *** [averageHeading] *)

(** The [for] loop of [averageHeading]: [i] counts up from 0 while it is
    below 10; [n] is the number of iterations left to run. *)
Fixpoint average_loop (n : nat) (avg : LSM303.vector) : M LSM303.vector :=
  match n with
  | O => ret avg
  | S n' =>
      compass_read ;;;
      m <- get (fun w => LSM303.m (compass w)) ;;
      average_loop n'
        {| LSM303.x := Int16.add (LSM303.x avg) (LSM303.x m);
           LSM303.y := Int16.add (LSM303.y avg) (LSM303.y m);
           LSM303.z := LSM303.z avg |}
  end.

Definition averageHeading : M Z :=
  avg <- average_loop 10 {| LSM303.x := 0; LSM303.y := 0; LSM303.z := 0 |} ;;
  avg_x <- lift (F32.to_int (F32.div (F32.of_int (LSM303.x avg)) F32.ten)) ;;
  avg_y <- lift (F32.to_int (F32.div (F32.of_int (LSM303.y avg)) F32.ten)) ;;
  c <- get compass ;;
  lift (heading atan2 c
          {| LSM303.x := avg_x; LSM303.y := avg_y; LSM303.z := LSM303.z avg |}).

(** *** [loop] *)

Definition loop : M unit :=
  (* static int target_heading = averageHeading(); *)
  target <- (t <- get target_heading ;;
             match t with
             | Some t => ret t
             | None => t <- averageHeading ;; modify (set_target t) ;;; ret t
             end) ;;
  heading <- averageHeading ;;
  let relative_heading := relativeHeading heading target in
  emit (Print "Target heading: ") ;;;
  emit (PrintInt target) ;;;
  emit (Print "    Actual heading: ") ;;;
  emit (PrintInt heading) ;;;
  emit (Print "    Difference: ") ;;;
  emit (PrintInt relative_heading) ;;;
  (if c_abs relative_heading <? DEVIATION_THRESHOLD then
     emit (SetSpeeds SPEED SPEED) ;;;
     emit (Print "   Straight") ;;;
     emit (Delay 1000) ;;;
     emit (SetSpeeds 0 0) ;;;
     emit (Delay 100) ;;;
     h <- averageHeading ;;
     modify (set_target (Int16.rem (Int16.add h 90) 360))
   else
     let speed := Int16.div (Int16.mul SPEED relative_heading) 180 in
     let speed := if speed <? 0 then Int16.sub speed 100
                  else Int16.add speed 100 in
     emit (SetSpeeds speed (Int16.neg speed)) ;;;
     emit (Print "   Turn")) ;;;
  emit Println.

End Sketch.


(** ** Vocabulary for the statements about [setup] and [loop] *)

Definition add_events (es : list event) (w : World) : World :=
  fold_left (fun w e => add_event e w) es w.

(** The events a run from [w] to [w'] has added. *)
Definition events_since (w w' : World) : list event :=
  skipn (List.length (trace w)) (trace w').

(** The speed pairs passed to [motors.setSpeeds], in order. *)
Fixpoint motor_commands (es : list event) : list (Z * Z) :=
  match es with
  | [] => []
  | SetSpeeds l r :: es' => (l, r) :: motor_commands es'
  | _ :: es' => motor_commands es'
  end.

(** The diagnostic line [loop] prints before it decides. *)
Definition report (target heading : Z) : list event :=
  [Print "Target heading: "; PrintInt target;
   Print "    Actual heading: "; PrintInt heading;
   Print "    Difference: "; PrintInt (relativeHeading heading target)].

(** What the STRAIGHT branch does before it samples the heading again. *)
Definition straight_events : list event :=
  [SetSpeeds SPEED SPEED; Print "   Straight"; Delay 1000;
   SetSpeeds 0 0; Delay 100].

(** The speed the TURNING branch passes to the motors, as [loop] computes it
    in 16-bit arithmetic. *)
Definition turn_speed (relative_heading : Z) : Z :=
  let speed := Int16.div (Int16.mul SPEED relative_heading) 180 in
  if speed <? 0 then Int16.sub speed 100 else Int16.add speed 100.

(** The speed of the TURNING branch as the specification words it:
    [SPEED * relative / 180] over the integers, plus the offset of 100 in the
    direction of that speed. *)
Definition spec_turn_speed (relative_heading : Z) : Z :=
  let speed := Z.quot (SPEED * relative_heading) 180 in
  if speed <? 0 then speed - 100 else speed + 100.

(** [cycle_start w t w0]: a call of [loop] in world [w] runs with target
    heading [t], and is in world [w0] once the static [target_heading] is
    in place: at once when an earlier call has initialised it, after the
    initialising [averageHeading()] on the first call. *)
Inductive cycle_start (atan2 : F32.float -> F32.float -> F32.float)
    (mag : nat -> LSM303.vector) (w : World) : Z -> World -> Prop :=
| cycle_later (t : Z) :
    target_heading w = Some t -> cycle_start atan2 mag w t w
| cycle_first (t : Z) (w0 : World) :
    target_heading w = None ->
    averageHeading atan2 mag w = Some (t, w0) ->
    cycle_start atan2 mag w t (set_target t w0).

(** The least and the greatest of a start value and the elements of a list. *)
Definition minimum_from (init : Z) (l : list Z) : Z := fold_right Z.min init l.
Definition maximum_from (init : Z) (l : list Z) : Z := fold_right Z.max init l.

(** The [n] readings the magnetometer delivers from read number [k] on. *)
Definition samples (mag : nat -> LSM303.vector) (k n : nat) : list LSM303.vector :=
  map mag (seq k n).

(** A bounded universal quantifier over the [n] integers from [lo] on, to
    settle finite ranges by evaluation. *)
Fixpoint forall_from (lo : Z) (n : nat) (P : Z -> bool) : bool :=
  match n with
  | O => true
  | S n' => P lo && forall_from (lo + 1) n' P
  end.

(** ** Magnitudes of binary32 values

    To compare binary32 values without leaving the integers, the value
    [m * 2^e] of a mantissa and an exponent is scaled by [2^300]; no
    exponent the sketch's arithmetic meets is below -300. *)

Definition val (m e : Z) : Z := m * 2 ^ (e + 300).

(** [bounded_by mb eb f]: [f] is a zero, or finite with magnitude at most
    [mb * 2^eb]. *)
Definition bounded_by (mb eb : Z) (f : F32.float) : Prop :=
  match f with
  | S754_zero _ => True
  | S754_finite _ m e => -149 <= e /\ val (Zpos m) e <= val mb eb
  | _ => False
  end.

(** [at_least mc ec f]: [f] is finite with magnitude at least [mc * 2^ec]. *)
Definition at_least (mc ec : Z) (f : F32.float) : Prop :=
  match f with
  | S754_finite _ m e => -149 <= e <= 104 /\ val mc ec <= val (Zpos m) e
  | _ => False
  end.

(** [has_sign s f]: [f] is a zero or finite, with sign bit [s]. *)
Definition has_sign (s : bool) (f : F32.float) : Prop :=
  match f with
  | S754_zero s' | S754_finite s' _ _ => s' = s
  | _ => False
  end.

(** Something was rounded away. *)
Definition inexact (mrs : shr_record) : bool := shr_r mrs || shr_s mrs.

(** The contract of the math library's [atan2] the heading relies on: on
    arguments that are not NaN it returns a binary32 value between [-M_PI]
    and [M_PI]. *)
Definition atan2_contract (atan2 : F32.float -> F32.float -> F32.float) : Prop :=
  forall y x : F32.float,
    F32.is_nan y = false -> F32.is_nan x = false ->
    F32.valid (atan2 y x) = true /\
    F32.leb (F32.opp F32.M_PI) (atan2 y x) = true /\
    F32.leb (atan2 y x) F32.M_PI = true.

(** Calibration bounds as [setup] stores them: 16-bit integers. *)
Definition int_bounds (c : LSM303.t) : Prop :=
  Int16.in_range (LSM303.x (LSM303.m_min c)) /\
  Int16.in_range (LSM303.x (LSM303.m_max c)) /\
  Int16.in_range (LSM303.y (LSM303.m_min c)) /\
  Int16.in_range (LSM303.y (LSM303.m_max c)).

(** Non-degenerate calibration bounds. *)
Definition non_degenerate (c : LSM303.t) : Prop :=
  LSM303.x (LSM303.m_max c) > LSM303.x (LSM303.m_min c) /\
  LSM303.y (LSM303.m_max c) > LSM303.y (LSM303.m_min c).


(** ** Running the sketch on examples *)

Module Examples.

Definition pi_4 : F32.float := S754_finite false 13176795 (-24).
Definition pi_2 : F32.float := S754_finite false 13176795 (-23).
Definition pi3_4 : F32.float := S754_finite false 9882596 (-22).

(** The sign of a float: [Some Gt] positive, [Some Lt] negative,
    [Some Eq] a zero, [None] NaN. *)
Definition sign (f : F32.float) : option comparison := SFcompare f F32.zero.

Definition is_neg_zero_or_neg (f : F32.float) : bool :=
  match f with
  | S754_zero s | S754_infinity s | S754_finite s _ _ => s
  | S754_nan => false
  end.

(** A stand-in for the math library's [atan2] that is exact on the eight
    compass directions: it returns the angle of the vector of the signs
    of its arguments.  It is what the examples below are run with. *)
Definition atan2_sign (y x : F32.float) : F32.float :=
  match sign y, sign x with
  | None, _ | _, None => S754_nan
  | Some Eq, _ =>
      let r := if is_neg_zero_or_neg x then F32.M_PI else F32.zero in
      if is_neg_zero_or_neg y then F32.opp r else r
  | Some Gt, Some Gt => pi_4
  | Some Gt, Some Eq => pi_2
  | Some Gt, Some Lt => pi3_4
  | Some Lt, Some Gt => F32.opp pi_4
  | Some Lt, Some Eq => F32.opp pi_2
  | Some Lt, Some Lt => F32.opp pi3_4
  end.

Definition vec (a b c : Z) : LSM303.vector :=
  {| LSM303.x := a; LSM303.y := b; LSM303.z := c |}.

(** A compass calibrated to [-100, 100] on both axes. *)
Definition compass100 : LSM303.t :=
  {| LSM303.m := vec 0 0 0;
     LSM303.m_min := vec (-100) (-100) 0;
     LSM303.m_max := vec 100 100 0 |}.

Definition world0 (target : option Z) : World :=
  {| compass := compass100; reads := 0; target_heading := target; trace := [] |}.

(** A magnetometer that always reads due east of the calibrated centre. *)
Definition mag_east : nat -> LSM303.vector := fun _ => vec 100 0 0.

(** The world a computation leaves behind ([w] itself if it is undefined). *)
Definition after {A : Type} (c : M A) (w : World) : World :=
  match c w with
  | Some (_, w') => w'
  | None => w
  end.

(** The world after the heading has been sampled once from [world0 target]. *)
Definition sampled (target : option Z) : World :=
  after (averageHeading atan2_sign mag_east) (world0 target).

(** ... and after the STRAIGHT branch has sampled it again. *)
Definition resampled (target : Z) : World :=
  after (averageHeading atan2_sign mag_east)
        (add_events (report target 0 ++ straight_events) (sampled (Some target))).

End Examples.

(** ** Vocabulary for the statements about whole runs *)

(** The sums [averageHeading] accumulates in [avg] over the readings [l],
    in 16-bit arithmetic. *)
Definition accumulate (avg : LSM303.vector) (l : list LSM303.vector)
  : LSM303.vector :=
  fold_left
    (fun a m => {| LSM303.x := Int16.add (LSM303.x a) (LSM303.x m);
                   LSM303.y := Int16.add (LSM303.y a) (LSM303.y m);
                   LSM303.z := LSM303.z a |})
    l avg.

(** The vector [averageHeading] takes the heading of, from the ten readings
    [l]: the sums of the [x] and of the [y] components, each divided by
    [10.0] as a float and converted back to [int]. *)
Definition averaged (l : list LSM303.vector) : option LSM303.vector :=
  let avg := accumulate {| LSM303.x := 0; LSM303.y := 0; LSM303.z := 0 |} l in
  match F32.to_int (F32.div (F32.of_int (LSM303.x avg)) F32.ten),
        F32.to_int (F32.div (F32.of_int (LSM303.y avg)) F32.ten) with
  | Some avg_x, Some avg_y =>
      Some {| LSM303.x := avg_x; LSM303.y := avg_y; LSM303.z := LSM303.z avg |}
  | _, _ => None
  end.

(** The sum of a component over a list of readings, in the integers. *)
Definition sum_of (f : LSM303.vector -> Z) (l : list LSM303.vector) : Z :=
  fold_right (fun v a => f v + a) 0 l.

(** What [n] rounds of the calibration loop do, the first of them printing
    [index]. *)
Fixpoint calibration_events (n : nat) (index : Z) : list event :=
  match n with
  | O => []
  | S n' => [CompassRead; PrintInt index; Println; Delay 50]
            ++ calibration_events n' (index + 1)
  end.

(** [n] calls of [loop] in a row. *)
Fixpoint cycles (atan2 : F32.float -> F32.float -> F32.float)
    (mag : nat -> LSM303.vector) (n : nat) : M unit :=
  match n with
  | O => ret tt
  | S n' => loop atan2 mag ;;; cycles atan2 mag n'
  end.

(** A pair of motor speeds within [b] in magnitude. *)
Definition speeds_within (b : Z) (c : Z * Z) : Prop :=
  - b <= fst c <= b /\ - b <= snd c <= b.

(** A magnetometer on a robot that turns by a quarter between readings; a
    further example to run the sketch on. *)
Definition mag_quarters (n : nat) : LSM303.vector :=
  match (n mod 4)%nat with
  | 0%nat => Examples.vec 100 0 0
  | 1%nat => Examples.vec 0 100 0
  | 2%nat => Examples.vec (-100) 0 0
  | _ => Examples.vec 0 (-100) 0
  end.


(** * Properties *)

(** ** 16-bit arithmetic *)

Lemma wrap_in_range (n : Z) : Int16.in_range (Int16.wrap n).
Proof.
  unfold Int16.in_range, Int16.wrap, Int16.min_int, Int16.max_int.
  pose proof (Z.mod_pos_bound (n + 32768) 65536). lia.
Qed.

Lemma wrap_id (n : Z) : Int16.in_range n -> Int16.wrap n = n.
Proof.
  unfold Int16.in_range, Int16.wrap, Int16.min_int, Int16.max_int. intros H.
  rewrite Z.mod_small; lia.
Qed.

Lemma wrap_eq_0 (n : Z) : -65536 < n < 65536 -> Int16.wrap n = 0 -> n = 0.
Proof.
  unfold Int16.wrap. intros Hn H.
  assert (Hm : (n + 32768) mod 65536 = 32768) by lia.
  destruct (Z_lt_le_dec n (-32768)) as [Hlo | Hlo].
  - replace (n + 32768) with ((n + 32768 + 65536) + (-1) * 65536) in Hm by lia.
    rewrite Z.mod_add, Z.mod_small in Hm; lia.
  - destruct (Z_lt_le_dec n 32768) as [Hhi | Hhi].
    + rewrite Z.mod_small in Hm; lia.
    + replace (n + 32768) with ((n + 32768 - 65536) + 1 * 65536) in Hm by lia.
      rewrite Z.mod_add, Z.mod_small in Hm; lia.
Qed.

Ltac int16_range :=
  unfold Int16.in_range, Int16.min_int, Int16.max_int; lia.

Ltac int16_arith :=
  unfold Int16.add, Int16.sub, Int16.mul, Int16.neg, Int16.div;
  repeat rewrite wrap_id by int16_range.

Lemma c_min_spec (a b : Z) : c_min a b = Z.min a b.
Proof. unfold c_min. destruct (Z.ltb_spec a b); lia. Qed.

Lemma c_max_spec (a b : Z) : c_max a b = Z.max a b.
Proof. unfold c_max. destruct (Z.gtb_spec a b); lia. Qed.

Lemma c_abs_spec (n : Z) : -32768 < n <= 32767 -> c_abs n = Z.abs n.
Proof.
  intros H. unfold c_abs.
  destruct (Z.gtb_spec n 0); [lia|].
  int16_arith. lia.
Qed.

(** ** [relativeHeading] *)

Example relativeHeading_10_350 : relativeHeading 10 350 = -20.
Proof. reflexivity. Qed.

Example relativeHeading_0_180 :
  relativeHeading 0 180 = 180 /\ relativeHeading 180 0 = -180.
Proof. split; reflexivity. Qed.

(** On headings the subtraction cannot leave the 16-bit range, so the
    function is the mathematical wrap of [heading_to - heading_from]. *)
Lemma relativeHeading_math (a b : Z) :
  0 <= a < 360 -> 0 <= b < 360 ->
  relativeHeading a b =
    if b - a >? 180 then b - a - 360
    else if b - a <? -180 then b - a + 360 else b - a.
Proof.
  intros Ha Hb. unfold relativeHeading.
  int16_arith.
  destruct (Z.gtb_spec (b - a) 180).
  - int16_arith. destruct (Z.ltb_spec (b - a - 360) (-180)); [lia | reflexivity].
  - destruct (Z.ltb_spec (b - a) (-180)); [int16_arith|]; reflexivity.
Qed.

(** C1.  For headings [a], [b] in [0, 360) the relative heading lies in
    [-180, 180] and swapping the arguments negates it.  The law holds
    exactly, also at the boundary: a difference of 180 is kept as 180 and
    the opposite difference of -180 is kept as -180, so the exception the
    wrap law allows for at the +-180 endpoints is never needed. *)
Theorem relativeHeading_wrap_law (a b : Z) :
  0 <= a < 360 -> 0 <= b < 360 ->
  -180 <= relativeHeading a b <= 180 /\
  relativeHeading a b = - relativeHeading b a.
Proof.
  intros Ha Hb.
  rewrite (relativeHeading_math a b Ha Hb), (relativeHeading_math b a Hb Ha).
  destruct (Z.gtb_spec (b - a) 180), (Z.ltb_spec (b - a) (-180)),
           (Z.gtb_spec (a - b) 180), (Z.ltb_spec (a - b) (-180)); lia.
Qed.

Lemma relativeHeading_wrap_law_witness :
  (0 <= 0 < 360 /\ 0 <= 180 < 360) /\
  -180 <= relativeHeading 0 180 <= 180 /\
  relativeHeading 0 180 = - relativeHeading 180 0.
Proof. split; [lia | apply (relativeHeading_wrap_law 0 180); lia]. Defined.

(** ** Binary32 literals and conversions *)

Example literals_valid :
  forallb F32.valid
    [F32.zero; F32.half; F32.one; F32.two; F32.ten; F32.c180; F32.M_PI] = true.
Proof. reflexivity. Qed.

(** [F32.M_PI] is the binary32 value nearest to pi: pi lies between
    3.1415926535 and 3.1415926536, well inside the half-spacing around it. *)
Example M_PI_nearest :
  (2 * 13176795 - 1) * 10 ^ 10 < 31415926535 * 2 ^ 23 /\
  31415926536 * 2 ^ 23 < (2 * 13176795 + 1) * 10 ^ 10 /\
  F32.M_PI = S754_finite false 13176795 (-22).
Proof. repeat split; reflexivity. Qed.

Example literals_of_int :
  F32.of_int 0 = F32.zero /\ F32.of_int 1 = F32.one /\
  F32.of_int 2 = F32.two /\ F32.of_int 10 = F32.ten /\
  F32.of_int 180 = F32.c180 /\ F32.div F32.one F32.two = F32.half.
Proof. repeat split; reflexivity. Qed.

Example trunc_examples :
  F32.trunc (F32.div (F32.of_int 7) F32.two) = Some 3 /\
  F32.trunc (F32.div (F32.of_int (-7)) F32.two) = Some (-3) /\
  F32.trunc (F32.of_int 180) = Some 180 /\
  F32.trunc (F32.div F32.one F32.zero) = None.
Proof. repeat split; reflexivity. Qed.

Example heading_compass_rose :
  map (heading Examples.atan2_sign Examples.compass100)
      [Examples.vec 100 0 0; Examples.vec 100 100 0; Examples.vec 0 100 0;
       Examples.vec (-100) 100 0; Examples.vec (-100) 0 0;
       Examples.vec (-100) (-100) 0; Examples.vec 0 (-100) 0;
       Examples.vec 100 (-100) 0]
  = [Some 0; Some 45; Some 90; Some 135; Some 180; Some 225; Some 270; Some 315].
Proof. vm_compute. reflexivity. Qed.

(** ** The state monad *)

Lemma bind_Some {A B : Type} (c : M A) (k : A -> M B) (w w1 : World) (a : A) :
  c w = Some (a, w1) -> bind c k w = k a w1.
Proof. intros H. unfold bind. rewrite H. reflexivity. Qed.

Lemma bind_inv {A B : Type} (c : M A) (k : A -> M B) (w : World) (r : B * World) :
  bind c k w = Some r ->
  exists a w1, c w = Some (a, w1) /\ k a w1 = Some r.
Proof.
  unfold bind. destruct (c w) as [[a w1]|]; [|discriminate].
  intros H. exists a, w1. split; [reflexivity | exact H].
Qed.

Lemma emit_run (e : event) (w : World) : emit e w = Some (tt, add_event e w).
Proof. reflexivity. Qed.

Lemma add_events_trace (es : list event) (w : World) :
  trace (add_events es w) = trace w ++ es.
Proof.
  revert w. induction es as [|e es IH]; intros w; simpl.
  - now rewrite app_nil_r.
  - rewrite IH. simpl. now rewrite <- app_assoc.
Qed.

Lemma add_events_target (es : list event) (w : World) :
  target_heading (add_events es w) = target_heading w.
Proof. revert w. induction es as [|e es IH]; intros w; simpl; [|rewrite IH]; reflexivity. Qed.

Lemma add_events_compass (es : list event) (w : World) :
  compass (add_events es w) = compass w.
Proof. revert w. induction es as [|e es IH]; intros w; simpl; [|rewrite IH]; reflexivity. Qed.

Lemma events_since_app (w w' : World) (es : list event) :
  trace w' = trace w ++ es -> events_since w w' = es.
Proof.
  intros H. unfold events_since. rewrite H.
  rewrite skipn_app, skipn_all, Nat.sub_diag. reflexivity.
Qed.

Lemma motor_commands_app (es1 es2 : list event) :
  motor_commands (es1 ++ es2) = motor_commands es1 ++ motor_commands es2.
Proof.
  induction es1 as [|e es1 IH]; [reflexivity|].
  destruct e; simpl; rewrite ?IH; reflexivity.
Qed.

Lemma motor_commands_reads (n : nat) : motor_commands (repeat CompassRead n) = [].
Proof. induction n; simpl; auto. Qed.

(** ** [averageHeading] *)

Section AverageHeading.

Variable atan2 : F32.float -> F32.float -> F32.float.
Variable mag : nat -> LSM303.vector.

(** The summing loop always runs to its end; it consumes [n] readings and
    leaves the calibration, the target and the other events alone. *)
Lemma average_loop_runs (n : nat) (avg : LSM303.vector) (w : World) :
  exists avg' w',
    average_loop mag n avg w = Some (avg', w') /\
    trace w' = trace w ++ repeat CompassRead n /\
    reads w' = (reads w + n)%nat /\
    target_heading w' = target_heading w /\
    LSM303.m_min (compass w') = LSM303.m_min (compass w) /\
    LSM303.m_max (compass w') = LSM303.m_max (compass w).
Proof.
  revert avg w. induction n as [|n IH]; intros avg w.
  - exists avg, w. simpl. rewrite app_nil_r, Nat.add_0_r. repeat split; reflexivity.
  - simpl average_loop.
    set (w1 := set_reads (S (reads w)) (set_m (mag (reads w)) (add_event CompassRead w))).
    set (avg1 := {| LSM303.x := Int16.add (LSM303.x avg) (LSM303.x (mag (reads w)));
                    LSM303.y := Int16.add (LSM303.y avg) (LSM303.y (mag (reads w)));
                    LSM303.z := LSM303.z avg |}).
    destruct (IH avg1 w1) as (avg' & w' & Hrun & Htr & Hrd & Htg & Hlo & Hhi).
    exists avg', w'. split.
    + exact Hrun.
    + rewrite Htr, Hrd, Htg, Hlo, Hhi. unfold w1. simpl.
      rewrite <- app_assoc. simpl. repeat split; auto; lia.
Qed.

Lemma averageHeading_effects (w w' : World) (h : Z) :
  averageHeading atan2 mag w = Some (h, w') ->
  trace w' = trace w ++ repeat CompassRead 10 /\
  reads w' = (reads w + 10)%nat /\
  target_heading w' = target_heading w /\
  LSM303.m_min (compass w') = LSM303.m_min (compass w) /\
  LSM303.m_max (compass w') = LSM303.m_max (compass w).
Proof.
  unfold averageHeading. intros H.
  destruct (average_loop_runs 10 {| LSM303.x := 0; LSM303.y := 0; LSM303.z := 0 |} w)
    as (avg & w1 & Hrun & Hfacts).
  rewrite (bind_Some _ _ _ _ _ Hrun) in H.
  apply bind_inv in H. destruct H as (ax & wa & Ha & H).
  apply bind_inv in H. destruct H as (ay & wb & Hb & H).
  apply bind_inv in H. destruct H as (c & wc & Hc & H).
  unfold lift in Ha, Hb, H. unfold get in Hc.
  destruct (F32.to_int _) in Ha; [|discriminate]. injection Ha as _ <-.
  destruct (F32.to_int _) in Hb; [|discriminate]. injection Hb as _ <-.
  injection Hc as _ <-.
  destruct (heading _ _ _) in H; [|discriminate]. injection H as _ <-.
  exact Hfacts.
Qed.

End AverageHeading.

(** ** [loop] *)

Lemma bind_emit {B : Type} (e : event) (k : unit -> M B) (w : World) :
  bind (emit e) k w = k tt (add_event e w).
Proof. reflexivity. Qed.

Lemma bind_assoc {A B C : Type} (c : M A) (k : A -> M B) (k' : B -> M C) (w : World) :
  bind (bind c k) k' w = bind c (fun a => bind (k a) k') w.
Proof. unfold bind. destruct (c w) as [[a w1]|]; reflexivity. Qed.

Lemma bind_modify {B : Type} (f : World -> World) (k : unit -> M B) (w : World) :
  bind (modify f) k w = k tt (f w).
Proof. reflexivity. Qed.

Lemma bind_get {A B : Type} (f : World -> A) (k : A -> M B) (w : World) :
  bind (get f) k w = k (f w) w.
Proof. reflexivity. Qed.

Ltac run_events :=
  repeat (progress
            (rewrite ?bind_assoc, ?bind_emit, ?bind_modify, ?bind_get; cbv beta)).

Section Loop.

Variable atan2 : F32.float -> F32.float -> F32.float.
Variable mag : nat -> LSM303.vector.

Lemma cycle_start_target (w w0 : World) (t : Z) :
  cycle_start atan2 mag w t w0 ->
  (t <- get target_heading ;;
   match t with
   | Some t => ret t
   | None => t <- averageHeading atan2 mag ;; modify (set_target t) ;;; ret t
   end) w = Some (t, w0).
Proof.
  intros [t' Ht | t' w0' Ht Havg]; unfold bind, get; rewrite Ht.
  - reflexivity.
  - rewrite Havg. reflexivity.
Qed.

Lemma cycle_start_inv (w w0 : World) (t : Z) :
  (t <- get target_heading ;;
   match t with
   | Some t => ret t
   | None => t <- averageHeading atan2 mag ;; modify (set_target t) ;;; ret t
   end) w = Some (t, w0) ->
  cycle_start atan2 mag w t w0.
Proof.
  unfold bind, get. destruct (target_heading w) as [t'|] eqn:Ht.
  - intros H. injection H as <- <-. now constructor.
  - destruct (averageHeading atan2 mag w) as [[t' w0']|] eqn:Havg; [|discriminate].
    intros H. injection H as <- <-. now constructor.
Qed.

(** A cycle that finds the heading within the threshold. *)
Lemma loop_straight_run (w w0 w1 w2 : World) (t h h' : Z) :
  cycle_start atan2 mag w t w0 ->
  averageHeading atan2 mag w0 = Some (h, w1) ->
  (c_abs (relativeHeading h t) <? DEVIATION_THRESHOLD) = true ->
  averageHeading atan2 mag (add_events (report t h ++ straight_events) w1)
    = Some (h', w2) ->
  loop atan2 mag w
    = Some (tt, add_event Println
                  (set_target (Int16.rem (Int16.add h' 90) 360) w2)).
Proof.
  intros Hcs Hh Hlt Hh'. unfold loop.
  rewrite (bind_Some _ _ _ _ _ (cycle_start_target _ _ _ Hcs)).
  rewrite (bind_Some _ _ _ _ _ Hh).
  rewrite Hlt.
  run_events.
  change (add_event (Delay 100) _) with (add_events (report t h ++ straight_events) w1).
  rewrite (bind_Some _ _ _ _ _ Hh'). reflexivity.
Qed.

(** A cycle that finds the heading off target. *)
Lemma loop_turn_run (w w0 w1 : World) (t h : Z) :
  cycle_start atan2 mag w t w0 ->
  averageHeading atan2 mag w0 = Some (h, w1) ->
  (c_abs (relativeHeading h t) <? DEVIATION_THRESHOLD) = false ->
  loop atan2 mag w
    = Some (tt, add_events
                  (report t h ++
                   [SetSpeeds (turn_speed (relativeHeading h t))
                              (Int16.neg (turn_speed (relativeHeading h t)));
                    Print "   Turn"; Println]) w1).
Proof.
  intros Hcs Hh Hlt. unfold loop.
  rewrite (bind_Some _ _ _ _ _ (cycle_start_target _ _ _ Hcs)).
  rewrite (bind_Some _ _ _ _ _ Hh).
  rewrite Hlt. reflexivity.
Qed.

(** Every cycle that runs to its end is one of the two. *)
Lemma loop_inv (w w' : World) :
  loop atan2 mag w = Some (tt, w') ->
  exists t w0 h w1,
    cycle_start atan2 mag w t w0 /\
    averageHeading atan2 mag w0 = Some (h, w1) /\
    ((c_abs (relativeHeading h t) <? DEVIATION_THRESHOLD) = true /\
     (exists h' w2,
        averageHeading atan2 mag (add_events (report t h ++ straight_events) w1)
          = Some (h', w2) /\
        w' = add_event Println (set_target (Int16.rem (Int16.add h' 90) 360) w2))
     \/
     (c_abs (relativeHeading h t) <? DEVIATION_THRESHOLD) = false /\
     w' = add_events
            (report t h ++
             [SetSpeeds (turn_speed (relativeHeading h t))
                        (Int16.neg (turn_speed (relativeHeading h t)));
              Print "   Turn"; Println]) w1).
Proof.
  intros H. unfold loop in H.
  apply bind_inv in H. destruct H as (t & w0 & Hcs & H).
  apply cycle_start_inv in Hcs.
  apply bind_inv in H. destruct H as (h & w1 & Hh & H).
  exists t, w0, h, w1. split; [exact Hcs|]. split; [exact Hh|].
  destruct (c_abs (relativeHeading h t) <? DEVIATION_THRESHOLD) eqn:Hlt.
  - left. split; [reflexivity|].
    destruct (averageHeading atan2 mag (add_events (report t h ++ straight_events) w1))
      as [[h' w2]|] eqn:Hh'.
    + exists h', w2. split; [reflexivity|].
      pose proof (loop_straight_run w w0 w1 w2 t h h' Hcs Hh Hlt Hh') as Hrun.
      unfold loop in Hrun.
      rewrite (bind_Some _ _ _ _ _ (cycle_start_target _ _ _ Hcs)) in Hrun.
      rewrite (bind_Some _ _ _ _ _ Hh) in Hrun.
      rewrite Hlt in Hrun. rewrite Hrun in H. now injection H as <-.
    + exfalso. revert H. run_events.
      change (add_event (Delay 100) _) with (add_events (report t h ++ straight_events) w1).
      unfold bind at 1. rewrite Hh'. discriminate.
  - right. split; [reflexivity|].
    revert H. intros H. 
    change (Some (tt, add_events
                  (report t h ++
                   [SetSpeeds (turn_speed (relativeHeading h t))
                              (Int16.neg (turn_speed (relativeHeading h t)));
                    Print "   Turn"; Println]) w1) = Some (tt, w')) in H.
    now injection H as <-.
Qed.

End Loop.

(** ** The speed of the TURNING branch *)

Lemma forall_from_spec (P : Z -> bool) (n : nat) (lo : Z) :
  forall_from lo n P = true ->
  forall k, lo <= k < lo + Z.of_nat n -> P k = true.
Proof.
  revert lo. induction n as [|n IH]; intros lo H k Hk.
  - simpl in Hk. lia.
  - simpl in H. apply andb_true_iff in H. destruct H as [H0 H1].
    destruct (Z.eq_dec k lo) as [-> | Hne]; [exact H0|].
    apply (IH (lo + 1) H1). lia.
Qed.

Example turn_speed_examples :
  map turn_speed [5; 90; 163; 164; 170; 180; -5; -163; -164; -180]
  = [105; 200; 281; -281; -275; -264; -105; -281; 281; 264].
Proof. reflexivity. Qed.

(** The product [SPEED * relative_heading] fits 16 bits exactly when
    [|relative_heading| <= 163]; there the code computes the speed the
    specification words. *)
Lemma turn_speed_in_range (rel : Z) :
  -163 <= rel <= 163 -> turn_speed rel = spec_turn_speed rel.
Proof.
  intros H. unfold turn_speed, spec_turn_speed, SPEED.
  assert (Hq : -182 <= Z.quot (200 * rel) 180 <= 182).
  { split.
    - change (-182) with (Z.quot (-32760) 180). apply Z.quot_le_mono; lia.
    - change 182 with (Z.quot 32760 180). apply Z.quot_le_mono; lia. }
  unfold Int16.mul, Int16.div.
  rewrite (wrap_id (200 * rel)) by int16_range.
  rewrite (wrap_id (Z.quot (200 * rel) 180)) by int16_range.
  destruct (Z.ltb_spec (Z.quot (200 * rel) 180) 0); int16_arith; reflexivity.
Qed.

(** Whatever the relative heading, the speed stays within 282 in magnitude:
    the 16-bit product is at most 32768 in magnitude before the division. *)
Lemma turn_speed_bounded (rel : Z) : -282 <= turn_speed rel <= 282.
Proof.
  unfold turn_speed, Int16.mul.
  pose proof (wrap_in_range (SPEED * rel)) as Hp.
  set (p := Int16.wrap (SPEED * rel)) in *.
  unfold Int16.in_range, Int16.min_int, Int16.max_int in Hp.
  assert (Hq : -182 <= Z.quot p 180 <= 182).
  { split.
    - change (-182) with (Z.quot (-32768) 180). apply Z.quot_le_mono; lia.
    - change 182 with (Z.quot 32767 180). apply Z.quot_le_mono; lia. }
  unfold Int16.div.
  rewrite (wrap_id (Z.quot p 180)) by int16_range.
  destruct (Z.ltb_spec (Z.quot p 180) 0); int16_arith; lia.
Qed.

Lemma turn_speed_neg_bounded (rel : Z) :
  -282 <= Int16.neg (turn_speed rel) <= 282.
Proof.
  pose proof (turn_speed_bounded rel). int16_arith. lia.
Qed.

(** On the relative headings the TURNING branch can meet, the speed is
    larger than 100 and at most 300 in magnitude. *)
Lemma turn_speed_magnitude (rel : Z) :
  5 <= Z.abs rel <= 180 ->
  100 < Z.abs (turn_speed rel) <= 300 /\
  Int16.neg (turn_speed rel) = - turn_speed rel.
Proof.
  intros H.
  assert (Hall : forall_from (-180) 361
            (fun r => (Z.abs r <? 5) ||
                      ((100 <? Z.abs (turn_speed r)) &&
                       (Z.abs (turn_speed r) <=? 300))) = true)
    by (vm_compute; reflexivity).
  pose proof (forall_from_spec _ _ _ Hall rel) as Hr. simpl in Hr.
  assert (Hrange : -180 <= rel < -180 + 361) by lia.
  specialize (Hr Hrange).
  apply orb_true_iff in Hr. destruct Hr as [Hr | Hr].
  - apply Z.ltb_lt in Hr. lia.
  - apply andb_true_iff in Hr. destruct Hr as [H1 H2].
    apply Z.ltb_lt in H1. apply Z.leb_le in H2.
    split; [lia|]. int16_arith. reflexivity.
Qed.

(** From 164 degrees on the 16-bit product has wrapped and the speed has
    the sign opposite to the relative heading. *)
Lemma turn_speed_reversed (rel : Z) :
  164 <= Z.abs rel <= 180 ->
  (0 < rel -> turn_speed rel < 0) /\ (rel < 0 -> 0 < turn_speed rel).
Proof.
  intros H.
  assert (Hall : forall_from (-180) 361
            (fun r => (Z.abs r <? 164) ||
                      (if 0 <? r then turn_speed r <? 0 else 0 <? turn_speed r)) = true)
    by (vm_compute; reflexivity).
  pose proof (forall_from_spec _ _ _ Hall rel) as Hr. simpl in Hr.
  assert (Hrange : -180 <= rel < -180 + 361) by lia.
  specialize (Hr Hrange).
  apply orb_true_iff in Hr. destruct Hr as [Hr | Hr].
  - apply Z.ltb_lt in Hr. lia.
  - destruct (Z.ltb_spec 0 rel); apply Z.ltb_lt in Hr; split; lia.
Qed.

(** ** The two branches of a control cycle *)

Section Cycle.

Variable atan2 : F32.float -> F32.float -> F32.float.
Variable mag : nat -> LSM303.vector.

Lemma cycle_start_trace (w w0 : World) (t : Z) :
  cycle_start atan2 mag w t w0 ->
  exists n, trace w0 = trace w ++ repeat CompassRead n.
Proof.
  intros [t' Ht | t' w0' Ht Havg].
  - exists 0%nat. simpl. now rewrite app_nil_r.
  - exists 10%nat. simpl trace.
    now destruct (averageHeading_effects _ _ _ _ _ Havg) as (-> & _).
Qed.

(** Up to the decision a cycle only reads the compass. *)
Lemma sensing_trace (w w0 w1 : World) (t h : Z) :
  cycle_start atan2 mag w t w0 ->
  averageHeading atan2 mag w0 = Some (h, w1) ->
  exists n, trace w1 = trace w ++ repeat CompassRead n.
Proof.
  intros Hcs Hh.
  destruct (cycle_start_trace _ _ _ Hcs) as [n Hn].
  destruct (averageHeading_effects _ _ _ _ _ Hh) as (Htr & _).
  exists (n + 10)%nat. rewrite Htr, Hn, <- app_assoc, repeat_app. reflexivity.
Qed.

Lemma straight_cycle (w w0 w1 w2 : World) (t h h' : Z) :
  cycle_start atan2 mag w t w0 ->
  averageHeading atan2 mag w0 = Some (h, w1) ->
  c_abs (relativeHeading h t) < DEVIATION_THRESHOLD ->
  averageHeading atan2 mag (add_events (report t h ++ straight_events) w1)
    = Some (h', w2) ->
  exists w',
    loop atan2 mag w = Some (tt, w') /\
    trace w' = trace w1 ++ report t h ++ straight_events
                 ++ repeat CompassRead 10 ++ [Println] /\
    motor_commands (events_since w w') = [(SPEED, SPEED); (0, 0)] /\
    target_heading w' = Some (Int16.rem (Int16.add h' 90) 360).
Proof.
  intros Hcs Hh Hlt Hh'.
  apply Z.ltb_lt in Hlt.
  eexists. split; [exact (loop_straight_run _ _ _ _ _ _ _ _ _ Hcs Hh Hlt Hh')|].
  destruct (averageHeading_effects _ _ _ _ _ Hh') as (Htr & _).
  assert (Htrace :
    trace (add_event Println (set_target (Int16.rem (Int16.add h' 90) 360) w2))
    = trace w1 ++ report t h ++ straight_events ++ repeat CompassRead 10 ++ [Println]).
  { simpl trace. rewrite Htr, add_events_trace.
    rewrite <- !app_assoc. reflexivity. }
  split; [exact Htrace|]. split; [|reflexivity].
  destruct (sensing_trace _ _ _ _ _ Hcs Hh) as [n Hn].
  rewrite Hn, <- app_assoc in Htrace.
  rewrite (events_since_app _ _ _ Htrace).
  rewrite !motor_commands_app, !motor_commands_reads. reflexivity.
Qed.

Lemma turn_cycle (w w0 w1 : World) (t h : Z) :
  cycle_start atan2 mag w t w0 ->
  averageHeading atan2 mag w0 = Some (h, w1) ->
  DEVIATION_THRESHOLD <= c_abs (relativeHeading h t) ->
  exists w',
    loop atan2 mag w = Some (tt, w') /\
    trace w' = trace w1 ++ report t h ++
                 [SetSpeeds (turn_speed (relativeHeading h t))
                            (Int16.neg (turn_speed (relativeHeading h t)));
                  Print "   Turn"; Println] /\
    motor_commands (events_since w w')
      = [(turn_speed (relativeHeading h t),
          Int16.neg (turn_speed (relativeHeading h t)))] /\
    target_heading w' = target_heading w1.
Proof.
  intros Hcs Hh Hge.
  assert (Hlt : (c_abs (relativeHeading h t) <? DEVIATION_THRESHOLD) = false)
    by (apply Z.ltb_ge; exact Hge).
  eexists. split; [exact (loop_turn_run _ _ _ _ _ _ _ Hcs Hh Hlt)|].
  rewrite add_events_trace, add_events_target.
  split; [reflexivity|]. split; [|reflexivity].
  destruct (sensing_trace _ _ _ _ _ Hcs Hh) as [n Hn].
  rewrite events_since_app with
    (es := repeat CompassRead n ++ report t h ++
             [SetSpeeds (turn_speed (relativeHeading h t))
                        (Int16.neg (turn_speed (relativeHeading h t)));
              Print "   Turn"; Println]).
  - rewrite !motor_commands_app, !motor_commands_reads. reflexivity.
  - rewrite add_events_trace, Hn, <- app_assoc. reflexivity.
Qed.

End Cycle.

Lemma c_abs_relativeHeading (h t : Z) :
  0 <= h < 360 -> 0 <= t < 360 ->
  c_abs (relativeHeading h t) = Z.abs (relativeHeading h t).
Proof.
  intros Hh Ht. apply c_abs_spec.
  pose proof (relativeHeading_math h t Hh Ht) as E. rewrite E.
  destruct (Z.gtb_spec (t - h) 180), (Z.ltb_spec (t - h) (-180)); lia.
Qed.

Lemma next_target_mod (h : Z) :
  0 <= h < 360 -> Int16.rem (Int16.add h 90) 360 = (h + 90) mod 360.
Proof.
  intros H. unfold Int16.rem. int16_arith.
  apply Z.rem_mod_nonneg; lia.
Qed.

(** C7.  The TURNING branch commands [(speed, -speed)] where [speed] is the
    16-bit value of [SPEED*relative_heading/180] with 100 added in its
    direction.  At a relative heading of 170 the 16-bit product 34000
    overflows to -31536: the motors get (-275, 275), a turn away from the
    target, where the specified speed is 288. *)
Theorem loop_turn_branch_overflow
    (atan2 : F32.float -> F32.float -> F32.float) (mag : nat -> LSM303.vector)
    (w w0 w1 : World) (t h : Z) :
  cycle_start atan2 mag w t w0 ->
  averageHeading atan2 mag w0 = Some (h, w1) ->
  relativeHeading h t = 170 ->
  (exists w',
     loop atan2 mag w = Some (tt, w') /\
     motor_commands (events_since w w') = [(-275, 275)]) /\
  Int16.mul SPEED 170 = -31536 /\
  spec_turn_speed 170 = 288.
Proof.
  intros Hcs Hh Hrel. split; [|split; reflexivity].
  destruct (turn_cycle atan2 mag w w0 w1 t h Hcs Hh) as (w' & Hrun & _ & Hmc & _).
  - rewrite Hrel. vm_compute. discriminate.
  - exists w'. split; [exact Hrun|]. rewrite Hmc, Hrel. reflexivity.
Qed.

Lemma loop_turn_branch_overflow_witness :
  (exists w',
     loop Examples.atan2_sign Examples.mag_east (Examples.world0 (Some 170))
       = Some (tt, w') /\
     motor_commands (events_since (Examples.world0 (Some 170)) w')
       = [(-275, 275)]) /\
  Int16.mul SPEED 170 = -31536 /\
  spec_turn_speed 170 = 288.
Proof.
  apply (loop_turn_branch_overflow Examples.atan2_sign Examples.mag_east
           (Examples.world0 (Some 170)) (Examples.world0 (Some 170))
           (Examples.sampled (Some 170)) 170 0).
  - constructor. reflexivity.
  - vm_compute. reflexivity.
  - reflexivity.
Defined.

(** Where the product does not overflow the branch does what is specified. *)
Lemma loop_turn_branch_in_range
    (atan2 : F32.float -> F32.float -> F32.float) (mag : nat -> LSM303.vector)
    (w w0 w1 : World) (t h : Z) :
  cycle_start atan2 mag w t w0 ->
  averageHeading atan2 mag w0 = Some (h, w1) ->
  DEVIATION_THRESHOLD <= c_abs (relativeHeading h t) ->
  -163 <= relativeHeading h t <= 163 ->
  exists w',
    loop atan2 mag w = Some (tt, w') /\
    motor_commands (events_since w w')
      = [(spec_turn_speed (relativeHeading h t),
          - spec_turn_speed (relativeHeading h t))] /\
    target_heading w' = target_heading w1.
Proof.
  intros Hcs Hh Hge Hrange.
  destruct (turn_cycle atan2 mag w w0 w1 t h Hcs Hh Hge) as (w' & Hrun & _ & Hmc & Htg).
  exists w'. split; [exact Hrun|]. split; [|exact Htg].
  rewrite Hmc. pose proof (turn_speed_bounded (relativeHeading h t)) as Hb.
  rewrite <- (turn_speed_in_range _ Hrange).
  int16_arith. reflexivity.
Qed.

(** C10.  The motor speeds [loop] commands are bounded.  A STRAIGHT cycle
    commands exactly (200, 200) and then (0, 0).  A TURNING cycle whose
    relative heading has magnitude between 5 and 180 commands one pair
    [(speed, -speed)] with [100 < |speed| <= 300].  No cycle commands a speed
    above 300 in magnitude. *)
Theorem loop_speeds_bounded
    (atan2 : F32.float -> F32.float -> F32.float) (mag : nat -> LSM303.vector) :
  (forall (w w0 w1 w2 : World) (t h h' : Z),
     cycle_start atan2 mag w t w0 ->
     averageHeading atan2 mag w0 = Some (h, w1) ->
     c_abs (relativeHeading h t) < DEVIATION_THRESHOLD ->
     averageHeading atan2 mag (add_events (report t h ++ straight_events) w1)
       = Some (h', w2) ->
     exists w',
       loop atan2 mag w = Some (tt, w') /\
       motor_commands (events_since w w') = [(200, 200); (0, 0)]) /\
  (forall (w w0 w1 : World) (t h : Z),
     cycle_start atan2 mag w t w0 ->
     averageHeading atan2 mag w0 = Some (h, w1) ->
     5 <= Z.abs (relativeHeading h t) <= 180 ->
     exists w' speed,
       loop atan2 mag w = Some (tt, w') /\
       motor_commands (events_since w w') = [(speed, - speed)] /\
       100 < Z.abs speed <= 300) /\
  (forall (w w' : World),
     loop atan2 mag w = Some (tt, w') ->
     Forall (fun c => Z.abs (fst c) <= 300 /\ Z.abs (snd c) <= 300)
            (motor_commands (events_since w w'))).
Proof.
  split; [|split].
  - intros w w0 w1 w2 t h h' Hcs Hh Hlt Hh'.
    destruct (straight_cycle atan2 mag _ _ _ _ _ _ _ Hcs Hh Hlt Hh')
      as (w' & Hrun & _ & Hmc & _).
    exists w'. split; [exact Hrun | exact Hmc].
  - intros w w0 w1 t h Hcs Hh Hrel.
    destruct (turn_speed_magnitude _ Hrel) as [Hmag Hneg].
    destruct (turn_cycle atan2 mag w w0 w1 t h Hcs Hh) as (w' & Hrun & _ & Hmc & _).
    + rewrite c_abs_spec by lia. unfold DEVIATION_THRESHOLD. lia.
    + exists w', (turn_speed (relativeHeading h t)).
      split; [exact Hrun|]. split; [|exact Hmag].
      rewrite Hmc, Hneg. reflexivity.
  - intros w w' Hrun.
    destruct (loop_inv atan2 mag w w' Hrun)
      as (t & w0 & h & w1 & Hcs & Hh & [[Hlt (h' & w2 & Hh' & _)] | [Hge _]]).
    + apply Z.ltb_lt in Hlt.
      destruct (straight_cycle atan2 mag _ _ _ _ _ _ _ Hcs Hh Hlt Hh')
        as (w'' & Hrun' & _ & Hmc & _).
      rewrite Hrun in Hrun'. injection Hrun' as <-.
      rewrite Hmc. repeat constructor; simpl; unfold SPEED; lia.
    + apply Z.ltb_ge in Hge.
      destruct (turn_cycle atan2 mag w w0 w1 t h Hcs Hh Hge)
        as (w'' & Hrun' & _ & Hmc & _).
      rewrite Hrun in Hrun'. injection Hrun' as <-.
      rewrite Hmc.
      pose proof (turn_speed_bounded (relativeHeading h t)).
      pose proof (turn_speed_neg_bounded (relativeHeading h t)).
      repeat constructor; simpl; lia.
Qed.

Lemma loop_speeds_bounded_witness :
  exists w' speed,
    loop Examples.atan2_sign Examples.mag_east (Examples.world0 (Some 90))
      = Some (tt, w') /\
    motor_commands (events_since (Examples.world0 (Some 90)) w')
      = [(speed, - speed)] /\
    100 < Z.abs speed <= 300.
Proof.
  apply (proj1 (proj2 (loop_speeds_bounded Examples.atan2_sign Examples.mag_east))
           (Examples.world0 (Some 90)) (Examples.world0 (Some 90))
           (Examples.sampled (Some 90)) 90 0).
  - constructor. reflexivity.
  - vm_compute. reflexivity.
  - vm_compute. split; discriminate.
Defined.

(** ** [setup] *)

Lemma minimum_from_fold_left (l : list Z) (init : Z) :
  fold_left Z.min l init = minimum_from init l.
Proof.
  unfold minimum_from. apply fold_symmetric.
  - intros a b c. apply Z.min_assoc.
  - intros b. apply Z.min_comm.
Qed.

Lemma maximum_from_fold_left (l : list Z) (init : Z) :
  fold_left Z.max l init = maximum_from init l.
Proof.
  unfold maximum_from. apply fold_symmetric.
  - intros a b c. apply Z.max_assoc.
  - intros b. apply Z.max_comm.
Qed.

Lemma minimum_from_le (l : list Z) (init : Z) :
  minimum_from init l <= init /\ forall a, In a l -> minimum_from init l <= a.
Proof.
  induction l as [|b l [IH1 IH2]]; simpl.
  - split; [lia | contradiction].
  - split; [lia|]. intros a [<- | Ha]; [lia|]. specialize (IH2 a Ha). lia.
Qed.

Lemma maximum_from_ge (l : list Z) (init : Z) :
  init <= maximum_from init l /\ forall a, In a l -> a <= maximum_from init l.
Proof.
  induction l as [|b l [IH1 IH2]]; simpl.
  - split; [lia | contradiction].
  - split; [lia|]. intros a [<- | Ha]; [lia|]. specialize (IH2 a Ha). lia.
Qed.

Lemma samples_cons (mag : nat -> LSM303.vector) (k n : nat) :
  samples mag k (S n) = mag k :: samples mag (S k) n.
Proof. reflexivity. Qed.

Section Setup.

Variable mag : nat -> LSM303.vector.

(** The calibration loop always runs to its end.  It consumes [n] readings,
    folds their [x] and [y] components into the running extremes, leaves
    the [z] components, the calibration stored in [compass] and the target
    alone, and commands no motor. *)
Lemma calibration_loop_runs (n : nat) (index : Z)
    (running_min running_max : LSM303.vector) (w : World) :
  exists lo hi w' es,
    calibration_loop mag n index running_min running_max w = Some ((lo, hi), w') /\
    LSM303.x lo = fold_left Z.min (map LSM303.x (samples mag (reads w) n)) (LSM303.x running_min) /\
    LSM303.y lo = fold_left Z.min (map LSM303.y (samples mag (reads w) n)) (LSM303.y running_min) /\
    LSM303.z lo = LSM303.z running_min /\
    LSM303.x hi = fold_left Z.max (map LSM303.x (samples mag (reads w) n)) (LSM303.x running_max) /\
    LSM303.y hi = fold_left Z.max (map LSM303.y (samples mag (reads w) n)) (LSM303.y running_max) /\
    LSM303.z hi = LSM303.z running_max /\
    reads w' = (reads w + n)%nat /\
    LSM303.m_min (compass w') = LSM303.m_min (compass w) /\
    LSM303.m_max (compass w') = LSM303.m_max (compass w) /\
    target_heading w' = target_heading w /\
    trace w' = trace w ++ es /\
    motor_commands es = [].
Proof.
  revert index running_min running_max w.
  induction n as [|n IH]; intros index running_min running_max w.
  - exists running_min, running_max, w, []. simpl.
    rewrite app_nil_r, Nat.add_0_r. repeat split; reflexivity.
  - simpl calibration_loop. unfold compass_read, println.
    run_events.
    match goal with
    | |- context [calibration_loop mag n ?i ?lo ?hi ?w1] =>
        destruct (IH i lo hi w1)
          as (lo' & hi' & w' & es & Hrun & Hxlo & Hylo & Hzlo & Hxhi & Hyhi & Hzhi
              & Hrd & Hmin & Hmax & Htg & Htr & Hmc)
    end.
    exists lo', hi', w',
      ([CompassRead; PrintInt index; Println; Delay 50] ++ es).
    rewrite Hrun, samples_cons. simpl map. simpl fold_left.
    rewrite <- c_min_spec, <- c_min_spec, <- c_max_spec, <- c_max_spec.
    simpl in Hxlo, Hylo, Hzlo, Hxhi, Hyhi, Hzhi, Hrd, Hmin, Hmax, Htg, Htr.
    repeat split; try assumption.
    + lia.
    + rewrite Htr, <- !app_assoc. reflexivity.
Qed.

(** [setup] always runs to its end, and stores in [compass.m_min] and
    [compass.m_max] the extremes of the 70 readings it takes. *)
Lemma setup_runs (w : World) :
  exists w',
    setup mag w = Some (tt, w') /\
    reads w' = (reads w + 70)%nat /\
    LSM303.x (LSM303.m_min (compass w'))
      = minimum_from (LSM303.x running_min_init)
          (map LSM303.x (samples mag (reads w) 70)) /\
    LSM303.y (LSM303.m_min (compass w'))
      = minimum_from (LSM303.y running_min_init)
          (map LSM303.y (samples mag (reads w) 70)) /\
    LSM303.x (LSM303.m_max (compass w'))
      = maximum_from (LSM303.x running_max_init)
          (map LSM303.x (samples mag (reads w) 70)) /\
    LSM303.y (LSM303.m_max (compass w'))
      = maximum_from (LSM303.y running_max_init)
          (map LSM303.y (samples mag (reads w) 70)) /\
    LSM303.z (LSM303.m_min (compass w')) = LSM303.z (LSM303.m_min (compass w)) /\
    LSM303.z (LSM303.m_max (compass w')) = LSM303.z (LSM303.m_max (compass w)).
Proof.
  unfold setup, println. run_events.
  match goal with
  | |- context [bind (calibration_loop mag ?n ?i ?lo ?hi) _ ?w1] =>
      remember w1 as wc eqn:Hwc;
      destruct (calibration_loop_runs n i lo hi wc)
        as (lo' & hi' & w' & es & Hrun & Hxlo & Hylo & Hzlo & Hxhi & Hyhi & Hzhi
            & Hrd & Hmin & Hmax & Htg & Htr & Hmc)
  end.
  assert (Hwc_reads : reads wc = reads w) by (subst wc; reflexivity).
  assert (Hwc_compass : compass wc = compass w) by (subst wc; reflexivity).
  rewrite (bind_Some _ _ _ _ _ Hrun). cbv beta.
  run_events. rewrite emit_run.
  eexists. split; [reflexivity|].
  cbn [compass reads add_event set_bounds fst snd
       LSM303.m_min LSM303.m_max LSM303.x LSM303.y LSM303.z].
  rewrite Hmin, Hmax, Hwc_compass, Hrd, Hxlo, Hylo, Hxhi, Hyhi, Hwc_reads.
  rewrite !minimum_from_fold_left, !maximum_from_fold_left.
  repeat split; reflexivity.
Qed.

End Setup.

(** The initial values are not 2047 and -2047.  If they were, a
    calibration that reads -2048 on [x] all the way would store -2047 as
    the maximum of [x]; [setup] stores -2048. *)
Lemma calibration_sentinels_as_claimed_fail :
  ~ (forall (mag : nat -> LSM303.vector) (w : World),
       exists w',
         setup mag w = Some (tt, w') /\
         LSM303.x (LSM303.m_min (compass w'))
           = minimum_from 2047 (map LSM303.x (samples mag (reads w) 70)) /\
         LSM303.y (LSM303.m_min (compass w'))
           = minimum_from 2047 (map LSM303.y (samples mag (reads w) 70)) /\
         LSM303.x (LSM303.m_max (compass w'))
           = maximum_from (-2047) (map LSM303.x (samples mag (reads w) 70)) /\
         LSM303.y (LSM303.m_max (compass w'))
           = maximum_from (-2047) (map LSM303.y (samples mag (reads w) 70))).
Proof.
  intros H.
  destruct (H (fun _ => Examples.vec (-2048) 0 0) (Examples.world0 None))
    as (w' & Hrun & _ & _ & Hmax & _).
  destruct (setup_runs (fun _ => Examples.vec (-2048) 0 0) (Examples.world0 None))
    as (w'' & Hrun' & _ & _ & _ & Hxhi & _).
  rewrite Hrun in Hrun'. injection Hrun' as <-.
  rewrite Hxhi in Hmax. vm_compute in Hmax. discriminate Hmax.
Qed.

(** C4 (amended).  Before sampling begins [setup] initialises
    [running_min] to 2047 on each axis and [running_max] to -2048 on each
    axis, the least 12-bit value (not -2047).  The values show in what
    [setup] stores, whatever the magnetometer delivers: the stored minimum
    of an axis is the least of 2047 and the 70 readings, the stored maximum
    the greatest of -2048 and the 70 readings.  So the initial values are
    in place before the first reading is folded in, and they are these and
    no others: readings that never go below 2047 leave 2047 as the minimum,
    readings that never go above -2048 leave -2048 as the maximum. *)
Theorem calibration_sentinels (mag : nat -> LSM303.vector) (w : World) :
  running_min_init = Examples.vec 2047 2047 2047 /\
  running_max_init = Examples.vec (-2048) (-2048) (-2048) /\
  exists w',
    setup mag w = Some (tt, w') /\
    LSM303.x (LSM303.m_min (compass w'))
      = minimum_from 2047 (map LSM303.x (samples mag (reads w) 70)) /\
    LSM303.y (LSM303.m_min (compass w'))
      = minimum_from 2047 (map LSM303.y (samples mag (reads w) 70)) /\
    LSM303.x (LSM303.m_max (compass w'))
      = maximum_from (-2048) (map LSM303.x (samples mag (reads w) 70)) /\
    LSM303.y (LSM303.m_max (compass w'))
      = maximum_from (-2048) (map LSM303.y (samples mag (reads w) 70)) /\
    ((forall v, In v (samples mag (reads w) 70) -> 2047 <= LSM303.x v) ->
     LSM303.x (LSM303.m_min (compass w')) = 2047) /\
    ((forall v, In v (samples mag (reads w) 70) -> 2047 <= LSM303.y v) ->
     LSM303.y (LSM303.m_min (compass w')) = 2047) /\
    ((forall v, In v (samples mag (reads w) 70) -> LSM303.x v <= -2048) ->
     LSM303.x (LSM303.m_max (compass w')) = -2048) /\
    ((forall v, In v (samples mag (reads w) 70) -> LSM303.y v <= -2048) ->
     LSM303.y (LSM303.m_max (compass w')) = -2048).
Proof.
  split; [reflexivity|]. split; [reflexivity|].
  destruct (setup_runs mag w) as (w' & Hrun & _ & Hxlo & Hylo & Hxhi & Hyhi & _).
  exists w'. split; [exact Hrun|].
  change (LSM303.x running_min_init) with 2047 in Hxlo.
  change (LSM303.y running_min_init) with 2047 in Hylo.
  change (LSM303.x running_max_init) with (-2048) in Hxhi.
  change (LSM303.y running_max_init) with (-2048) in Hyhi.
  split; [exact Hxlo|]. split; [exact Hylo|].
  split; [exact Hxhi|]. split; [exact Hyhi|].
  assert (Hmin : forall (f : LSM303.vector -> Z) (l : list LSM303.vector),
            (forall v, In v l -> 2047 <= f v) ->
            minimum_from 2047 (map f l) = 2047).
  { intros f l. induction l as [|a l IH]; intros Hl; [reflexivity|].
    simpl map. simpl minimum_from.
    change (fold_right Z.min 2047 (map f l)) with (minimum_from 2047 (map f l)).
    rewrite IH by (intros v Hv; apply Hl; now right).
    specialize (Hl a (or_introl eq_refl)). lia. }
  assert (Hmax : forall (f : LSM303.vector -> Z) (l : list LSM303.vector),
            (forall v, In v l -> f v <= -2048) ->
            maximum_from (-2048) (map f l) = -2048).
  { intros f l. induction l as [|a l IH]; intros Hl; [reflexivity|].
    simpl map. simpl maximum_from.
    change (fold_right Z.max (-2048) (map f l)) with (maximum_from (-2048) (map f l)).
    rewrite IH by (intros v Hv; apply Hl; now right).
    specialize (Hl a (or_introl eq_refl)). lia. }
  split; [intros Hl; rewrite Hxlo; apply Hmin; exact Hl|].
  split; [intros Hl; rewrite Hylo; apply Hmin; exact Hl|].
  split; [intros Hl; rewrite Hxhi; apply Hmax; exact Hl|].
  intros Hl. rewrite Hyhi. apply Hmax. exact Hl.
Qed.

Lemma calibration_sentinels_witness :
  exists w',
    setup (fun _ => Examples.vec 3000 (-3000) 0) (Examples.world0 None)
      = Some (tt, w') /\
    LSM303.x (LSM303.m_min (compass w')) = 2047 /\
    LSM303.y (LSM303.m_max (compass w')) = -2048 /\
    LSM303.y (LSM303.m_min (compass w')) = -3000 /\
    LSM303.x (LSM303.m_max (compass w')) = 3000.
Proof.
  destruct (calibration_sentinels (fun _ => Examples.vec 3000 (-3000) 0)
              (Examples.world0 None))
    as (_ & _ & w' & Hrun & _ & Hylo & Hxhi & _ & Hx & _ & _ & Hy).
  exists w'. split; [exact Hrun|].
  split; [apply Hx; intros v Hv; apply in_map_iff in Hv;
          destruct Hv as (k & <- & _); simpl; lia|].
  split; [apply Hy; intros v Hv; apply in_map_iff in Hv;
          destruct Hv as (k & <- & _); simpl; lia|].
  split; [rewrite Hylo | rewrite Hxhi]; vm_compute; reflexivity.
Defined.

(** C5.  [setup] takes exactly [CALIBRATION_SAMPLES] = 70 readings and
    stores as calibration bounds, per axis, the minimum (resp. maximum) of
    the initial value of [running_min] (resp. [running_max]) and the [x]
    (resp. [y]) components of those readings.  If two of the readings differ
    in [x], then [max_x > min_x], and likewise for [y]. *)
Theorem setup_calibration_bounds (mag : nat -> LSM303.vector) (w : World) :
  exists w',
    setup mag w = Some (tt, w') /\
    CALIBRATION_SAMPLES = 70 /\
    reads w' = (reads w + Z.to_nat CALIBRATION_SAMPLES)%nat /\
    LSM303.x (LSM303.m_min (compass w'))
      = minimum_from (LSM303.x running_min_init)
          (map LSM303.x (samples mag (reads w) 70)) /\
    LSM303.y (LSM303.m_min (compass w'))
      = minimum_from (LSM303.y running_min_init)
          (map LSM303.y (samples mag (reads w) 70)) /\
    LSM303.x (LSM303.m_max (compass w'))
      = maximum_from (LSM303.x running_max_init)
          (map LSM303.x (samples mag (reads w) 70)) /\
    LSM303.y (LSM303.m_max (compass w'))
      = maximum_from (LSM303.y running_max_init)
          (map LSM303.y (samples mag (reads w) 70)) /\
    ((exists a b, In a (samples mag (reads w) 70) /\
                  In b (samples mag (reads w) 70) /\
                  LSM303.x a <> LSM303.x b) ->
     LSM303.x (LSM303.m_max (compass w')) > LSM303.x (LSM303.m_min (compass w'))) /\
    ((exists a b, In a (samples mag (reads w) 70) /\
                  In b (samples mag (reads w) 70) /\
                  LSM303.y a <> LSM303.y b) ->
     LSM303.y (LSM303.m_max (compass w')) > LSM303.y (LSM303.m_min (compass w'))).
Proof.
  destruct (setup_runs mag w)
    as (w' & Hrun & Hrd & Hxlo & Hylo & Hxhi & Hyhi & _).
  exists w'. split; [exact Hrun|]. split; [reflexivity|].
  split; [exact Hrd|].
  split; [exact Hxlo|]. split; [exact Hylo|].
  split; [exact Hxhi|]. split; [exact Hyhi|].
  split.
  - intros (a & b & Ha & Hb & Hne). rewrite Hxlo, Hxhi.
    set (l := map LSM303.x (samples mag (reads w) 70)).
    destruct (minimum_from_le l (LSM303.x running_min_init)) as [_ Hmin].
    destruct (maximum_from_ge l (LSM303.x running_max_init)) as [_ Hmax].
    pose proof (Hmin _ (in_map LSM303.x _ _ Ha)).
    pose proof (Hmin _ (in_map LSM303.x _ _ Hb)).
    pose proof (Hmax _ (in_map LSM303.x _ _ Ha)).
    pose proof (Hmax _ (in_map LSM303.x _ _ Hb)).
    lia.
  - intros (a & b & Ha & Hb & Hne). rewrite Hylo, Hyhi.
    set (l := map LSM303.y (samples mag (reads w) 70)).
    destruct (minimum_from_le l (LSM303.y running_min_init)) as [_ Hmin].
    destruct (maximum_from_ge l (LSM303.y running_max_init)) as [_ Hmax].
    pose proof (Hmin _ (in_map LSM303.y _ _ Ha)).
    pose proof (Hmin _ (in_map LSM303.y _ _ Hb)).
    pose proof (Hmax _ (in_map LSM303.y _ _ Ha)).
    pose proof (Hmax _ (in_map LSM303.y _ _ Hb)).
    lia.
Qed.

Example setup_on_a_ramp :
  option_map (fun r => (LSM303.m_min (compass (snd r)),
                        LSM303.m_max (compass (snd r)), reads (snd r)))
    (setup (fun n => Examples.vec (Z.of_nat n - 30) (40 - Z.of_nat n) 7)
           (Examples.world0 None))
  = Some (Examples.vec (-30) (-29) 0, Examples.vec 39 40 0, 70%nat).
Proof. vm_compute. reflexivity. Qed.

(** ** [heading] *)

(** C9.  [heading] does not depend on the [z] component: two vectors that
    agree on [x] and [y] get the same heading under the same calibration. *)
Theorem heading_ignores_z
    (atan2 : F32.float -> F32.float -> F32.float)
    (compass : LSM303.t) (v1 v2 : LSM303.vector) :
  LSM303.x v1 = LSM303.x v2 ->
  LSM303.y v1 = LSM303.y v2 ->
  heading atan2 compass v1 = heading atan2 compass v2.
Proof.
  intros Hx Hy. unfold heading, degrees, x_scaled, y_scaled.
  rewrite Hx, Hy. reflexivity.
Qed.

Lemma heading_ignores_z_witness :
  (LSM303.x (Examples.vec 100 0 5) = LSM303.x (Examples.vec 100 0 (-7)) /\
   LSM303.y (Examples.vec 100 0 5) = LSM303.y (Examples.vec 100 0 (-7))) /\
  heading Examples.atan2_sign Examples.compass100 (Examples.vec 100 0 5)
  = heading Examples.atan2_sign Examples.compass100 (Examples.vec 100 0 (-7)).
Proof.
  split; [split; reflexivity|].
  apply (heading_ignores_z Examples.atan2_sign Examples.compass100
           (Examples.vec 100 0 5) (Examples.vec 100 0 (-7))); reflexivity.
Defined.

(** C8.  With calibration bounds -100 and 100 on both axes the vector
    (100, 0) is scaled to (1, 0); as [atan2(0, 1)] is 0, the angle is
    0 degrees and the heading is 0. *)
Theorem heading_of_east
    (atan2 : F32.float -> F32.float -> F32.float)
    (compass : LSM303.t) (v : LSM303.vector) :
  atan2 F32.zero F32.one = F32.zero ->
  LSM303.x v = 100 -> LSM303.y v = 0 ->
  LSM303.x (LSM303.m_min compass) = -100 ->
  LSM303.x (LSM303.m_max compass) = 100 ->
  LSM303.y (LSM303.m_min compass) = -100 ->
  LSM303.y (LSM303.m_max compass) = 100 ->
  x_scaled compass v = F32.one /\
  y_scaled compass v = F32.zero /\
  degrees atan2 compass v = F32.zero /\
  heading atan2 compass v = Some 0.
Proof.
  intros Hatan Hx Hy Hxlo Hxhi Hylo Hyhi.
  assert (Ex : x_scaled compass v = F32.one)
    by (unfold x_scaled; rewrite Hx, Hxlo, Hxhi; reflexivity).
  assert (Ey : y_scaled compass v = F32.zero)
    by (unfold y_scaled; rewrite Hy, Hylo, Hyhi; reflexivity).
  assert (Ed : degrees atan2 compass v = F32.zero)
    by (unfold degrees; rewrite Ex, Ey, Hatan; reflexivity).
  repeat split; try assumption.
  unfold heading. rewrite Ed. reflexivity.
Qed.

Lemma heading_of_east_witness :
  x_scaled Examples.compass100 (Examples.vec 100 0 0) = F32.one /\
  y_scaled Examples.compass100 (Examples.vec 100 0 0) = F32.zero /\
  degrees Examples.atan2_sign Examples.compass100 (Examples.vec 100 0 0) = F32.zero /\
  heading Examples.atan2_sign Examples.compass100 (Examples.vec 100 0 0) = Some 0.
Proof.
  apply (heading_of_east Examples.atan2_sign Examples.compass100
           (Examples.vec 100 0 0)); reflexivity.
Defined.

(** ** Rounding to binary32 never crosses a representable bound *)

Lemma pow2_pos (n : Z) : 0 <= n -> 0 < 2 ^ n.
Proof. intros H. apply Z.pow_pos_nonneg; lia. Qed.

Lemma val_shift (m e n : Z) :
  0 <= n -> -300 <= e -> val m (e + n) = val (m * 2 ^ n) e.
Proof.
  intros Hn He. unfold val.
  replace (e + n + 300) with (n + (e + 300)) by lia.
  rewrite Z.pow_add_r by lia. ring.
Qed.

Lemma val_le_mono (m1 m2 e : Z) : -300 <= e -> m1 <= m2 -> val m1 e <= val m2 e.
Proof.
  intros He H. unfold val. apply Z.mul_le_mono_nonneg_r; [|exact H].
  apply Z.lt_le_incl, pow2_pos. lia.
Qed.

Lemma val_lt_mono (m1 m2 e : Z) : -300 <= e -> m1 < m2 -> val m1 e < val m2 e.
Proof.
  intros He H. unfold val. apply Z.mul_lt_mono_pos_r; [|exact H].
  apply pow2_pos. lia.
Qed.

Lemma val_lt_inv (m1 m2 e : Z) : -300 <= e -> val m1 e < val m2 e -> m1 < m2.
Proof.
  intros He H. unfold val in H.
  apply Z.mul_lt_mono_pos_r in H; [exact H|]. apply pow2_pos. lia.
Qed.

Lemma val_exp_mono (m e1 e2 : Z) :
  0 <= m -> -300 <= e1 -> e1 <= e2 -> val m e1 <= val m e2.
Proof.
  intros Hm He H. unfold val. apply Z.mul_le_mono_nonneg_l; [exact Hm|].
  apply Z.pow_le_mono_r; lia.
Qed.

(** *** Number of digits *)

Lemma digits2_pos_bounds (p : positive) :
  2 ^ (Zpos (digits2_pos p) - 1) <= Zpos p < 2 ^ Zpos (digits2_pos p).
Proof.
  induction p as [p IH | p IH |]; simpl digits2_pos.
  - rewrite Pos2Z.inj_succ.
    replace (Z.succ (Zpos (digits2_pos p)) - 1) with (Z.succ (Zpos (digits2_pos p) - 1)) by lia.
    rewrite !Z.pow_succ_r by lia. lia.
  - rewrite Pos2Z.inj_succ.
    replace (Z.succ (Zpos (digits2_pos p)) - 1) with (Z.succ (Zpos (digits2_pos p) - 1)) by lia.
    rewrite !Z.pow_succ_r by lia. lia.
  - simpl. lia.
Qed.

Lemma Zdigits2_bounds (m : Z) :
  0 < m -> 2 ^ (Zdigits2 m - 1) <= m < 2 ^ Zdigits2 m.
Proof.
  destruct m as [|p|p]; try lia. intros _. apply digits2_pos_bounds.
Qed.

Lemma Zdigits2_pos (m : Z) : 0 < m -> 0 < Zdigits2 m.
Proof. destruct m; simpl; lia. Qed.

(** A positive value below a power of two has at most that many digits. *)
Lemma Zdigits2_le (m n : Z) : 0 < m -> m < 2 ^ n -> Zdigits2 m <= n.
Proof.
  intros Hm Hlt. destruct (Zdigits2_bounds m Hm) as [Hlo _].
  destruct (Z_lt_le_dec n (Zdigits2 m)) as [Hc|]; [|assumption].
  exfalso. assert (2 ^ n <= 2 ^ (Zdigits2 m - 1)) by (apply Z.pow_le_mono_r; lia).
  lia.
Qed.

(** The exponent a value of that many digits is rounded at. *)
Lemma fexp_spec (e : Z) : fexp F32.prec F32.emax e = Z.max (e - 24) (-149).
Proof. reflexivity. Qed.

(** *** Shifting right *)

Lemma shr_1_spec (mrs : shr_record) :
  0 <= shr_m mrs ->
  shr_m (shr_1 mrs) = shr_m mrs / 2 /\
  (inexact (shr_1 mrs) = true ->
   inexact mrs = true \/ shr_m (shr_1 mrs) * 2 < shr_m mrs).
Proof.
  destruct mrs as [m r s]. unfold inexact. simpl shr_m. intros Hm.
  destruct m as [|[p|p|]|p]; try lia; simpl.
  - split; [reflexivity | intros H; left; exact H].
  - split; [|intros _; right; lia].
    rewrite Pos2Z.inj_xI.
    apply Z.div_unique with (r := 1); lia.
  - split.
    + rewrite Pos2Z.inj_xO. apply Z.div_unique with (r := 0); lia.
    + intros H; left; exact H.
  - split; [reflexivity | intros _; right; lia].
Qed.

Lemma iter_pos_shr_1 (p : positive) (mrs : shr_record) :
  0 <= shr_m mrs ->
  shr_m (iter_pos shr_1 p mrs) = shr_m mrs / 2 ^ Zpos p /\
  (inexact (iter_pos shr_1 p mrs) = true ->
   inexact mrs = true \/ shr_m (iter_pos shr_1 p mrs) * 2 ^ Zpos p < shr_m mrs).
Proof.
  assert (Hdiv_nonneg : forall a k, 0 <= a -> 0 <= k -> 0 <= a / 2 ^ k)
    by (intros a k Ha Hk; apply Z.div_pos; [exact Ha | apply pow2_pos; exact Hk]).
  assert (Hstep : forall (f g : shr_record -> shr_record) (j k : Z),
     0 < j -> 0 < k ->
     (forall x, 0 <= shr_m x ->
        shr_m (f x) = shr_m x / 2 ^ j /\
        (inexact (f x) = true -> inexact x = true \/ shr_m (f x) * 2 ^ j < shr_m x)) ->
     (forall x, 0 <= shr_m x ->
        shr_m (g x) = shr_m x / 2 ^ k /\
        (inexact (g x) = true -> inexact x = true \/ shr_m (g x) * 2 ^ k < shr_m x)) ->
     forall x, 0 <= shr_m x ->
        shr_m (g (f x)) = shr_m x / 2 ^ (j + k) /\
        (inexact (g (f x)) = true ->
         inexact x = true \/ shr_m (g (f x)) * 2 ^ (j + k) < shr_m x)).
  { intros f g j k Hj Hk Hf Hg x Hx.
    destruct (Hf x Hx) as [Hf1 Hf2].
    assert (Hfx : 0 <= shr_m (f x)) by (rewrite Hf1; apply Hdiv_nonneg; lia).
    destruct (Hg (f x) Hfx) as [Hg1 Hg2].
    pose proof (pow2_pos j ltac:(lia)) as Pj.
    pose proof (pow2_pos k ltac:(lia)) as Pk.
    assert (Hfloor : shr_m (f x) * 2 ^ j <= shr_m x).
    { rewrite Hf1, Z.mul_comm. apply Z.mul_div_le. exact Pj. }
    assert (Hfloor' : shr_m (g (f x)) * 2 ^ k <= shr_m (f x)).
    { rewrite Hg1, Z.mul_comm. apply Z.mul_div_le. exact Pk. }
    split.
    - rewrite Hg1, Hf1, Z.pow_add_r, Z.div_div by lia. reflexivity.
    - intros Hi. rewrite Z.pow_add_r by lia.
      destruct (Hg2 Hi) as [Hi' | Hlt].
      + destruct (Hf2 Hi') as [Hi'' | Hlt]; [now left | right]. nia.
      + right. nia. }
  assert (H1 : forall x, 0 <= shr_m x ->
     shr_m (shr_1 x) = shr_m x / 2 ^ 1 /\
     (inexact (shr_1 x) = true -> inexact x = true \/ shr_m (shr_1 x) * 2 ^ 1 < shr_m x)).
  { intros x Hx. rewrite Z.pow_1_r. apply shr_1_spec. exact Hx. }
  revert mrs. induction p as [p IH | p IH |]; intros mrs Hm.
  - pose proof (Hstep (iter_pos shr_1 p) (iter_pos shr_1 p) (Zpos p) (Zpos p)
                  ltac:(lia) ltac:(lia) IH IH) as H2.
    pose proof (Hstep shr_1 (fun x => iter_pos shr_1 p (iter_pos shr_1 p x))
                  1 (Zpos p + Zpos p) ltac:(lia) ltac:(lia) H1 H2 mrs Hm) as H3.
    replace (Zpos p~1) with (1 + (Zpos p + Zpos p)) by lia. exact H3.
  - pose proof (Hstep (iter_pos shr_1 p) (iter_pos shr_1 p) (Zpos p) (Zpos p)
                  ltac:(lia) ltac:(lia) IH IH mrs Hm) as H2.
    replace (Zpos p~0) with (Zpos p + Zpos p) by lia. exact H2.
  - exact (H1 mrs Hm).
Qed.

Lemma inexact_of_loc (m : Z) (l : location) :
  inexact (shr_record_of_loc m l) = true -> l <> loc_Exact.
Proof. destruct l as [|[]]; simpl; discriminate. Qed.

Lemma loc_of_shr_record_of_loc (m : Z) (l : location) :
  loc_of_shr_record (shr_record_of_loc m l) = l.
Proof. destruct l as [|[]]; reflexivity. Qed.

Lemma loc_inexact (mrs : shr_record) :
  loc_of_shr_record mrs <> loc_Exact -> inexact mrs = true.
Proof.
  destruct mrs as [m [] []]; simpl; intros H; try reflexivity.
  exfalso. apply H. reflexivity.
Qed.

Lemma round_nearest_even_cases (m : Z) (l : location) :
  round_nearest_even m l = m \/
  (round_nearest_even m l = m + 1 /\ l <> loc_Exact).
Proof.
  destruct l as [|[]]; simpl; auto.
  - destruct (Z.even m); [left; reflexivity | right; split; [reflexivity | discriminate]].
  - right. split; [reflexivity | discriminate].
Qed.

Lemma shr_fexp_spec (mx ex : Z) (lx : location) :
  0 <= mx ->
  let n := fexp F32.prec F32.emax (Zdigits2 mx + ex) - ex in
  (n <= 0 /\
   shr_fexp F32.prec F32.emax mx ex lx = (shr_record_of_loc mx lx, ex)) \/
  (0 < n /\
   exists mrs,
     shr_fexp F32.prec F32.emax mx ex lx = (mrs, ex + n) /\
     shr_m mrs = mx / 2 ^ n /\
     (inexact mrs = true -> lx <> loc_Exact \/ shr_m mrs * 2 ^ n < mx)).
Proof.
  intros Hm n. unfold shr_fexp, shr. fold n.
  destruct n as [|p|p] eqn:En.
  - left. split; [lia | reflexivity].
  - right. split; [lia|].
    exists (iter_pos shr_1 p (shr_record_of_loc mx lx)).
    assert (Hrec : shr_m (shr_record_of_loc mx lx) = mx)
      by (destruct lx as [|[]]; reflexivity).
    destruct (iter_pos_shr_1 p (shr_record_of_loc mx lx)) as [H1 H2];
      [rewrite Hrec; exact Hm|].
    rewrite Hrec in H1, H2.
    split; [reflexivity|]. split; [exact H1|].
    intros Hi. destruct (H2 Hi) as [Hl | Hlt]; [left | right; exact Hlt].
    exact (inexact_of_loc _ _ Hl).
  - left. split; [lia | reflexivity].
Qed.

(** A canonical mantissa has at most 24 digits and an exponent of at least
    -149. *)
Lemma canonical_bounds (m : positive) (e : Z) :
  canonical_mantissa F32.prec F32.emax m e = true ->
  e = Z.max (Zpos (digits2_pos m) + e - 24) (-149) /\
  -149 <= e /\ Zpos m < 2 ^ 24.
Proof.
  unfold canonical_mantissa. rewrite fexp_spec. intros H.
  apply Z.eqb_eq in H. split; [lia|]. split; [lia|].
  destruct (digits2_pos_bounds m) as [_ Hhi].
  assert (Zpos (digits2_pos m) <= 24) by lia.
  assert (2 ^ Zpos (digits2_pos m) <= 2 ^ 24) by (apply Z.pow_le_mono_r; lia).
  lia.
Qed.

Lemma grid_step (m e mb eb : Z) :
  -300 <= e -> e <= eb ->
  val m e < val mb eb -> val (m + 1) e <= val mb eb.
Proof.
  intros He Hle Hlt.
  replace eb with (e + (eb - e)) in Hlt |- * by lia.
  rewrite val_shift in Hlt |- * by lia.
  apply val_lt_inv in Hlt; [|lia].
  apply val_le_mono; lia.
Qed.

Lemma val_floor (m e n : Z) :
  0 <= m -> 0 < n -> -300 <= e -> val (m / 2 ^ n) (e + n) <= val m e.
Proof.
  intros Hm Hn He. rewrite val_shift by lia.
  apply val_le_mono; [lia|].
  rewrite Z.mul_comm. apply Z.mul_div_le, pow2_pos. lia.
Qed.

(** The second shift of [binary_round_aux] does not increase the value. *)
Lemma shr_fexp_exact_le (m e : Z) :
  0 <= m -> -300 <= e ->
  exists mrs e',
    shr_fexp F32.prec F32.emax m e loc_Exact = (mrs, e') /\
    0 <= shr_m mrs /\ e <= e' /\ val (shr_m mrs) e' <= val m e.
Proof.
  intros Hm He.
  destruct (shr_fexp_spec m e loc_Exact Hm) as [[_ E] | [Hn (mrs & E & Hmrs & _)]].
  - eexists _, _. split; [exact E|]. simpl. split; [exact Hm|]. split; lia.
  - eexists _, _. split; [exact E|]. rewrite Hmrs.
    split; [apply Z.div_pos; [exact Hm | apply pow2_pos; lia]|].
    split; [lia|]. apply val_floor; assumption.
Qed.

(** The first shift and the rounding: the rounded mantissa is within any
    canonical bound the exact value is within. *)
Lemma round_first_le (mx ex : Z) (lx : location) (mb : positive) (eb : Z) :
  0 <= mx -> -300 <= ex ->
  canonical_mantissa F32.prec F32.emax mb eb = true ->
  val mx ex <= val (Zpos mb) eb ->
  (lx <> loc_Exact -> val (mx + 1) ex <= val (Zpos mb) eb) ->
  exists mrs e',
    shr_fexp F32.prec F32.emax mx ex lx = (mrs, e') /\
    0 <= round_nearest_even (shr_m mrs) (loc_of_shr_record mrs) /\
    -149 <= e' /\
    val (round_nearest_even (shr_m mrs) (loc_of_shr_record mrs)) e'
      <= val (Zpos mb) eb.
Proof.
  intros Hm He Hcan Hle Hle'.
  destruct (canonical_bounds mb eb Hcan) as (Heb & Heb' & Hmb).
  pose proof (fexp_spec (Zdigits2 mx + ex)) as Hfexp.
  destruct (shr_fexp_spec mx ex lx Hm) as [[Hn E] | [Hn (mrs & E & Hmrs & Hinex)]].
  - (* no shift *)
    eexists _, _. split; [exact E|].
    rewrite loc_of_shr_record_of_loc.
    assert (Hrec : shr_m (shr_record_of_loc mx lx) = mx)
      by (destruct lx as [|[]]; reflexivity).
    rewrite Hrec.
    destruct (round_nearest_even_cases mx lx) as [-> | [-> Hl]].
    + split; [exact Hm|]. split; [lia | exact Hle].
    + split; [lia|]. split; [lia | exact (Hle' Hl)].
  - (* a shift by n > 0 digits *)
    set (n := fexp F32.prec F32.emax (Zdigits2 mx + ex) - ex) in *.
    eexists _, _. split; [exact E|].
    assert (Hm' : 0 <= shr_m mrs)
      by (rewrite Hmrs; apply Z.div_pos; [exact Hm | apply pow2_pos; lia]).
    assert (Hfloor : val (shr_m mrs) (ex + n) <= val mx ex)
      by (rewrite Hmrs; apply val_floor; assumption).
    destruct (round_nearest_even_cases (shr_m mrs) (loc_of_shr_record mrs))
      as [-> | [-> Hl]].
    + split; [exact Hm'|]. split; lia.
    + split; [lia|]. split; [lia|].
      assert (Hstrict : val (shr_m mrs) (ex + n) < val (Zpos mb) eb).
      { destruct (Hinex (loc_inexact _ Hl)) as [Hlx | Hlt].
        - specialize (Hle' Hlx).
          assert (val mx ex < val (mx + 1) ex) by (apply val_lt_mono; lia). lia.
        - assert (val (shr_m mrs) (ex + n) < val mx ex); [|lia].
          rewrite val_shift by lia. apply val_lt_mono; lia. }
      destruct (Z_le_gt_dec (ex + n) eb) as [Hgrid | Hgrid].
      * apply grid_step; [lia | exact Hgrid | exact Hstrict].
      * exfalso.
        assert (Hm0 : 0 < mx).
        { destruct (Z.eq_dec mx 0) as [E0 | ]; [|lia].
          rewrite E0 in Hfexp. simpl Zdigits2 in Hfexp. unfold n in *. rewrite E0 in *. simpl Zdigits2 in *. lia. }
        destruct (Zdigits2_bounds mx Hm0) as [Hlo _].
        pose proof (Zdigits2_pos mx Hm0) as Hdpos.
        destruct (digits2_pos_bounds mb) as [_ Hhi].
        assert (Hd : Zpos (digits2_pos mb) + eb <= Zdigits2 mx + ex - 1)
          by (unfold n in *; lia).
        assert (H1 : val (Zpos mb) eb < 2 ^ (Zpos (digits2_pos mb) + eb + 300)).
        { unfold val.
          replace (Zpos (digits2_pos mb) + eb + 300)
            with (Zpos (digits2_pos mb) + (eb + 300)) by lia.
          rewrite (Z.pow_add_r 2 (Zpos (digits2_pos mb)) (eb + 300)) by lia.
          apply Z.mul_lt_mono_pos_r; [apply pow2_pos; lia | exact Hhi]. }
        assert (H2 : 2 ^ (Zdigits2 mx - 1 + ex + 300) <= val mx ex).
        { unfold val.
          replace (Zdigits2 mx - 1 + ex + 300)
            with (Zdigits2 mx - 1 + (ex + 300)) by lia.
          rewrite (Z.pow_add_r 2 (Zdigits2 mx - 1) (ex + 300)) by lia.
          apply Z.mul_le_mono_nonneg_r; [apply Z.lt_le_incl, pow2_pos; lia | exact Hlo]. }
        assert (H3 : 2 ^ (Zpos (digits2_pos mb) + eb + 300)
                     <= 2 ^ (Zdigits2 mx - 1 + ex + 300))
          by (apply Z.pow_le_mono_r; lia).
        lia.
Qed.

(** Rounding a value that lies within a canonical bound gives a zero or a
    finite float within that bound, with the sign asked for. *)
Lemma binary_round_aux_le (s : bool) (mx ex : Z) (lx : location)
    (mb : positive) (eb : Z) :
  0 <= mx -> -300 <= ex ->
  canonical_mantissa F32.prec F32.emax mb eb = true -> eb <= 80 ->
  val mx ex <= val (Zpos mb) eb ->
  (lx <> loc_Exact -> val (mx + 1) ex <= val (Zpos mb) eb) ->
  bounded_by (Zpos mb) eb (binary_round_aux F32.prec F32.emax s mx ex lx) /\
  has_sign s (binary_round_aux F32.prec F32.emax s mx ex lx).
Proof.
  intros Hm He Hcan Heb80 Hle Hle'.
  destruct (round_first_le mx ex lx mb eb Hm He Hcan Hle Hle')
    as (mrs & e' & E1 & Hm1 & He' & Hv1).
  destruct (shr_fexp_exact_le _ e' Hm1 ltac:(lia))
    as (mrs2 & e2 & E2 & Hm2 & He2 & Hv2).
  unfold binary_round_aux. rewrite E1, E2.
  destruct (shr_m mrs2) as [|m2|m2] eqn:Em2; [simpl; auto | | lia].
  destruct (canonical_bounds mb eb Hcan) as (_ & Heb' & Hmb).
  assert (He104 : e2 <= 104).
  { assert (H1 : val 1 e2 <= val (Zpos m2) e2) by (apply val_le_mono; lia).
    assert (H2 : val (Zpos mb) eb < val 1 (eb + 24))
      by (rewrite val_shift by lia; apply val_lt_mono; lia).
    destruct (Z_le_gt_dec e2 104) as [|Hgt]; [assumption|].
    assert (H3 : val 1 (eb + 24) <= val 1 e2) by (apply val_exp_mono; lia).
    lia. }
  replace (e2 <=? F32.emax - F32.prec) with true
    by (symmetry; apply Z.leb_le; unfold F32.emax, F32.prec; lia).
  unfold bounded_by, has_sign. split; [split; lia | reflexivity].
Qed.

(** *** Multiplication *)

Lemma val_mul (m1 e1 m2 e2 : Z) :
  -300 <= e1 + e2 -> -300 <= e1 -> -300 <= e2 ->
  val (m1 * m2) (e1 + e2) * 2 ^ 300 = val m1 e1 * val m2 e2.
Proof.
  intros H12 H1 H2. unfold val.
  replace (m1 * m2 * 2 ^ (e1 + e2 + 300) * 2 ^ 300)
    with (m1 * m2 * (2 ^ (e1 + e2 + 300) * 2 ^ 300)) by ring.
  rewrite <- Z.pow_add_r by lia.
  replace (m1 * 2 ^ (e1 + 300) * (m2 * 2 ^ (e2 + 300)))
    with (m1 * m2 * (2 ^ (e1 + 300) * 2 ^ (e2 + 300))) by ring.
  rewrite <- Z.pow_add_r by lia.
  f_equal. f_equal. lia.
Qed.

Lemma val_nonneg (m e : Z) : 0 <= m -> 0 <= val m e.
Proof.
  intros Hm. unfold val.
  destruct (Z_le_gt_dec 0 (e + 300)).
  - apply Z.mul_nonneg_nonneg; [exact Hm | apply Z.lt_le_incl, pow2_pos; assumption].
  - rewrite Z.pow_neg_r by lia. lia.
Qed.

Lemma val_pos (m e : Z) : 0 < m -> -300 <= e -> 0 < val m e.
Proof.
  intros Hm He. unfold val. apply Z.mul_pos_pos; [exact Hm | apply pow2_pos; lia].
Qed.

Lemma mul_bounded (x y : F32.float) (mb1 eb1 mb2 eb2 : Z) (mb3 : positive) (eb3 : Z) :
  bounded_by mb1 eb1 x -> bounded_by mb2 eb2 y ->
  canonical_mantissa F32.prec F32.emax mb3 eb3 = true -> eb3 <= 80 ->
  val mb1 eb1 * val mb2 eb2 <= val (Zpos mb3) eb3 * 2 ^ 300 ->
  bounded_by (Zpos mb3) eb3 (F32.mul x y).
Proof.
  intros Hx Hy Hcan Heb Hprod.
  destruct x as [sx|sx| |sx mx ex], y as [sy|sy| |sy my ey];
    unfold bounded_by in Hx, Hy |- *; try contradiction; try exact I.
  destruct Hx as [Hex Hx], Hy as [Hey Hy].
  unfold F32.mul, SFmul. fold (bounded_by (Zpos mb3) eb3).
  apply binary_round_aux_le; try assumption; try lia; [|intros H; now elim H].
  rewrite Pos2Z.inj_mul.
  pose proof (val_mul (Zpos mx) ex (Zpos my) ey ltac:(lia) ltac:(lia) ltac:(lia)) as E.
  pose proof (val_nonneg (Zpos mx) ex ltac:(lia)).
  pose proof (val_nonneg (Zpos my) ey ltac:(lia)).
  assert (val (Zpos mx) ex * val (Zpos my) ey <= val mb1 eb1 * val mb2 eb2)
    by (apply Z.mul_le_mono_nonneg; lia).
  assert (P : 0 < 2 ^ 300) by (apply pow2_pos; lia).
  nia.
Qed.

(** *** Division *)

Lemma new_location_exact (nb k : Z) : new_location nb k <> loc_Exact -> k <> 0.
Proof.
  unfold new_location, new_location_even, new_location_odd.
  intros H ->. destruct (Z.even nb); simpl in H; now apply H.
Qed.

Lemma shift_left_spec (m s : Z) :
  0 <= s ->
  match s with Zpos _ => Z.shiftl m s | 0 => m | Zneg _ => 0 end = m * 2 ^ s.
Proof.
  intros Hs. destruct s as [|p|p]; try lia.
  apply Z.shiftl_mul_pow2. lia.
Qed.

Lemma div_core_spec (mx my : positive) (ex ey : Z) :
  -149 <= ex -> -149 <= ey <= 104 ->
  exists q e' l,
    SFdiv_core_binary F32.prec F32.emax (Zpos mx) ex (Zpos my) ey = (q, e', l) /\
    0 <= q /\ -300 <= e' /\
    e' <= Z.max (Zpos (digits2_pos mx) + ex - (Zpos (digits2_pos my) + ey) - 24) (-149) /\
    val q e' * val (Zpos my) ey <= val (Zpos mx) ex * 2 ^ 300 /\
    (l <> loc_Exact ->
     val q e' * val (Zpos my) ey < val (Zpos mx) ex * 2 ^ 300).
Proof.
  intros Hex Hey. unfold SFdiv_core_binary.
  set (e' := Z.min (fexp F32.prec F32.emax
                      (Zdigits2 (Zpos mx) + ex - (Zdigits2 (Zpos my) + ey))) (ex - ey)).
  set (s := ex - ey - e').
  assert (He' : e' <= Z.max (Zpos (digits2_pos mx) + ex - (Zpos (digits2_pos my) + ey) - 24) (-149))
    by (unfold e'; rewrite fexp_spec; simpl Zdigits2; lia).
  assert (He'lo : -300 <= e') by (unfold e'; rewrite fexp_spec; lia).
  assert (Hs : 0 <= s) by (unfold s, e'; lia).
  set (m' := match s with Zpos _ => Z.shiftl (Zpos mx) s | 0 => Zpos mx | Zneg _ => 0 end).
  assert (Hm' : m' = Zpos mx * 2 ^ s) by (apply shift_left_spec; exact Hs).
  pose proof (Z_div_mod m' (Zpos my) ltac:(lia)) as Hdm.
  destruct (Z.div_eucl m' (Zpos my)) as [q r].
  destruct Hdm as [Hdm Hr].
  assert (Ps : 0 < 2 ^ s) by (apply pow2_pos; lia).
  assert (Hq : 0 <= q) by nia.
  exists q, e', (new_location (Zpos my) r).
  split; [reflexivity|]. split; [exact Hq|]. split; [exact He'lo|]. split; [exact He'|].
  assert (E : val (Zpos mx) ex * 2 ^ 300 = val (Zpos mx * 2 ^ s) e' * val 1 ey).
  { unfold val.
    replace (Zpos mx * 2 ^ (ex + 300) * 2 ^ 300)
      with (Zpos mx * (2 ^ (ex + 300) * 2 ^ 300)) by ring.
    rewrite <- Z.pow_add_r by lia.
    replace (Zpos mx * 2 ^ s * 2 ^ (e' + 300) * (1 * 2 ^ (ey + 300)))
      with (Zpos mx * (2 ^ s * 2 ^ (e' + 300) * 2 ^ (ey + 300))) by ring.
    rewrite <- !Z.pow_add_r by lia.
    f_equal. f_equal. unfold s. lia. }
  assert (E2 : val q e' * val (Zpos my) ey = val (q * Zpos my) e' * val 1 ey).
  { unfold val. ring. }
  rewrite E, E2.
  pose proof (val_pos 1 ey ltac:(lia) ltac:(lia)) as P1.
  split.
  - apply Z.mul_le_mono_nonneg_r; [lia|]. apply val_le_mono; [lia|]. nia.
  - intros Hl. apply new_location_exact in Hl.
    apply Z.mul_lt_mono_pos_r; [exact P1|]. apply val_lt_mono; [lia|]. nia.
Qed.

Lemma val_digits_bounds (m e : Z) :
  0 < m -> -300 <= e ->
  2 ^ (Zdigits2 m + e + 299) <= val m e < 2 ^ (Zdigits2 m + e + 300).
Proof.
  intros Hm He. unfold val.
  destruct (Zdigits2_bounds m Hm) as [Hlo Hhi].
  pose proof (Zdigits2_pos m Hm) as Hd.
  replace (Zdigits2 m + e + 299) with (Zdigits2 m - 1 + (e + 300)) by lia.
  replace (Zdigits2 m + e + 300) with (Zdigits2 m + (e + 300)) by lia.
  rewrite (Z.pow_add_r 2 (Zdigits2 m - 1) (e + 300)) by lia.
  rewrite (Z.pow_add_r 2 (Zdigits2 m) (e + 300)) by lia.
  pose proof (pow2_pos (e + 300) ltac:(lia)) as P.
  split.
  - apply Z.mul_le_mono_nonneg_r; lia.
  - apply Z.mul_lt_mono_pos_r; lia.
Qed.

Lemma val_digits_le (m1 e1 m2 e2 : Z) :
  0 < m1 -> 0 < m2 -> -300 <= e1 -> -300 <= e2 ->
  val m1 e1 <= val m2 e2 ->
  Zdigits2 m1 + e1 <= Zdigits2 m2 + e2.
Proof.
  intros Hm1 Hm2 He1 He2 Hle.
  destruct (val_digits_bounds m1 e1 Hm1 He1) as [Hlo _].
  destruct (val_digits_bounds m2 e2 Hm2 He2) as [_ Hhi].
  destruct (Z_le_gt_dec (Zdigits2 m1 + e1) (Zdigits2 m2 + e2)) as [|Hgt]; [assumption|].
  exfalso.
  assert (2 ^ (Zdigits2 m2 + e2 + 300) <= 2 ^ (Zdigits2 m1 + e1 + 299))
    by (apply Z.pow_le_mono_r; lia).
  lia.
Qed.

(** Dividing a value within [mb1 * 2^eb1] by a value of at least
    [mc * 2^ec] gives a value within any canonical bound that is at least the
    quotient of the two and whose exponent is at least that of the grid the
    quotient is computed on. *)
Lemma div_bounded (x y : F32.float) (mb1 : positive) (eb1 : Z)
    (mc : positive) (ec : Z) (mb3 : positive) (eb3 : Z) :
  bounded_by (Zpos mb1) eb1 x -> at_least (Zpos mc) ec y ->
  -300 <= eb1 -> -300 <= ec ->
  canonical_mantissa F32.prec F32.emax mb3 eb3 = true -> eb3 <= 80 ->
  val (Zpos mb1) eb1 * 2 ^ 300 <= val (Zpos mb3) eb3 * val (Zpos mc) ec ->
  Zpos (digits2_pos mb1) + eb1 - (Zpos (digits2_pos mc) + ec) - 24 <= eb3 ->
  bounded_by (Zpos mb3) eb3 (F32.div x y).
Proof.
  intros Hx Hy Heb1 Hec Hcan Heb3 Hquot Hgrid.
  destruct (canonical_bounds mb3 eb3 Hcan) as (_ & Heb3lo & _).
  destruct y as [sy|sy| |sy my ey]; unfold at_least in Hy; try contradiction.
  destruct Hy as [Hey Hy].
  destruct x as [sx|sx| |sx mx ex]; unfold bounded_by in Hx; try contradiction.
  - exact I.
  - destruct Hx as [Hex Hx].
    unfold F32.div, SFdiv.
    destruct (div_core_spec mx my ex ey Hex Hey)
      as (q & e' & l & E & Hq & He'lo & He' & Hle & Hlt).
    rewrite E.
    pose proof (val_pos (Zpos my) ey ltac:(lia) ltac:(lia)) as Py.
    pose proof (val_nonneg (Zpos mb3) eb3 ltac:(lia)) as Pb3.
    assert (Hchain : val (Zpos mx) ex * 2 ^ 300 <= val (Zpos mb3) eb3 * val (Zpos my) ey).
    { assert (P : 0 < 2 ^ 300) by (apply pow2_pos; lia).
      assert (val (Zpos mx) ex * 2 ^ 300 <= val (Zpos mb1) eb1 * 2 ^ 300)
        by (apply Z.mul_le_mono_nonneg_r; lia).
      assert (val (Zpos mb3) eb3 * val (Zpos mc) ec
              <= val (Zpos mb3) eb3 * val (Zpos my) ey)
        by (apply Z.mul_le_mono_nonneg_l; lia).
      lia. }
    assert (He'eb : e' <= eb3).
    { pose proof (val_digits_le (Zpos mx) ex (Zpos mb1) eb1
                    ltac:(lia) ltac:(lia) ltac:(lia) ltac:(lia) Hx) as D1.
      pose proof (val_digits_le (Zpos mc) ec (Zpos my) ey
                    ltac:(lia) ltac:(lia) ltac:(lia) ltac:(lia) Hy) as D2.
      simpl Zdigits2 in D1, D2. lia. }
    apply binary_round_aux_le; try assumption.
    + apply Z.mul_le_mono_pos_r with (p := val (Zpos my) ey); [exact Py | lia].
    + intros Hl. specialize (Hlt Hl).
      apply grid_step; [exact He'lo | exact He'eb |].
      apply Z.mul_lt_mono_pos_r with (p := val (Zpos my) ey); [exact Py | lia].
Qed.

(** *** Addition and subtraction *)

Lemma pos_iter_xO (m d : positive) : Zpos (Pos.iter xO m d) = Zpos m * 2 ^ Zpos d.
Proof.
  induction d as [|d IH] using Pos.peano_ind.
  - simpl. lia.
  - rewrite Pos.iter_succ, Pos2Z.inj_xO, IH, Pos2Z.inj_succ, Z.pow_succ_r by lia.
    ring.
Qed.

Lemma shl_align_spec (m : positive) (e e' : Z) :
  -300 <= e -> -300 <= e' ->
  val (Zpos (fst (shl_align m e e'))) (snd (shl_align m e e')) = val (Zpos m) e /\
  snd (shl_align m e e') = Z.min e e'.
Proof.
  intros He He'. unfold shl_align.
  destruct (e' - e) as [|d|d] eqn:Ed; simpl fst; simpl snd.
  - split; [reflexivity | lia].
  - split; [reflexivity | lia].
  - rewrite pos_iter_xO. split; [|lia].
    rewrite <- val_shift by lia. f_equal. lia.
Qed.

Lemma val_add (a b e : Z) : val (a + b) e = val a e + val b e.
Proof. unfold val. ring. Qed.

Lemma binary_round_le (s : bool) (m : positive) (e : Z) (mb : positive) (eb : Z) :
  -300 <= e ->
  canonical_mantissa F32.prec F32.emax mb eb = true -> eb <= 80 ->
  val (Zpos m) e <= val (Zpos mb) eb ->
  bounded_by (Zpos mb) eb (binary_round F32.prec F32.emax s m e) /\
  has_sign s (binary_round F32.prec F32.emax s m e).
Proof.
  intros He Hcan Heb Hle. unfold binary_round.
  pose proof (fexp_spec (Zpos (digits2_pos m) + e)) as Hf.
  destruct (shl_align_spec m e (fexp F32.prec F32.emax (Zpos (digits2_pos m) + e))
              He ltac:(lia)) as [Hv Hs].
  destruct (shl_align m e (fexp F32.prec F32.emax (Zpos (digits2_pos m) + e)))
    as [mz ez]. simpl fst in Hv. simpl snd in Hv, Hs.
  apply binary_round_aux_le; try assumption; try lia.
  intros H. now elim H.
Qed.

Lemma binary_normalize_le (m e : Z) (szero : bool) (mb : positive) (eb : Z) :
  -300 <= e ->
  canonical_mantissa F32.prec F32.emax mb eb = true -> eb <= 80 ->
  val (Z.abs m) e <= val (Zpos mb) eb ->
  bounded_by (Zpos mb) eb (binary_normalize F32.prec F32.emax m e szero) /\
  (0 < m -> has_sign false (binary_normalize F32.prec F32.emax m e szero)) /\
  (m < 0 -> has_sign true (binary_normalize F32.prec F32.emax m e szero)).
Proof.
  intros He Hcan Heb Hle. destruct m as [|p|p]; simpl binary_normalize.
  - split; [exact I|]. split; lia.
  - destruct (binary_round_le false p e mb eb He Hcan Heb Hle) as [Hb Hs].
    split; [exact Hb|]. split; [intros _; exact Hs | lia].
  - destruct (binary_round_le true p e mb eb He Hcan Heb Hle) as [Hb Hs].
    split; [exact Hb|]. split; [lia | intros _; exact Hs].
Qed.

(** The aligned mantissas that [SFadd] and [SFsub] add up. *)
Lemma aligned_spec (mx my : positive) (ex ey : Z) :
  -300 <= ex -> -300 <= ey ->
  val (Zpos (fst (shl_align mx ex (Z.min ex ey)))) (Z.min ex ey) = val (Zpos mx) ex /\
  val (Zpos (fst (shl_align my ey (Z.min ex ey)))) (Z.min ex ey) = val (Zpos my) ey.
Proof.
  intros Hex Hey.
  destruct (shl_align_spec mx ex (Z.min ex ey) Hex ltac:(lia)) as [Hx Hsx].
  destruct (shl_align_spec my ey (Z.min ex ey) Hey ltac:(lia)) as [Hy Hsy].
  replace (Z.min ex (Z.min ex ey)) with (Z.min ex ey) in Hsx by lia.
  replace (Z.min ey (Z.min ex ey)) with (Z.min ex ey) in Hsy by lia.
  rewrite Hsx in Hx. rewrite Hsy in Hy. split; assumption.
Qed.

Lemma cond_Zopp_abs (s : bool) (m : Z) : Z.abs (cond_Zopp s m) = Z.abs m.
Proof. destruct s; simpl; lia. Qed.

Lemma val_abs_add (a b e : Z) :
  -300 <= e -> val (Z.abs (a + b)) e <= val (Z.abs a) e + val (Z.abs b) e.
Proof. intros He. rewrite <- val_add. apply val_le_mono; lia. Qed.

Lemma val_abs_sub (a b e : Z) :
  -300 <= e -> val (Z.abs (a - b)) e <= val (Z.abs a) e + val (Z.abs b) e.
Proof. intros He. rewrite <- val_add. apply val_le_mono; lia. Qed.

(** The sum and the difference of two values within [mb1 * 2^eb1] and
    [mb2 * 2^eb2] are within any canonical bound that is at least the sum
    of the two. *)
Lemma add_sub_bounded (x y : F32.float) (mb1 eb1 mb2 eb2 : Z) (mb3 : positive) (eb3 : Z) :
  bounded_by mb1 eb1 x -> bounded_by mb2 eb2 y ->
  0 <= mb1 -> 0 <= mb2 ->
  canonical_mantissa F32.prec F32.emax mb3 eb3 = true -> eb3 <= 80 ->
  val mb1 eb1 + val mb2 eb2 <= val (Zpos mb3) eb3 ->
  bounded_by (Zpos mb3) eb3 (F32.add x y) /\
  bounded_by (Zpos mb3) eb3 (F32.sub x y).
Proof.
  intros Hx Hy Hmb1 Hmb2 Hcan Heb Hsum.
  pose proof (val_nonneg mb1 eb1 Hmb1) as P1.
  pose proof (val_nonneg mb2 eb2 Hmb2) as P2.
  destruct x as [sx|sx| |sx mx ex], y as [sy|sy| |sy my ey];
    unfold bounded_by in Hx, Hy; try contradiction.
  - destruct sx, sy; split; exact I.
  - destruct Hy as [Hey Hy].
    unfold F32.add, F32.sub, SFadd, SFsub, bounded_by. split; split; lia.
  - destruct Hx as [Hex Hx].
    unfold F32.add, F32.sub, SFadd, SFsub, bounded_by. split; split; lia.
  - destruct Hx as [Hex Hx], Hy as [Hey Hy].
    destruct (aligned_spec mx my ex ey ltac:(lia) ltac:(lia)) as [Ax Ay].
    unfold F32.add, F32.sub, SFadd, SFsub.
    set (ez := Z.min ex ey) in *.
    set (ax := Zpos (fst (shl_align mx ex ez))) in *.
    set (ay := Zpos (fst (shl_align my ey ez))) in *.
    assert (Hax : val (Z.abs (cond_Zopp sx ax)) ez = val (Zpos mx) ex)
      by (rewrite cond_Zopp_abs; unfold ax; simpl Z.abs; exact Ax).
    assert (Hay : val (Z.abs (cond_Zopp sy ay)) ez = val (Zpos my) ey)
      by (rewrite cond_Zopp_abs; unfold ay; simpl Z.abs; exact Ay).
    split.
    + apply binary_normalize_le; try assumption; [unfold ez; lia|].
      pose proof (val_abs_add (cond_Zopp sx ax) (cond_Zopp sy ay) ez
                    ltac:(unfold ez; lia)). lia.
    + apply binary_normalize_le; try assumption; [unfold ez; lia|].
      pose proof (val_abs_sub (cond_Zopp sx ax) (cond_Zopp sy ay) ez
                    ltac:(unfold ez; lia)). lia.
Qed.

Lemma add_same_sign (s : bool) (mx my : positive) (ex ey : Z) (mb3 : positive) (eb3 : Z) :
  -300 <= ex -> -300 <= ey ->
  canonical_mantissa F32.prec F32.emax mb3 eb3 = true -> eb3 <= 80 ->
  val (Zpos mx) ex + val (Zpos my) ey <= val (Zpos mb3) eb3 ->
  bounded_by (Zpos mb3) eb3 (F32.add (S754_finite s mx ex) (S754_finite s my ey)) /\
  has_sign s (F32.add (S754_finite s mx ex) (S754_finite s my ey)).
Proof.
  intros Hex Hey Hcan Heb Hsum.
  destruct (aligned_spec mx my ex ey Hex Hey) as [Ax Ay].
  unfold F32.add, SFadd.
  set (ez := Z.min ex ey) in *.
  set (ax := fst (shl_align mx ex ez)) in *.
  set (ay := fst (shl_align my ey ez)) in *.
  destruct (binary_normalize_le (cond_Zopp s (Zpos ax) + cond_Zopp s (Zpos ay))
              ez false mb3 eb3 ltac:(unfold ez; lia) Hcan Heb) as (Hb & Hpos & Hneg).
  - replace (Z.abs (cond_Zopp s (Zpos ax) + cond_Zopp s (Zpos ay)))
      with (Zpos ax + Zpos ay) by (destruct s; simpl cond_Zopp; lia).
    rewrite val_add. lia.
  - split; [exact Hb|].
    destruct s; [apply Hneg | apply Hpos]; simpl cond_Zopp; lia.
Qed.

Lemma sub_opposite_sign (s : bool) (mx my : positive) (ex ey : Z) (mb3 : positive) (eb3 : Z) :
  -300 <= ex -> -300 <= ey ->
  canonical_mantissa F32.prec F32.emax mb3 eb3 = true -> eb3 <= 80 ->
  val (Zpos mx) ex + val (Zpos my) ey <= val (Zpos mb3) eb3 ->
  bounded_by (Zpos mb3) eb3 (F32.sub (S754_finite s mx ex) (S754_finite (negb s) my ey)) /\
  has_sign s (F32.sub (S754_finite s mx ex) (S754_finite (negb s) my ey)).
Proof.
  intros Hex Hey Hcan Heb Hsum.
  destruct (aligned_spec mx my ex ey Hex Hey) as [Ax Ay].
  unfold F32.sub, SFsub.
  set (ez := Z.min ex ey) in *.
  set (ax := fst (shl_align mx ex ez)) in *.
  set (ay := fst (shl_align my ey ez)) in *.
  destruct (binary_normalize_le (cond_Zopp s (Zpos ax) - cond_Zopp (negb s) (Zpos ay))
              ez false mb3 eb3 ltac:(unfold ez; lia) Hcan Heb) as (Hb & Hpos & Hneg).
  - replace (Z.abs (cond_Zopp s (Zpos ax) - cond_Zopp (negb s) (Zpos ay)))
      with (Zpos ax + Zpos ay) by (destruct s; simpl cond_Zopp; lia).
    rewrite val_add. lia.
  - split; [exact Hb|].
    destruct s; [apply Hneg | apply Hpos]; simpl cond_Zopp; lia.
Qed.

(** *** Comparison *)

Lemma leb_bounded (a : F32.float) (mb : positive) (eb : Z) :
  F32.valid a = true ->
  canonical_mantissa F32.prec F32.emax mb eb = true -> 2 ^ 23 <= Zpos mb ->
  F32.leb a (S754_finite false mb eb) = true ->
  F32.leb (S754_finite true mb eb) a = true ->
  bounded_by (Zpos mb) eb a.
Proof.
  intros Hv Hcan Hnorm Hhi Hlo.
  destruct (canonical_bounds mb eb Hcan) as (_ & Heb & _).
  destruct a as [s|s| |s m e]; unfold F32.leb, SFleb in Hhi, Hlo.
  - exact I.
  - destruct s; simpl in Hhi, Hlo; discriminate.
  - simpl in Hhi. discriminate.
  - unfold F32.valid, valid_binary, bounded in Hv.
    apply andb_true_iff in Hv. destruct Hv as [Hcm _].
    destruct (canonical_bounds m e Hcm) as (_ & He & Hm).
    assert (Hcmp : (e < eb) \/ (e = eb /\ Zpos m <= Zpos mb)).
    { destruct s; simpl SFcompare in Hhi, Hlo.
      - destruct (Z.compare_spec eb e) as [E | E | E]; try discriminate; [|lia].
        right. split; [lia|].
        change (Pos.compare_cont Eq mb m) with (Pos.compare mb m) in Hlo.
        destruct (Pos.compare_spec mb m); simpl in Hlo; try discriminate; lia.
      - destruct (Z.compare_spec e eb) as [E | E | E]; try discriminate; [|lia].
        right. split; [lia|].
        change (Pos.compare_cont Eq m mb) with (Pos.compare m mb) in Hhi.
        destruct (Pos.compare_spec m mb); simpl in Hhi; try discriminate; lia. }
    unfold bounded_by. split; [exact He|].
    destruct Hcmp as [Hlt | [-> Hle]].
    + assert (H1 : val (Zpos m) e <= val (2 ^ 24) e) by (apply val_le_mono; lia).
      assert (H2 : val (2 ^ 24) e = val 1 (e + 24))
        by (rewrite val_shift by lia; f_equal).
      assert (H3 : val 1 (e + 24) <= val 1 (eb + 23)) by (apply val_exp_mono; lia).
      assert (H4 : val 1 (eb + 23) = val (2 ^ 23) eb)
        by (rewrite val_shift by lia; f_equal).
      assert (H5 : val (2 ^ 23) eb <= val (Zpos mb) eb) by (apply val_le_mono; lia).
      lia.
    + apply val_le_mono; lia.
Qed.

(** *** Truncation *)

Lemma trunc_bounded (f : F32.float) (mb eb N : Z) :
  bounded_by mb eb f -> val mb eb < val (N + 1) 0 -> 0 <= N ->
  exists n,
    F32.trunc f = Some n /\
    (has_sign false f -> 0 <= n <= N) /\
    (has_sign true f -> - N <= n <= 0).
Proof.
  intros Hb Hlt HN.
  destruct f as [s|s| |s m e]; unfold bounded_by in Hb; try contradiction.
  - exists 0. split; [reflexivity|]. split; lia.
  - destruct Hb as [He Hle].
    assert (Ha : 0 <= match e with
                      | Zneg p => Z.shiftr (Zpos m) (Zpos p)
                      | _ => Z.shiftl (Zpos m) e
                      end <= N).
    { destruct e as [|p|p].
      - rewrite Z.shiftl_0_r.
        assert (val (Zpos m) 0 < val (N + 1) 0) by lia.
        apply val_lt_inv in H; lia.
      - rewrite Z.shiftl_mul_pow2 by lia.
        pose proof (pow2_pos (Zpos p) ltac:(lia)).
        assert (Hs : val (Zpos m) (0 + Zpos p) < val (N + 1) 0) by (simpl Z.add; lia).
        rewrite val_shift in Hs by lia.
        apply val_lt_inv in Hs; [|lia]. nia.
      - rewrite Z.shiftr_div_pow2 by lia.
        pose proof (pow2_pos (Zpos p) ltac:(lia)) as P.
        assert (Hq : 0 <= Zpos m / 2 ^ Zpos p) by (apply Z.div_pos; lia).
        split; [exact Hq|].
        assert (Hfl : val (Zpos m / 2 ^ Zpos p) (Zneg p + Zpos p) <= val (Zpos m) (Zneg p))
          by (apply val_floor; lia).
        replace (Zneg p + Zpos p) with 0 in Hfl by lia.
        assert (Hs : val (Zpos m / 2 ^ Zpos p) 0 < val (N + 1) 0) by lia.
        apply val_lt_inv in Hs; lia. }
    eexists. split; [reflexivity|]. unfold has_sign.
    split; intros ->; lia.
Qed.

(** *** The [round] macro *)

Lemma to_long_in_range (f : F32.float) (n : Z) :
  F32.trunc f = Some n -> -2147483648 <= n <= 2147483647 ->
  F32.to_long f = Some n.
Proof.
  intros Ht Hn. unfold F32.to_long. rewrite Ht.
  replace (-2147483648 <=? n) with true by (symmetry; apply Z.leb_le; lia).
  replace (n <=? 2147483647) with true by (symmetry; apply Z.leb_le; lia).
  reflexivity.
Qed.

(** An angle of magnitude at most 180 + 2^-16 degrees is rounded to an
    integer between -180 and 180. *)
Lemma c_round_bounded (t : F32.float) :
  bounded_by 11796481 (-16) t ->
  exists r, c_round t = Some r /\ -180 <= r <= 180.
Proof.
  intros Hb.
  assert (Hcan : canonical_mantissa F32.prec F32.emax 11829249 (-16) = true)
    by reflexivity.
  destruct t as [s|s| |s m e]; unfold bounded_by in Hb; try contradiction.
  - exists 0. split; [destruct s; reflexivity | lia].
  - destruct Hb as [He Hle]. unfold c_round.
    assert (Hsum : val (Zpos m) e + val 8388608 (-24) <= val 11829249 (-16)).
    { assert (val 11796481 (-16) + val 8388608 (-24) = val 11829249 (-16))
        by (vm_compute; reflexivity).
      lia. }
    assert (Hlt : val 11829249 (-16) < val (180 + 1) 0) by (vm_compute; reflexivity).
    destruct s.
    + change (F32.geb (S754_finite true m e) F32.zero) with false.
      destruct (sub_opposite_sign true m 8388608 e (-24) 11829249 (-16)
                  ltac:(lia) ltac:(lia) Hcan ltac:(lia) Hsum) as [Hb Hs].
      change (S754_finite (negb true) 8388608 (-24)) with F32.half in Hb, Hs.
      destruct (trunc_bounded _ _ _ 180 Hb Hlt ltac:(lia)) as (n & Hn & _ & Hneg).
      specialize (Hneg Hs).
      exists n. split; [|lia]. apply to_long_in_range; [exact Hn | lia].
    + change (F32.geb (S754_finite false m e) F32.zero) with true.
      destruct (add_same_sign false m 8388608 e (-24) 11829249 (-16)
                  ltac:(lia) ltac:(lia) Hcan ltac:(lia) Hsum) as [Hb Hs].
      change (S754_finite false 8388608 (-24)) with F32.half in Hb, Hs.
      destruct (trunc_bounded _ _ _ 180 Hb Hlt ltac:(lia)) as (n & Hn & Hpos & _).
      specialize (Hpos Hs).
      exists n. split; [|lia]. apply to_long_in_range; [exact Hn | lia].
Qed.

(** *** Radians to degrees *)

(** A valid angle between [-M_PI] and [M_PI], times 180 and divided by
    [M_PI], is at most 180 + 2^-16 in magnitude. *)
Lemma degrees_bounded (a : F32.float) :
  F32.valid a = true ->
  F32.leb a F32.M_PI = true ->
  F32.leb (F32.opp F32.M_PI) a = true ->
  bounded_by 11796481 (-16) (F32.div (F32.mul a F32.c180) F32.M_PI).
Proof.
  intros Hv Hhi Hlo.
  assert (Ha : bounded_by 13176795 (-22) a).
  { apply leb_bounded; try assumption; [reflexivity | vm_compute; discriminate]. }
  assert (Hu : bounded_by 9264934 (-14) (F32.mul a F32.c180)).
  { apply (mul_bounded a F32.c180 13176795 (-22) 11796480 (-16)).
    - exact Ha.
    - unfold F32.c180, bounded_by. split; [lia | apply Z.le_refl].
    - reflexivity.
    - lia.
    - vm_compute. discriminate. }
  apply (div_bounded _ F32.M_PI 9264934 (-14) 13176795 (-22)).
  - exact Hu.
  - unfold F32.M_PI, at_least. split; [lia | apply Z.le_refl].
  - lia.
  - lia.
  - reflexivity.
  - lia.
  - vm_compute. discriminate.
  - vm_compute. discriminate.
Qed.

(** *** Integers converted to binary32 *)

(** An integer of at most 24 bits is converted exactly. *)
Lemma binary_round_small (s : bool) (p : positive) :
  Zpos p < 2 ^ 24 ->
  exists mz,
    binary_round F32.prec F32.emax s p 0
      = S754_finite s mz (Zpos (digits2_pos p) - 24) /\
    val (Zpos mz) (Zpos (digits2_pos p) - 24) = val (Zpos p) 0.
Proof.
  intros Hp. unfold binary_round.
  pose proof (Zdigits2_le (Zpos p) 24 ltac:(lia) Hp) as Hd. simpl Zdigits2 in Hd.
  set (d := Zpos (digits2_pos p)) in *.
  assert (Hd1 : 1 <= d) by (unfold d; lia).
  replace (fexp F32.prec F32.emax (d + 0)) with (d - 24)
    by (rewrite fexp_spec; lia).
  destruct (shl_align_spec p 0 (d - 24) ltac:(lia) ltac:(lia)) as [Hv Hs].
  destruct (shl_align p 0 (d - 24)) as [mz ez]. simpl fst in Hv. simpl snd in Hv, Hs.
  replace (Z.min 0 (d - 24)) with (d - 24) in Hs by lia. subst ez.
  exists mz. split; [|exact Hv].
  assert (Hdz : Zdigits2 (Zpos mz) = 24).
  { pose proof (val_digits_le (Zpos mz) (d - 24) (Zpos p) 0
                  ltac:(lia) ltac:(lia) ltac:(lia) ltac:(lia) ltac:(lia)) as D1.
    pose proof (val_digits_le (Zpos p) 0 (Zpos mz) (d - 24)
                  ltac:(lia) ltac:(lia) ltac:(lia) ltac:(lia) ltac:(lia)) as D2.
    simpl Zdigits2 in D1, D2 |- *. fold d in D1, D2. lia. }
  assert (Hshr : shr_fexp F32.prec F32.emax (Zpos mz) (d - 24) loc_Exact
                 = (shr_record_of_loc (Zpos mz) loc_Exact, d - 24)).
  { destruct (shr_fexp_spec (Zpos mz) (d - 24) loc_Exact ltac:(lia))
      as [[_ E] | [Hn _]]; [exact E|].
    rewrite fexp_spec, Hdz in Hn. lia. }
  unfold binary_round_aux. rewrite Hshr.
  simpl shr_m. simpl loc_of_shr_record. simpl round_nearest_even.
  rewrite Hshr. simpl shr_m.
  replace (d - 24 <=? F32.emax - F32.prec) with true
    by (symmetry; apply Z.leb_le; unfold F32.emax, F32.prec; lia).
  reflexivity.
Qed.

(** Converting a 16-bit integer gives a value of magnitude at most 32768,
    a zero for 0 and at least 1 in magnitude otherwise. *)
Lemma of_int_spec (n : Z) :
  Int16.in_range n ->
  bounded_by 8388608 (-8) (F32.of_int n) /\
  (n = 0 -> F32.of_int n = F32.zero) /\
  (n <> 0 -> at_least 8388608 (-23) (F32.of_int n)).
Proof.
  intros Hn. unfold Int16.in_range, Int16.min_int, Int16.max_int in Hn.
  assert (Hone : val 8388608 (-23) = val 1 0) by (vm_compute; reflexivity).
  assert (Hmax : val 8388608 (-8) = val 32768 0) by (vm_compute; reflexivity).
  split; [|split].
  - apply binary_normalize_le; [lia | reflexivity | lia |].
    rewrite Hmax. apply val_le_mono; lia.
  - intros ->. reflexivity.
  - intros Hne. unfold F32.of_int.
    assert (Hsmall : forall s p, Zpos p <= 32768 ->
              at_least 8388608 (-23) (binary_round F32.prec F32.emax s p 0)).
    { intros s p Hp.
      destruct (binary_round_small s p ltac:(lia)) as (mz & -> & Hv).
      pose proof (Zdigits2_le (Zpos p) 24 ltac:(lia) ltac:(lia)) as Hd.
      simpl Zdigits2 in Hd.
      unfold at_least. split; [lia|].
      rewrite Hv, Hone. apply val_le_mono; lia. }
    destruct n as [|p|p]; [contradiction | |]; simpl binary_normalize;
      apply Hsmall; lia.
Qed.

(** ** The scaled coordinates *)

Lemma bounded_by_finite (mb eb : Z) (f : F32.float) :
  bounded_by mb eb f -> F32.is_finite f = true /\ F32.is_nan f = false.
Proof. destruct f; simpl; intros H; try contradiction; split; reflexivity. Qed.


Lemma sub_eq_0 (a b : Z) :
  Int16.in_range a -> Int16.in_range b -> (Int16.sub a b = 0 <-> a = b).
Proof.
  unfold Int16.in_range, Int16.min_int, Int16.max_int. intros Ha Hb. split.
  - intros H. apply wrap_eq_0 in H; lia.
  - intros ->. unfold Int16.sub. rewrite Z.sub_diag. reflexivity.
Qed.

(** With a divisor other than 0 a scaled coordinate is a finite float, of
    magnitude at most 65537. *)
Lemma scaled_bounded (n d : Z) :
  Int16.in_range n -> Int16.in_range d -> d <> 0 ->
  bounded_by 8388736 (-7)
    (F32.sub (F32.div (F32.mul F32.two (F32.of_int n)) (F32.of_int d)) F32.one).
Proof.
  intros Hn Hd Hd0.
  destruct (of_int_spec n Hn) as (Hbn & _ & _).
  destruct (of_int_spec d Hd) as (_ & _ & Hld). specialize (Hld Hd0).
  assert (Hnum : bounded_by 8388608 (-7) (F32.mul F32.two (F32.of_int n))).
  { apply (mul_bounded F32.two (F32.of_int n) 8388608 (-22) 8388608 (-8)).
    - unfold F32.two, bounded_by. split; [lia | apply Z.le_refl].
    - exact Hbn.
    - reflexivity.
    - lia.
    - vm_compute. discriminate. }
  assert (Hquot : bounded_by 8388608 (-7)
            (F32.div (F32.mul F32.two (F32.of_int n)) (F32.of_int d))).
  { apply (div_bounded _ (F32.of_int d) 8388608 (-7) 8388608 (-23));
      try assumption; try lia; try reflexivity; vm_compute; discriminate. }
  apply (add_sub_bounded _ F32.one 8388608 (-7) 8388608 (-23)).
  - exact Hquot.
  - unfold F32.one, bounded_by. split; [lia | apply Z.le_refl].
  - lia.
  - lia.
  - reflexivity.
  - lia.
  - vm_compute. discriminate.
Qed.


Section ScaledCoordinates.

Variable c : LSM303.t.
Variable v : LSM303.vector.
Hypothesis Hc : int_bounds c.



Lemma x_scaled_bounded :
  LSM303.x (LSM303.m_max c) <> LSM303.x (LSM303.m_min c) ->
  bounded_by 8388736 (-7) (x_scaled c v).
Proof.
  intros Hne. destruct Hc as (Hxlo & Hxhi & _). unfold x_scaled.
  apply scaled_bounded; try apply wrap_in_range.
  fold (Int16.sub (LSM303.x (LSM303.m_max c)) (LSM303.x (LSM303.m_min c))).
  rewrite (sub_eq_0 _ _ Hxhi Hxlo). exact Hne.
Qed.

Lemma y_scaled_bounded :
  LSM303.y (LSM303.m_max c) <> LSM303.y (LSM303.m_min c) ->
  bounded_by 8388736 (-7) (y_scaled c v).
Proof.
  intros Hne. destruct Hc as (_ & _ & Hylo & Hyhi). unfold y_scaled.
  apply scaled_bounded; try apply wrap_in_range.
  fold (Int16.sub (LSM303.y (LSM303.m_max c)) (LSM303.y (LSM303.m_min c))).
  rewrite (sub_eq_0 _ _ Hyhi Hylo). exact Hne.
Qed.



End ScaledCoordinates.

(** ** The range of [heading] *)

Lemma heading_in_range
    (atan2 : F32.float -> F32.float -> F32.float)
    (c : LSM303.t) (v : LSM303.vector) :
  atan2_contract atan2 -> int_bounds c -> non_degenerate c ->
  exists r,
    c_round (degrees atan2 c v) = Some r /\ -180 <= r <= 180 /\
    heading atan2 c v = Some (if r <? 0 then r + 360 else r).
Proof.
  intros Hatan Hc [Hx Hy].
  destruct (bounded_by_finite _ _ _ (x_scaled_bounded c v Hc ltac:(lia))) as [_ Hxn].
  destruct (bounded_by_finite _ _ _ (y_scaled_bounded c v Hc ltac:(lia))) as [_ Hyn].
  destruct (Hatan _ _ Hyn Hxn) as (Hv & Hlo & Hhi).
  destruct (c_round_bounded _ (degrees_bounded _ Hv Hhi Hlo)) as (r & Hr & Hrange).
  change (c_round (degrees atan2 c v) = Some r) in Hr.
  exists r. split; [exact Hr|]. split; [exact Hrange|].
  unfold heading. rewrite Hr.
  rewrite wrap_id by int16_range.
  destruct (Z.ltb_spec r 0); [int16_arith|]; reflexivity.
Qed.

(** C2.  Whatever the vector, with non-degenerate calibration bounds
    [heading] returns an integer in [0, 360): the angle
    [atan2(y_scaled, x_scaled) * 180 / M_PI] is rounded to an integer [r]
    between -180 and 180, and 360 is added exactly when [r] is negative.
    [atan2] is assumed to return a binary32 value between [-M_PI] and [M_PI]
    on arguments that are not NaN. *)
Theorem heading_range
    (atan2 : F32.float -> F32.float -> F32.float)
    (c : LSM303.t) (v : LSM303.vector) :
  atan2_contract atan2 -> int_bounds c -> non_degenerate c ->
  exists r h,
    c_round (F32.div (F32.mul (atan2 (y_scaled c v) (x_scaled c v)) F32.c180)
                     F32.M_PI) = Some r /\
    h = (if r <? 0 then r + 360 else r) /\
    heading atan2 c v = Some h /\
    0 <= h < 360.
Proof.
  intros Hatan Hc Hnd.
  destruct (heading_in_range atan2 c v Hatan Hc Hnd) as (r & Hr & Hrange & Hh).
  exists r, (if r <? 0 then r + 360 else r).
  split; [exact Hr|]. split; [reflexivity|]. split; [exact Hh|].
  destruct (Z.ltb_spec r 0); lia.
Qed.

Lemma atan2_sign_contract : atan2_contract Examples.atan2_sign.
Proof.
  intros y x Hy Hx.
  destruct y as [sy|sy| |sy my ey], x as [sx|sx| |sx mx ex];
    try discriminate; destruct sy, sx; repeat split; reflexivity.
Qed.

Lemma compass100_bounds :
  int_bounds Examples.compass100 /\ non_degenerate Examples.compass100.
Proof.
  split.
  - repeat split; simpl; unfold Int16.min_int, Int16.max_int; lia.
  - split; simpl; lia.
Qed.

Lemma heading_range_witness :
  exists r h,
    c_round (F32.div (F32.mul (Examples.atan2_sign
                                 (y_scaled Examples.compass100 (Examples.vec (-100) 100 0))
                                 (x_scaled Examples.compass100 (Examples.vec (-100) 100 0)))
                              F32.c180)
                     F32.M_PI) = Some r /\
    h = (if r <? 0 then r + 360 else r) /\
    heading Examples.atan2_sign Examples.compass100 (Examples.vec (-100) 100 0) = Some h /\
    0 <= h < 360.
Proof.
  apply (heading_range Examples.atan2_sign Examples.compass100
           (Examples.vec (-100) 100 0)).
  - exact atan2_sign_contract.
  - exact (proj1 compass100_bounds).
  - exact (proj2 compass100_bounds).
Defined.

Lemma lift_inv {A : Type} (o : option A) (w w' : World) (a : A) :
  lift o w = Some (a, w') -> o = Some a /\ w' = w.
Proof.
  unfold lift. destruct o as [a0|]; [|discriminate].
  intros H. injection H as -> ->. split; reflexivity.
Qed.

Lemma averageHeading_unfold
    (atan2 : F32.float -> F32.float -> F32.float) (mag : nat -> LSM303.vector) :
  averageHeading atan2 mag =
    (avg <- average_loop mag 10 {| LSM303.x := 0; LSM303.y := 0; LSM303.z := 0 |} ;;
     avg_x <- lift (F32.to_int (F32.div (F32.of_int (LSM303.x avg)) F32.ten)) ;;
     avg_y <- lift (F32.to_int (F32.div (F32.of_int (LSM303.y avg)) F32.ten)) ;;
     c <- get compass ;;
     lift (heading atan2 c
             {| LSM303.x := avg_x; LSM303.y := avg_y; LSM303.z := LSM303.z avg |})).
Proof. reflexivity. Qed.

(** On a calibrated compass every heading [averageHeading] returns is in
    [0, 360). *)
Lemma averageHeading_range
    (atan2 : F32.float -> F32.float -> F32.float) (mag : nat -> LSM303.vector)
    (w w' : World) (h : Z) :
  atan2_contract atan2 -> int_bounds (compass w) -> non_degenerate (compass w) ->
  averageHeading atan2 mag w = Some (h, w') -> 0 <= h < 360.
Proof.
  intros Hatan Hc Hnd H. rewrite averageHeading_unfold in H.
  destruct (average_loop_runs mag 10 {| LSM303.x := 0; LSM303.y := 0; LSM303.z := 0 |} w)
    as (avg & w1 & Hrun & _ & _ & _ & Hlo & Hhi).
  rewrite (bind_Some _ _ _ _ _ Hrun) in H.
  apply bind_inv in H. destruct H as (ax & wa & Ha & H).
  apply lift_inv in Ha. destruct Ha as [_ ->].
  apply bind_inv in H. destruct H as (ay & wb & Hb & H).
  apply lift_inv in Hb. destruct Hb as [_ ->].
  rewrite bind_get in H.
  apply lift_inv in H. destruct H as [H _].
  assert (Hc1 : int_bounds (compass w1))
    by (unfold int_bounds in *; rewrite Hlo, Hhi; exact Hc).
  assert (Hnd1 : non_degenerate (compass w1))
    by (unfold non_degenerate in *; rewrite Hlo, Hhi; exact Hnd).
  destruct (heading_in_range atan2 (compass w1)
              {| LSM303.x := ax; LSM303.y := ay; LSM303.z := LSM303.z avg |}
              Hatan Hc1 Hnd1) as (r & _ & Hrange & Hh).
  assert (E : Some h = Some (if r <? 0 then r + 360 else r))
    by (rewrite <- H, <- Hh; reflexivity).
  injection E as ->.
  destruct (Z.ltb_spec r 0); lia.
Qed.


Example degenerate_x_axis :
  map (fun a => x_scaled
                  {| LSM303.m := Examples.vec 0 0 0;
                     LSM303.m_min := Examples.vec 7 (-100) 0;
                     LSM303.m_max := Examples.vec 7 100 0 |}
                  (Examples.vec a 0 0))
      [7; 8; 6]
  = [S754_nan; S754_infinity false; S754_infinity true].
Proof. reflexivity. Qed.

Example degenerate_heading :
  map (heading Examples.atan2_sign
         {| LSM303.m := Examples.vec 0 0 0;
            LSM303.m_min := Examples.vec 7 (-100) 0;
            LSM303.m_max := Examples.vec 7 100 0 |})
      [Examples.vec 7 0 0; Examples.vec 8 0 0; Examples.vec 6 0 0]
  = [None; Some 0; Some 180].
Proof. vm_compute. reflexivity. Qed.

(** Where a scaled coordinate is NaN and [atan2] passes NaN on, the angle
    is NaN and its conversion to [long] is undefined: on an axis whose
    bounds coincide this is the case for the vectors that sit on the bound
    (0/0). *)
Lemma heading_undefined_on_bound
    (atan2 : F32.float -> F32.float -> F32.float)
    (c : LSM303.t) (v : LSM303.vector) :
  (forall y, atan2 y S754_nan = S754_nan) ->
  LSM303.x (LSM303.m_max c) = LSM303.x (LSM303.m_min c) ->
  LSM303.x v = LSM303.x (LSM303.m_min c) ->
  x_scaled c v = S754_nan /\ heading atan2 c v = None.
Proof.
  intros Hnan Hdeg Hv.
  assert (Ex : x_scaled c v = S754_nan).
  { unfold x_scaled. rewrite Hdeg, Hv.
    replace (Int16.sub (LSM303.x (LSM303.m_min c)) (LSM303.x (LSM303.m_min c)))
      with 0 by (unfold Int16.sub; rewrite Z.sub_diag; reflexivity).
    reflexivity. }
  split; [exact Ex|].
  unfold heading, degrees. rewrite Ex, Hnan. reflexivity.
Qed.

Example round_at_the_ends :
  c_round (F32.div (F32.mul F32.M_PI F32.c180) F32.M_PI) = Some 180 /\
  c_round (F32.div (F32.mul (F32.opp F32.M_PI) F32.c180) F32.M_PI) = Some (-180) /\
  c_round (F32.div (F32.mul Examples.pi_2 F32.c180) F32.M_PI) = Some 90 /\
  c_round (F32.div (F32.mul (F32.opp Examples.pi_4) F32.c180) F32.M_PI) = Some (-45).
Proof. repeat split; reflexivity. Qed.

(** A cycle leaves the calibration alone while it senses. *)
Lemma cycle_start_bounds
    (atan2 : F32.float -> F32.float -> F32.float) (mag : nat -> LSM303.vector)
    (w w0 : World) (t : Z) :
  cycle_start atan2 mag w t w0 ->
  LSM303.m_min (compass w0) = LSM303.m_min (compass w) /\
  LSM303.m_max (compass w0) = LSM303.m_max (compass w).
Proof.
  intros [t' Ht | t' w0' Ht Havg].
  - split; reflexivity.
  - destruct (averageHeading_effects _ _ _ _ _ Havg) as (_ & _ & _ & Hlo & Hhi).
    split; assumption.
Qed.

(** C6.  A control cycle that finds [|relative_heading| < DEVIATION_THRESHOLD]
    (= 5) takes the STRAIGHT branch: it commands both motors at [SPEED],
    waits, stops the motors, waits, samples the heading again and sets
    [target_heading] to that heading plus 90 modulo 360; these are the only
    motor commands of the cycle.  Target 90 and heading 88 give a relative
    heading of 2, which is below the threshold. *)
Theorem loop_straight_branch
    (atan2 : F32.float -> F32.float -> F32.float) (mag : nat -> LSM303.vector)
    (w w0 w1 w2 : World) (t h h' : Z) :
  cycle_start atan2 mag w t w0 ->
  averageHeading atan2 mag w0 = Some (h, w1) ->
  c_abs (relativeHeading h t) < DEVIATION_THRESHOLD ->
  averageHeading atan2 mag (add_events (report t h ++ straight_events) w1)
    = Some (h', w2) ->
  (exists w',
     loop atan2 mag w = Some (tt, w') /\
     trace w' = trace w1 ++ report t h
                  ++ [SetSpeeds SPEED SPEED; Print "   Straight"; Delay 1000;
                      SetSpeeds 0 0; Delay 100]
                  ++ repeat CompassRead 10 ++ [Println] /\
     motor_commands (events_since w w') = [(SPEED, SPEED); (0, 0)] /\
     target_heading w' = Some (Int16.rem (Int16.add h' 90) 360) /\
     (0 <= h' < 360 -> target_heading w' = Some ((h' + 90) mod 360)) /\
     (atan2_contract atan2 -> int_bounds (compass w) ->
      non_degenerate (compass w) ->
      0 <= h' < 360 /\ target_heading w' = Some ((h' + 90) mod 360))) /\
  DEVIATION_THRESHOLD = 5 /\
  relativeHeading 88 90 = 2 /\
  c_abs (relativeHeading 88 90) < DEVIATION_THRESHOLD.
Proof.
  intros Hcs Hh Hlt Hh'. split; [|repeat split].
  destruct (straight_cycle atan2 mag _ _ _ _ _ _ _ Hcs Hh Hlt Hh')
    as (w' & Hrun & Htr & Hmc & Htg).
  assert (Hmod : 0 <= h' < 360 -> target_heading w' = Some ((h' + 90) mod 360))
    by (intros Hr; rewrite Htg, next_target_mod by exact Hr; reflexivity).
  exists w'. split; [exact Hrun|]. split; [exact Htr|]. split; [exact Hmc|].
  split; [exact Htg|]. split; [exact Hmod|].
  intros Hatan Hc Hnd.
  assert (Hr : 0 <= h' < 360).
  { destruct (cycle_start_bounds atan2 mag _ _ _ Hcs) as [Hlo0 Hhi0].
    destruct (averageHeading_effects _ _ _ _ _ Hh) as (_ & _ & _ & Hlo1 & Hhi1).
    apply (averageHeading_range atan2 mag _ _ _ Hatan) in Hh'; [exact Hh' | |];
      rewrite add_events_compass.
    - unfold int_bounds in *. rewrite Hlo1, Hhi1, Hlo0, Hhi0. exact Hc.
    - unfold non_degenerate in *. rewrite Hlo1, Hhi1, Hlo0, Hhi0. exact Hnd. }
  split; [exact Hr | exact (Hmod Hr)].
Qed.

Lemma loop_straight_branch_witness :
  (exists w',
     loop Examples.atan2_sign Examples.mag_east (Examples.world0 (Some 0))
       = Some (tt, w') /\
     trace w' = trace (Examples.sampled (Some 0)) ++ report 0 0
                  ++ [SetSpeeds SPEED SPEED; Print "   Straight"; Delay 1000;
                      SetSpeeds 0 0; Delay 100]
                  ++ repeat CompassRead 10 ++ [Println] /\
     motor_commands (events_since (Examples.world0 (Some 0)) w')
       = [(SPEED, SPEED); (0, 0)] /\
     target_heading w' = Some (Int16.rem (Int16.add 0 90) 360) /\
     (0 <= 0 < 360 -> target_heading w' = Some ((0 + 90) mod 360)) /\
     (atan2_contract Examples.atan2_sign ->
      int_bounds (compass (Examples.world0 (Some 0))) ->
      non_degenerate (compass (Examples.world0 (Some 0))) ->
      0 <= 0 < 360 /\ target_heading w' = Some ((0 + 90) mod 360))) /\
  DEVIATION_THRESHOLD = 5 /\
  relativeHeading 88 90 = 2 /\
  c_abs (relativeHeading 88 90) < DEVIATION_THRESHOLD.
Proof.
  apply (loop_straight_branch Examples.atan2_sign Examples.mag_east
           (Examples.world0 (Some 0)) (Examples.world0 (Some 0))
           (Examples.sampled (Some 0)) (Examples.resampled 0) 0 0 0).
  - constructor. reflexivity.
  - vm_compute. reflexivity.
  - vm_compute. reflexivity.
  - vm_compute. reflexivity.
Defined.

(** ** More on [relativeHeading] *)

(** X1.  Turning by the relative heading leads from the one heading to the
    other, and the relative heading is 0 only between equal headings. *)
Theorem relativeHeading_reaches_target (a b : Z) :
  0 <= a < 360 -> 0 <= b < 360 ->
  (a + relativeHeading a b) mod 360 = b /\
  (relativeHeading a b = 0 <-> a = b).
Proof.
  intros Ha Hb. rewrite (relativeHeading_math a b Ha Hb).
  destruct (Z.gtb_spec (b - a) 180); [|destruct (Z.ltb_spec (b - a) (-180))].
  - split; [|lia].
    replace (a + (b - a - 360)) with (b + (-1) * 360) by lia.
    rewrite Z.mod_add by lia. apply Z.mod_small; lia.
  - split; [|lia].
    replace (a + (b - a + 360)) with (b + 1 * 360) by lia.
    rewrite Z.mod_add by lia. apply Z.mod_small; lia.
  - split; [|lia].
    replace (a + (b - a)) with b by lia. apply Z.mod_small; lia.
Qed.

Lemma relativeHeading_reaches_target_witness :
  (350 + relativeHeading 350 10) mod 360 = 10 /\
  (relativeHeading 350 10 = 0 <-> 350 = 10).
Proof. apply (relativeHeading_reaches_target 350 10); lia. Defined.

(** X2.  [relativeHeading] corrects by at most one turn: as long as the
    difference [heading_to - heading_from] fits 16 bits, the result differs
    from it by a multiple of 360, and it lies in [-180, 180] exactly when
    the difference lies in [-540, 540]. *)
Theorem relativeHeading_single_correction (a b : Z) :
  Int16.in_range (b - a) ->
  (exists k, -1 <= k <= 1 /\ relativeHeading a b = b - a + k * 360) /\
  (-180 <= relativeHeading a b <= 180 <-> -540 <= b - a <= 540).
Proof.
  unfold Int16.in_range, Int16.min_int, Int16.max_int. intros H.
  unfold relativeHeading.
  change (Int16.sub b a) with (Int16.wrap (b - a)).
  rewrite (wrap_id (b - a)) by int16_range.
  destruct (Z.gtb_spec (b - a) 180) as [H1|H1].
  - int16_arith.
    destruct (Z.ltb_spec (b - a - 360) (-180)); [lia|].
    split; [exists (-1); lia | lia].
  - destruct (Z.ltb_spec (b - a) (-180)).
    + int16_arith. split; [exists 1; lia | lia].
    + split; [exists 0; lia | lia].
Qed.

Lemma relativeHeading_single_correction_witness :
  (exists k, -1 <= k <= 1 /\ relativeHeading 0 600 = 600 - 0 + k * 360) /\
  (-180 <= relativeHeading 0 600 <= 180 <-> -540 <= 600 - 0 <= 540).
Proof.
  apply (relativeHeading_single_correction 0 600).
  unfold Int16.in_range, Int16.min_int, Int16.max_int. lia.
Defined.

(** ** More on the speed of the TURNING branch *)

(** X3.  On the relative headings the TURNING branch can meet, the robot turns
    toward the target exactly when the relative heading is at most 163
    degrees in magnitude: there the speed has the sign of the relative
    heading, and beyond it has the opposite sign. *)
Theorem turn_speed_direction (rel : Z) :
  5 <= Z.abs rel <= 180 ->
  (Z.sgn (turn_speed rel) = Z.sgn rel <-> Z.abs rel <= 163).
Proof.
  intros H.
  assert (Hall : forall_from (-180) 361
            (fun r => (Z.abs r <? 5) ||
                      (if Z.abs r <=? 163
                       then Z.sgn (turn_speed r) =? Z.sgn r
                       else Z.sgn (turn_speed r) =? - Z.sgn r)) = true)
    by (vm_compute; reflexivity).
  pose proof (forall_from_spec _ _ _ Hall rel) as Hr. simpl in Hr.
  assert (Hrange : -180 <= rel < -180 + 361) by lia.
  specialize (Hr Hrange).
  apply orb_true_iff in Hr. destruct Hr as [Hr | Hr].
  - apply Z.ltb_lt in Hr. lia.
  - destruct (Z.leb_spec (Z.abs rel) 163); apply Z.eqb_eq in Hr.
    + split; [lia | intros _; exact Hr].
    + split; [|lia]. intros E. rewrite E in Hr. lia.
Qed.

Lemma turn_speed_direction_witness :
  (Z.sgn (turn_speed 164) = Z.sgn 164 <-> Z.abs 164 <= 163).
Proof. apply (turn_speed_direction 164). simpl. lia. Defined.

Lemma spec_turn_speed_abs (rel : Z) :
  Z.abs (spec_turn_speed rel) = Z.quot (SPEED * Z.abs rel) 180 + 100.
Proof.
  unfold spec_turn_speed, SPEED.
  assert (E : Z.quot (200 * Z.abs rel) 180 = Z.abs (Z.quot (200 * rel) 180)).
  { rewrite <- Z.quot_abs by lia. rewrite Z.abs_mul. reflexivity. }
  rewrite E.
  destruct (Z.ltb_spec (Z.quot (200 * rel) 180) 0); lia.
Qed.

(** X4.  As long as the product [SPEED * relative_heading] fits 16 bits, the
    closer the heading is to the target the slower the robot turns; once
    the product has wrapped it is the other way round. *)
Theorem turn_speed_slows_near_target (r1 r2 s1 s2 : Z) :
  (Z.abs r1 <= Z.abs r2 <= 163 ->
   Z.abs (turn_speed r1) <= Z.abs (turn_speed r2)) /\
  (164 <= s1 <= s2 /\ s2 <= 180 ->
   Z.abs (turn_speed s2) <= Z.abs (turn_speed s1)).
Proof.
  split.
  - intros H.
    rewrite !turn_speed_in_range by lia.
    rewrite !spec_turn_speed_abs. unfold SPEED.
    assert (Z.quot (200 * Z.abs r1) 180 <= Z.quot (200 * Z.abs r2) 180)
      by (apply Z.quot_le_mono; lia).
    lia.
  - intros (H1 & H2).
    assert (W : forall r, 164 <= r <= 180 ->
              turn_speed r = Z.quot (200 * r - 65536) 180 - 100).
    { intros r Hr. unfold turn_speed, SPEED, Int16.mul.
      assert (E : Int16.wrap (200 * r) = 200 * r - 65536).
      { unfold Int16.wrap.
        replace (200 * r + 32768) with ((200 * r - 32768) + 1 * 65536) by lia.
        rewrite Z.mod_add by lia. rewrite Z.mod_small by lia. lia. }
      rewrite E.
      assert (Hq : -182 <= Z.quot (200 * r - 65536) 180 <= -164).
      { split.
        - change (-182) with (Z.quot (-32760) 180). apply Z.quot_le_mono; lia.
        - change (-164) with (Z.quot (-29536) 180). apply Z.quot_le_mono; lia. }
      unfold Int16.div. rewrite (wrap_id (Z.quot _ _)) by int16_range.
      destruct (Z.ltb_spec (Z.quot (200 * r - 65536) 180) 0); [|lia].
      int16_arith. reflexivity. }
    rewrite (W s1), (W s2) by lia.
    assert (Z.quot (200 * s1 - 65536) 180 <= Z.quot (200 * s2 - 65536) 180)
      by (apply Z.quot_le_mono; lia).
    assert (Z.quot (200 * s2 - 65536) 180 <= Z.quot (-29536) 180)
      by (apply Z.quot_le_mono; lia).
    change (Z.quot (-29536) 180) with (-164) in *.
    lia.
Qed.

Lemma turn_speed_slows_near_target_witness :
  Z.abs (turn_speed 10) <= Z.abs (turn_speed 90) /\
  Z.abs (turn_speed 180) <= Z.abs (turn_speed 164).
Proof.
  destruct (turn_speed_slows_near_target 10 90 164 180) as [A B].
  split; [apply A; simpl; lia | apply B; lia].
Defined.
(** ** More on [averageHeading] *)

(** [heading] reads the calibration bounds of [compass] and nothing else. *)
Lemma heading_bounds_only
    (atan2 : F32.float -> F32.float -> F32.float)
    (c c' : LSM303.t) (v : LSM303.vector) :
  LSM303.m_min c' = LSM303.m_min c -> LSM303.m_max c' = LSM303.m_max c ->
  heading atan2 c' v = heading atan2 c v.
Proof.
  intros Hlo Hhi. unfold heading, degrees, x_scaled, y_scaled.
  rewrite Hlo, Hhi. reflexivity.
Qed.

Lemma average_loop_accumulate
    (mag : nat -> LSM303.vector) (n : nat) (avg : LSM303.vector) (w : World) :
  exists w',
    average_loop mag n avg w
      = Some (accumulate avg (samples mag (reads w) n), w') /\
    trace w' = trace w ++ repeat CompassRead n /\
    reads w' = (reads w + n)%nat /\
    target_heading w' = target_heading w /\
    LSM303.m_min (compass w') = LSM303.m_min (compass w) /\
    LSM303.m_max (compass w') = LSM303.m_max (compass w).
Proof.
  revert avg w. induction n as [|n IH]; intros avg w.
  - exists w. simpl. rewrite app_nil_r, Nat.add_0_r. repeat split; reflexivity.
  - simpl average_loop.
    set (w1 := set_reads (S (reads w)) (set_m (mag (reads w)) (add_event CompassRead w))).
    set (avg1 := {| LSM303.x := Int16.add (LSM303.x avg) (LSM303.x (mag (reads w)));
                    LSM303.y := Int16.add (LSM303.y avg) (LSM303.y (mag (reads w)));
                    LSM303.z := LSM303.z avg |}).
    destruct (IH avg1 w1) as (w' & Hrun & Htr & Hrd & Htg & Hlo & Hhi).
    exists w'. split.
    + exact Hrun.
    + rewrite Htr, Hrd, Htg, Hlo, Hhi. unfold w1. simpl.
      rewrite <- app_assoc. simpl. repeat split; auto; lia.
Qed.

(** [averageHeading] is [heading] applied to the average of the next ten
    readings. *)
Lemma averageHeading_pure
    (atan2 : F32.float -> F32.float -> F32.float) (mag : nat -> LSM303.vector)
    (w : World) :
  exists w1,
    trace w1 = trace w ++ repeat CompassRead 10 /\
    reads w1 = (reads w + 10)%nat /\
    target_heading w1 = target_heading w /\
    LSM303.m_min (compass w1) = LSM303.m_min (compass w) /\
    LSM303.m_max (compass w1) = LSM303.m_max (compass w) /\
    averageHeading atan2 mag w
    = match averaged (samples mag (reads w) 10) with
      | Some v => match heading atan2 (compass w) v with
                  | Some h => Some (h, w1)
                  | None => None
                  end
      | None => None
      end.
Proof.
  destruct (average_loop_accumulate mag 10
              {| LSM303.x := 0; LSM303.y := 0; LSM303.z := 0 |} w)
    as (w1 & Hrun & Htr & Hrd & Htg & Hlo & Hhi).
  exists w1. repeat (split; [assumption|]).
  rewrite averageHeading_unfold.
  rewrite (bind_Some _ _ _ _ _ Hrun).
  unfold averaged.
  set (avg := accumulate _ _).
  destruct (F32.to_int (F32.div (F32.of_int (LSM303.x avg)) F32.ten)) as [ax|];
    [|reflexivity].
  destruct (F32.to_int (F32.div (F32.of_int (LSM303.y avg)) F32.ten)) as [ay|];
    [|reflexivity].
  unfold bind, lift, get.
  rewrite (heading_bounds_only atan2 (compass w) (compass w1) _ Hlo Hhi).
  reflexivity.
Qed.

(** X5.  The heading [averageHeading] returns depends on the ten readings it
    takes and on the calibration bounds, and on nothing else: not on
    the reading left in [compass.m], the target or what went before.  Two
    calls that see the same ten readings under the same bounds return the
    same heading, or are both undefined. *)
Theorem averageHeading_fresh
    (atan2 : F32.float -> F32.float -> F32.float)
    (mag1 mag2 : nat -> LSM303.vector) (w1 w2 : World) :
  LSM303.m_min (compass w2) = LSM303.m_min (compass w1) ->
  LSM303.m_max (compass w2) = LSM303.m_max (compass w1) ->
  samples mag2 (reads w2) 10 = samples mag1 (reads w1) 10 ->
  option_map fst (averageHeading atan2 mag2 w2)
  = option_map fst (averageHeading atan2 mag1 w1).
Proof.
  intros Hlo Hhi Hs.
  destruct (averageHeading_pure atan2 mag1 w1) as (w1' & _ & _ & _ & _ & _ & ->).
  destruct (averageHeading_pure atan2 mag2 w2) as (w2' & _ & _ & _ & _ & _ & ->).
  rewrite Hs.
  destruct (averaged (samples mag1 (reads w1) 10)) as [v|]; [|reflexivity].
  rewrite (heading_bounds_only atan2 (compass w1) (compass w2) v Hlo Hhi).
  destruct (heading atan2 (compass w1) v); reflexivity.
Qed.

Lemma averageHeading_fresh_witness :
  option_map fst (averageHeading Examples.atan2_sign Examples.mag_east
                    (Examples.sampled (Some 90)))
  = option_map fst (averageHeading Examples.atan2_sign Examples.mag_east
                      (Examples.world0 None)).
Proof.
  apply (averageHeading_fresh Examples.atan2_sign
           Examples.mag_east Examples.mag_east
           (Examples.world0 None) (Examples.sampled (Some 90)));
    vm_compute; reflexivity.
Defined.

(** The conversion of a sum divided by [10.0] back to [int] is always
    defined: the quotient is at most 4096 in magnitude. *)
Lemma div_ten_defined (s : Z) :
  Int16.in_range s ->
  exists n, F32.to_int (F32.div (F32.of_int s) F32.ten) = Some n /\
            -4096 <= n <= 4096.
Proof.
  intros Hs.
  destruct (of_int_spec s Hs) as (Hb & _ & _).
  assert (Hq : bounded_by 8388608 (-11) (F32.div (F32.of_int s) F32.ten)).
  { apply (div_bounded _ F32.ten 8388608 (-8) 10485760 (-20) 8388608 (-11)).
    - exact Hb.
    - unfold F32.ten, at_least. split; [lia | apply Z.le_refl].
    - lia.
    - lia.
    - reflexivity.
    - lia.
    - vm_compute. discriminate.
    - simpl. lia. }
  destruct (trunc_bounded _ 8388608 (-11) 4096 Hq) as (n & Hn & Hpos & Hneg).
  - vm_compute. reflexivity.
  - lia.
  - assert (Hr : -4096 <= n <= 4096).
    { destruct (F32.div (F32.of_int s) F32.ten) as [sg|sg| |sg m e];
        unfold bounded_by in Hq; try contradiction.
      - destruct sg; [specialize (Hneg eq_refl) | specialize (Hpos eq_refl)]; lia.
      - destruct sg; [specialize (Hneg eq_refl) | specialize (Hpos eq_refl)]; lia. }
    exists n. split; [|exact Hr].
    unfold F32.to_int. rewrite Hn.
    replace (-32768 <=? n) with true by (symmetry; apply Z.leb_le; lia).
    replace (n <=? 32767) with true by (symmetry; apply Z.leb_le; lia).
    reflexivity.
Qed.

Lemma accumulate_in_range (l : list LSM303.vector) (avg : LSM303.vector) :
  Int16.in_range (LSM303.x avg) -> Int16.in_range (LSM303.y avg) ->
  Int16.in_range (LSM303.x (accumulate avg l)) /\
  Int16.in_range (LSM303.y (accumulate avg l)).
Proof.
  revert avg. induction l as [|m l IH]; intros avg Hx Hy.
  - split; assumption.
  - unfold accumulate. simpl fold_left. apply IH; apply wrap_in_range.
Qed.

Lemma averaged_defined (l : list LSM303.vector) :
  exists v, averaged l = Some v /\
            -4096 <= LSM303.x v <= 4096 /\ -4096 <= LSM303.y v <= 4096.
Proof.
  unfold averaged.
  destruct (accumulate_in_range l {| LSM303.x := 0; LSM303.y := 0; LSM303.z := 0 |})
    as [Hx Hy]; try (simpl; int16_range).
  set (avg := accumulate _ l) in *.
  destruct (div_ten_defined _ Hx) as (ax & -> & Hax).
  destruct (div_ten_defined _ Hy) as (ay & -> & Hay).
  eexists. split; [reflexivity|]. simpl. split; assumption.
Qed.

Lemma averageHeading_calibrated
    (atan2 : F32.float -> F32.float -> F32.float) (mag : nat -> LSM303.vector)
    (w : World) :
  atan2_contract atan2 -> int_bounds (compass w) -> non_degenerate (compass w) ->
  exists h w',
    averageHeading atan2 mag w = Some (h, w') /\
    0 <= h < 360 /\
    trace w' = trace w ++ repeat CompassRead 10 /\
    reads w' = (reads w + 10)%nat /\
    target_heading w' = target_heading w /\
    LSM303.m_min (compass w') = LSM303.m_min (compass w) /\
    LSM303.m_max (compass w') = LSM303.m_max (compass w).
Proof.
  intros Hatan Hc Hnd.
  destruct (averageHeading_pure atan2 mag w)
    as (w1 & Htr & Hrd & Htg & Hlo & Hhi & E).
  destruct (averaged_defined (samples mag (reads w) 10)) as (v & Hv & _).
  rewrite Hv in E.
  destruct (heading_in_range atan2 (compass w) v Hatan Hc Hnd)
    as (r & _ & Hr & Hh).
  rewrite Hh in E.
  eexists _, w1. split; [exact E|].
  split; [destruct (Z.ltb_spec r 0); lia|].
  repeat split; assumption.
Qed.

(** X6.  On a calibrated compass [averageHeading] never meets an undefined
    conversion, whatever the magnetometer reads: the two sums divided by
    [10.0] convert back to [int], to values within 4096 in magnitude, and
    the heading of the vector they make is in [0, 360).  The call takes
    exactly ten readings and leaves the calibration and the target alone. *)
Theorem averageHeading_defined
    (atan2 : F32.float -> F32.float -> F32.float) (mag : nat -> LSM303.vector)
    (w : World) :
  atan2_contract atan2 -> int_bounds (compass w) -> non_degenerate (compass w) ->
  exists v h w',
    averaged (samples mag (reads w) 10) = Some v /\
    -4096 <= LSM303.x v <= 4096 /\ -4096 <= LSM303.y v <= 4096 /\
    heading atan2 (compass w) v = Some h /\
    averageHeading atan2 mag w = Some (h, w') /\
    0 <= h < 360 /\
    trace w' = trace w ++ repeat CompassRead 10 /\
    reads w' = (reads w + 10)%nat /\
    target_heading w' = target_heading w /\
    LSM303.m_min (compass w') = LSM303.m_min (compass w) /\
    LSM303.m_max (compass w') = LSM303.m_max (compass w).
Proof.
  intros Hatan Hc Hnd.
  destruct (averageHeading_pure atan2 mag w)
    as (w1 & Htr & Hrd & Htg & Hlo & Hhi & E).
  destruct (averaged_defined (samples mag (reads w) 10)) as (v & Hv & Hvx & Hvy).
  rewrite Hv in E.
  destruct (heading_in_range atan2 (compass w) v Hatan Hc Hnd)
    as (r & _ & Hr & Hh).
  rewrite Hh in E.
  exists v. eexists _, w1.
  split; [exact Hv|]. split; [exact Hvx|]. split; [exact Hvy|].
  split; [exact Hh|]. split; [exact E|].
  split; [destruct (Z.ltb_spec r 0); lia|].
  repeat split; assumption.
Qed.

Lemma averageHeading_defined_witness :
  exists v h w',
    averaged (samples Examples.mag_east (reads (Examples.world0 None)) 10) = Some v /\
    -4096 <= LSM303.x v <= 4096 /\ -4096 <= LSM303.y v <= 4096 /\
    heading Examples.atan2_sign (compass (Examples.world0 None)) v = Some h /\
    averageHeading Examples.atan2_sign Examples.mag_east (Examples.world0 None)
      = Some (h, w') /\
    0 <= h < 360 /\
    trace w' = trace (Examples.world0 None) ++ repeat CompassRead 10 /\
    reads w' = (reads (Examples.world0 None) + 10)%nat /\
    target_heading w' = target_heading (Examples.world0 None) /\
    LSM303.m_min (compass w') = LSM303.m_min (compass (Examples.world0 None)) /\
    LSM303.m_max (compass w') = LSM303.m_max (compass (Examples.world0 None)).
Proof.
  apply (averageHeading_defined Examples.atan2_sign Examples.mag_east
           (Examples.world0 None) atan2_sign_contract);
    apply compass100_bounds.
Defined.
(** ** More on [setup] *)

Lemma minimum_from_attained (l : list Z) (init : Z) :
  l <> [] -> (forall a, In a l -> a <= init) -> In (minimum_from init l) l.
Proof.
  induction l as [|a l IH]; intros Hne Hle; [contradiction|].
  simpl minimum_from.
  destruct l as [|b l].
  - simpl. left. specialize (Hle a (or_introl eq_refl)). lia.
  - assert (Hin : In (minimum_from init (b :: l)) (b :: l)).
    { apply IH; [discriminate|]. intros c Hc. apply Hle. now right. }
    change (fold_right Z.min init (b :: l)) with (minimum_from init (b :: l)).
    destruct (Z.min_spec a (minimum_from init (b :: l))) as [[_ ->] | [_ ->]].
    + now left.
    + now right.
Qed.

Lemma maximum_from_attained (l : list Z) (init : Z) :
  l <> [] -> (forall a, In a l -> init <= a) -> In (maximum_from init l) l.
Proof.
  induction l as [|a l IH]; intros Hne Hle; [contradiction|].
  simpl maximum_from.
  destruct l as [|b l].
  - simpl. left. specialize (Hle a (or_introl eq_refl)). lia.
  - assert (Hin : In (maximum_from init (b :: l)) (b :: l)).
    { apply IH; [discriminate|]. intros c Hc. apply Hle. now right. }
    change (fold_right Z.max init (b :: l)) with (maximum_from init (b :: l)).
    destruct (Z.max_spec a (maximum_from init (b :: l))) as [[_ ->] | [_ ->]].
    + now right.
    + now left.
Qed.

(** X7.  When every reading taken during calibration is in the 12-bit range of
    the magnetometer, [-2048, 2047], the initial values of [running_min] and
    [running_max] leave no trace: on each axis the stored bounds are the
    least and the greatest of the 70 readings, each of them a value that was
    actually read, and every reading lies between them. *)
Theorem setup_bounds_are_readings (mag : nat -> LSM303.vector) (w : World) :
  (forall v, In v (samples mag (reads w) 70) ->
     -2048 <= LSM303.x v <= 2047 /\ -2048 <= LSM303.y v <= 2047) ->
  exists w',
    setup mag w = Some (tt, w') /\
    (exists a b c d,
       In a (samples mag (reads w) 70) /\ In b (samples mag (reads w) 70) /\
       In c (samples mag (reads w) 70) /\ In d (samples mag (reads w) 70) /\
       LSM303.x (LSM303.m_min (compass w')) = LSM303.x a /\
       LSM303.x (LSM303.m_max (compass w')) = LSM303.x b /\
       LSM303.y (LSM303.m_min (compass w')) = LSM303.y c /\
       LSM303.y (LSM303.m_max (compass w')) = LSM303.y d) /\
    (forall v, In v (samples mag (reads w) 70) ->
       LSM303.x (LSM303.m_min (compass w')) <= LSM303.x v
         <= LSM303.x (LSM303.m_max (compass w')) /\
       LSM303.y (LSM303.m_min (compass w')) <= LSM303.y v
         <= LSM303.y (LSM303.m_max (compass w'))).
Proof.
  intros Hr.
  destruct (setup_runs mag w) as (w' & Hrun & _ & Hxlo & Hylo & Hxhi & Hyhi & _).
  exists w'. split; [exact Hrun|].
  set (S70 := samples mag (reads w) 70) in *.
  assert (Hne : forall f : LSM303.vector -> Z, map f S70 <> []).
  { intros f. unfold S70. change 70%nat with (S 69). rewrite samples_cons.
    discriminate. }
  assert (Hin : forall (f : LSM303.vector -> Z) (n : Z),
            In n (map f S70) -> exists v, In v S70 /\ n = f v).
  { intros f n Hn. apply in_map_iff in Hn. destruct Hn as (v & <- & Hv).
    exists v. split; [exact Hv | reflexivity]. }
  split.
  - destruct (Hin LSM303.x _ (minimum_from_attained (map LSM303.x S70) 2047 (Hne _)
                ltac:(intros n Hn; destruct (Hin _ _ Hn) as (v & Hv & ->);
                      destruct (Hr v Hv); lia))) as (a & Ha & Ea).
    destruct (Hin LSM303.x _ (maximum_from_attained (map LSM303.x S70) (-2048) (Hne _)
                ltac:(intros n Hn; destruct (Hin _ _ Hn) as (v & Hv & ->);
                      destruct (Hr v Hv); lia))) as (b & Hb & Eb).
    destruct (Hin LSM303.y _ (minimum_from_attained (map LSM303.y S70) 2047 (Hne _)
                ltac:(intros n Hn; destruct (Hin _ _ Hn) as (v & Hv & ->);
                      destruct (Hr v Hv); lia))) as (c & Hc & Ec).
    destruct (Hin LSM303.y _ (maximum_from_attained (map LSM303.y S70) (-2048) (Hne _)
                ltac:(intros n Hn; destruct (Hin _ _ Hn) as (v & Hv & ->);
                      destruct (Hr v Hv); lia))) as (d & Hd & Ed).
    exists a, b, c, d. repeat (split; [assumption|]).
    rewrite Hxlo, Hxhi, Hylo, Hyhi. simpl LSM303.x. simpl LSM303.y.
    repeat split; assumption.
  - intros v Hv. rewrite Hxlo, Hxhi, Hylo, Hyhi.
    pose proof (proj2 (minimum_from_le (map LSM303.x S70) (LSM303.x running_min_init))
                  _ (in_map LSM303.x _ _ Hv)).
    pose proof (proj2 (maximum_from_ge (map LSM303.x S70) (LSM303.x running_max_init))
                  _ (in_map LSM303.x _ _ Hv)).
    pose proof (proj2 (minimum_from_le (map LSM303.y S70) (LSM303.y running_min_init))
                  _ (in_map LSM303.y _ _ Hv)).
    pose proof (proj2 (maximum_from_ge (map LSM303.y S70) (LSM303.y running_max_init))
                  _ (in_map LSM303.y _ _ Hv)).
    lia.
Qed.

Lemma setup_bounds_are_readings_witness :
  exists w',
    setup mag_quarters (Examples.world0 None) = Some (tt, w') /\
    (exists a b c d,
       In a (samples mag_quarters 0 70) /\ In b (samples mag_quarters 0 70) /\
       In c (samples mag_quarters 0 70) /\ In d (samples mag_quarters 0 70) /\
       LSM303.x (LSM303.m_min (compass w')) = LSM303.x a /\
       LSM303.x (LSM303.m_max (compass w')) = LSM303.x b /\
       LSM303.y (LSM303.m_min (compass w')) = LSM303.y c /\
       LSM303.y (LSM303.m_max (compass w')) = LSM303.y d) /\
    (forall v, In v (samples mag_quarters 0 70) ->
       LSM303.x (LSM303.m_min (compass w')) <= LSM303.x v
         <= LSM303.x (LSM303.m_max (compass w')) /\
       LSM303.y (LSM303.m_min (compass w')) <= LSM303.y v
         <= LSM303.y (LSM303.m_max (compass w'))).
Proof.
  apply (setup_bounds_are_readings mag_quarters (Examples.world0 None)).
  intros v Hv. apply in_map_iff in Hv. destruct Hv as (k & <- & _).
  unfold mag_quarters. destruct (k mod 4)%nat as [|[|[|]]]; simpl; lia.
Defined.

(** The calibration loop prints the indices 0, 1, ... as they are: an
    [unsigned char] index cannot wrap before 256. *)
Lemma calibration_loop_trace (mag : nat -> LSM303.vector) (n : nat) (index : Z)
    (running_min running_max : LSM303.vector) (w : World) :
  0 <= index -> index + Z.of_nat n <= 256 ->
  exists r w',
    calibration_loop mag n index running_min running_max w = Some (r, w') /\
    trace w' = trace w ++ calibration_events n index.
Proof.
  revert index running_min running_max w.
  induction n as [|n IH]; intros index running_min running_max w H0 H256.
  - eexists _, w. split; [reflexivity|]. simpl. now rewrite app_nil_r.
  - simpl calibration_loop. unfold compass_read, println.
    run_events.
    destruct n as [|n].
    + eexists _, _. split; [reflexivity|]. simpl trace.
      rewrite <- !app_assoc. reflexivity.
    + assert (Hidx : (index + 1) mod 256 = index + 1).
      { apply Z.mod_small. rewrite !Nat2Z.inj_succ in H256. lia. }
      rewrite Hidx.
      match goal with
      | |- context [calibration_loop mag (S n) ?i ?lo ?hi ?w1] =>
          destruct (IH i lo hi w1 ltac:(lia) ltac:(lia)) as (r & w' & Hrun & Htr)
      end.
      exists r, w'. split; [exact Hrun|].
      rewrite Htr. simpl trace.
      change (calibration_events (S (S n)) index)
        with ([CompassRead; PrintInt index; Println; Delay 50]
              ++ calibration_events (S n) (index + 1)).
      rewrite <- !app_assoc. reflexivity.
Qed.

(** [setup] does not touch the target of [loop]. *)
Lemma setup_keeps_target (mag : nat -> LSM303.vector) (w : World) :
  exists w', setup mag w = Some (tt, w') /\ target_heading w' = target_heading w.
Proof.
  unfold setup, println. run_events.
  match goal with
  | |- context [bind (calibration_loop mag ?n ?i ?lo ?hi) _ ?w1] =>
      remember w1 as wc eqn:Hwc;
      destruct (calibration_loop_runs mag n i lo hi wc)
        as (lo' & hi' & w' & es & Hrun & _ & _ & _ & _ & _ & _
            & _ & _ & _ & Htg & _ & _)
  end.
  assert (Hwc_target : target_heading wc = target_heading w)
    by (subst wc; reflexivity).
  rewrite (bind_Some _ _ _ _ _ Hrun). cbv beta.
  run_events. rewrite emit_run.
  eexists. split; [reflexivity|].
  cbn [add_event set_bounds target_heading].
  rewrite Htg. exact Hwc_target.
Qed.

(** X8.  What [setup] does to the robot, in order: it initialises the serial
    port, the bus and the compass, waits for the button, starts spinning
    at [SPEED] and [-SPEED], takes the 70 readings 50 ms apart while it
    prints their indices 0 to 69, stops the motors, prints the four bounds
    it found and waits for the button again.  It touches neither [loop]'s
    target nor the [z] components of the bounds. *)
Theorem setup_trace (mag : nat -> LSM303.vector) (w : World) :
  exists w',
    setup mag w = Some (tt, w') /\
    trace w' =
      trace w
      ++ [SerialBegin 9600; WireBegin; CompassInit; CompassEnableDefault;
          CompassSetMagGain_25; CompassWriteCRA 28; WaitForButton;
          Print "starting calibration"; Println;
          SetLeftSpeed 200; SetRightSpeed (-200)]
      ++ calibration_events 70 0
      ++ [SetLeftSpeed 0; SetRightSpeed 0;
          Print "max.x   "; PrintInt (LSM303.x (LSM303.m_max (compass w'))); Println;
          Print "max.y   "; PrintInt (LSM303.y (LSM303.m_max (compass w'))); Println;
          Print "min.x   "; PrintInt (LSM303.x (LSM303.m_min (compass w'))); Println;
          Print "min.y   "; PrintInt (LSM303.y (LSM303.m_min (compass w'))); Println;
          WaitForButton] /\
    target_heading w' = target_heading w /\
    LSM303.z (LSM303.m_min (compass w')) = LSM303.z (LSM303.m_min (compass w)) /\
    LSM303.z (LSM303.m_max (compass w')) = LSM303.z (LSM303.m_max (compass w)).
Proof.
  unfold setup, println. run_events.
  match goal with
  | |- context [bind (calibration_loop mag ?n ?i ?lo ?hi) _ ?w1] =>
      remember w1 as wc eqn:Hwc;
      destruct (calibration_loop_trace mag n i lo hi wc ltac:(lia) ltac:(simpl; lia))
        as ([lo' hi'] & w' & Hrun & Htr);
      destruct (calibration_loop_runs mag n i lo hi wc)
        as (lo2 & hi2 & w2 & es & Hrun2 & _ & _ & _ & _ & _ & _
            & _ & Hmin & Hmax & Htg & _ & _)
  end.
  rewrite Hrun in Hrun2. injection Hrun2 as <- <- <-.
  assert (Hwc_trace : trace wc = trace w
      ++ [SerialBegin 9600; WireBegin; CompassInit; CompassEnableDefault;
          CompassSetMagGain_25; CompassWriteCRA 28; WaitForButton;
          Print "starting calibration"; Println;
          SetLeftSpeed 200; SetRightSpeed (-200)]).
  { subst wc. simpl trace. rewrite <- !app_assoc. reflexivity. }
  assert (Hwc_target : target_heading wc = target_heading w)
    by (subst wc; reflexivity).
  assert (Hwc_compass : compass wc = compass w) by (subst wc; reflexivity).
  rewrite (bind_Some _ _ _ _ _ Hrun). cbv beta.
  run_events. rewrite emit_run.
  eexists. split; [reflexivity|].
  cbn [compass reads add_event set_bounds fst snd trace target_heading
       LSM303.m_min LSM303.m_max LSM303.x LSM303.y LSM303.z].
  split; [|rewrite Htg, Hmin, Hmax, Hwc_compass; repeat split; assumption].
  change (Z.to_nat CALIBRATION_SAMPLES) with 70%nat in Htr.
  rewrite Htr, Hwc_trace.
  rewrite <- !app_assoc. reflexivity.
Qed.
(** ** More on [loop] *)

Lemma relativeHeading_same (h : Z) : relativeHeading h h = 0.
Proof.
  unfold relativeHeading, Int16.sub. rewrite Z.sub_diag. reflexivity.
Qed.

Lemma relativeHeading_quarter (h : Z) :
  0 <= h < 360 -> relativeHeading h ((h + 90) mod 360) = 90.
Proof.
  intros Hh.
  assert (Ht : 0 <= (h + 90) mod 360 < 360) by (apply Z.mod_pos_bound; lia).
  rewrite (relativeHeading_math _ _ Hh Ht).
  destruct (Z_lt_le_dec h 270) as [Hlt | Hge].
  - rewrite Z.mod_small by lia.
    replace (h + 90 - h) with 90 by lia. reflexivity.
  - replace (h + 90) with ((h - 270) + 1 * 360) by lia.
    rewrite Z.mod_add by lia. rewrite Z.mod_small by lia.
    replace (h - 270 - h) with (-270) by lia. reflexivity.
Qed.

Lemma samples_constant (mag : nat -> LSM303.vector) (v : LSM303.vector) (k n : nat) :
  (forall i, mag i = v) -> samples mag k n = repeat v n.
Proof.
  intros Hv. revert k. induction n as [|n IH]; intros k; [reflexivity|].
  rewrite samples_cons, Hv, IH. reflexivity.
Qed.

Lemma add_events_reads (es : list event) (w : World) :
  reads (add_events es w) = reads w.
Proof. revert w. induction es as [|e es IH]; intros w; simpl; [|rewrite IH]; reflexivity. Qed.

Section MoreLoop.

Variable atan2 : F32.float -> F32.float -> F32.float.
Variable mag : nat -> LSM303.vector.

(** A second call of [averageHeading] that meets the same ten readings
    under the same bounds returns the same heading. *)
Lemma averageHeading_again (w w0 u : World) (h : Z) :
  averageHeading atan2 mag w = Some (h, w0) ->
  LSM303.m_min (compass u) = LSM303.m_min (compass w) ->
  LSM303.m_max (compass u) = LSM303.m_max (compass w) ->
  samples mag (reads u) 10 = samples mag (reads w) 10 ->
  exists u1,
    averageHeading atan2 mag u = Some (h, u1) /\
    trace u1 = trace u ++ repeat CompassRead 10 /\
    reads u1 = (reads u + 10)%nat /\
    target_heading u1 = target_heading u /\
    LSM303.m_min (compass u1) = LSM303.m_min (compass u) /\
    LSM303.m_max (compass u1) = LSM303.m_max (compass u).
Proof.
  intros Hw Hlo Hhi Hs.
  destruct (averageHeading_pure atan2 mag w) as (w1 & _ & _ & _ & _ & _ & Ew).
  destruct (averageHeading_pure atan2 mag u)
    as (u1 & Htr & Hrd & Htg & Hlo1 & Hhi1 & Eu).
  exists u1. split; [|repeat split; assumption].
  rewrite Eu, Hs. rewrite Hw in Ew.
  destruct (averaged (samples mag (reads w) 10)) as [v|]; [|discriminate].
  rewrite (heading_bounds_only atan2 (compass w) (compass u) v Hlo Hhi).
  destruct (heading atan2 (compass w) v) as [h'|]; [|discriminate].
  injection Ew as -> _. reflexivity.
Qed.

(** What a call of [loop] has done once the target is in place. *)
Lemma cycle_start_effects (w w0 : World) (t : Z) :
  cycle_start atan2 mag w t w0 ->
  target_heading w0 = Some t /\
  LSM303.m_min (compass w0) = LSM303.m_min (compass w) /\
  LSM303.m_max (compass w0) = LSM303.m_max (compass w) /\
  ((target_heading w = Some t /\ w0 = w) \/
   (target_heading w = None /\ reads w0 = (reads w + 10)%nat /\
    trace w0 = trace w ++ repeat CompassRead 10)).
Proof.
  intros [t' Ht | t' w0' Ht Havg].
  - split; [exact Ht|]. split; [reflexivity|]. split; [reflexivity|].
    left. split; [exact Ht | reflexivity].
  - destruct (averageHeading_effects _ _ _ _ _ Havg) as (Htr & Hrd & _ & Hlo & Hhi).
    split; [reflexivity|]. split; [exact Hlo|]. split; [exact Hhi|].
    right. split; [exact Ht|]. split; assumption.
Qed.

(** X9.  The two ways a call of [loop] can end.  Let [t] be the target the
    call runs with (on the first call the heading [averageHeading] returns
    to initialise it, at the price of 10 more readings) and [h] the heading
    it then measures.  Either [|relativeHeading h t|] is below the threshold
    and the call has driven straight: its motor commands are [(SPEED, SPEED)]
    and [(0, 0)], it has taken 20 readings, and its new target is
    [(h' + 90) % 360] for the heading [h'] that [averageHeading] returns
    after the stop.  Or [|relativeHeading h t|] is at least the threshold
    and the call has turned: its one motor command is [(speed, -speed)] for
    the speed of [relativeHeading h t], it has taken 10 readings and left
    the target as it was.  No call changes the calibration bounds. *)
Theorem loop_cycle_cases (w w' : World) :
  loop atan2 mag w = Some (tt, w') ->
  LSM303.m_min (compass w') = LSM303.m_min (compass w) /\
  LSM303.m_max (compass w') = LSM303.m_max (compass w) /\
  exists (t h : Z) (w0 w1 : World) (first : nat),
    cycle_start atan2 mag w t w0 /\
    (target_heading w = Some t /\ first = 0%nat \/
     target_heading w = None /\ first = 10%nat) /\
    averageHeading atan2 mag w0 = Some (h, w1) /\
    ((c_abs (relativeHeading h t) < DEVIATION_THRESHOLD /\
      exists (h' : Z) (w2 : World),
        averageHeading atan2 mag
          (add_events (report t h ++ straight_events) w1) = Some (h', w2) /\
        motor_commands (events_since w w') = [(SPEED, SPEED); (0, 0)] /\
        reads w' = (reads w + first + 20)%nat /\
        target_heading w' = Some (Int16.rem (Int16.add h' 90) 360))
     \/
     (DEVIATION_THRESHOLD <= c_abs (relativeHeading h t) /\
      motor_commands (events_since w w')
        = [(turn_speed (relativeHeading h t),
            Int16.neg (turn_speed (relativeHeading h t)))] /\
      reads w' = (reads w + first + 10)%nat /\
      target_heading w' = Some t)).
Proof.
  intros H.
  destruct (loop_inv atan2 mag w w' H)
    as (t & w0 & h & w1 & Hcs & Hh & [[Hlt (h' & w2 & Hh' & ->)] | [Hge ->]]).
  - destruct (cycle_start_effects _ _ _ Hcs) as (Ht0 & Hlo0 & Hhi0 & Hfirst).
    destruct (averageHeading_effects _ _ _ _ _ Hh) as (_ & Hrd1 & _ & Hlo1 & Hhi1).
    destruct (averageHeading_effects _ _ _ _ _ Hh')
      as (_ & Hrd2 & _ & Hlo2 & Hhi2).
    rewrite add_events_compass in Hlo2, Hhi2.
    rewrite add_events_reads in Hrd2.
    apply Z.ltb_lt in Hlt.
    destruct (straight_cycle atan2 mag _ _ _ _ _ _ _ Hcs Hh Hlt Hh')
      as (w'' & Hrun & _ & Hmc & _).
    pose proof (loop_straight_run atan2 mag _ _ _ _ _ _ _ Hcs Hh
                  (proj2 (Z.ltb_lt _ _) Hlt) Hh') as Hrun'.
    rewrite Hrun in Hrun'. injection Hrun' as ->.
    simpl compass.
    split; [congruence|]. split; [congruence|].
    assert (Hcase : exists first : nat,
              (target_heading w = Some t /\ first = 0%nat \/
               target_heading w = None /\ first = 10%nat) /\
              reads w0 = (reads w + first)%nat).
    { destruct Hfirst as [[Ht ->] | (Ht & Hrd0 & _)].
      - exists 0%nat. split; [left; split; [exact Ht | reflexivity] | lia].
      - exists 10%nat. split; [right; split; [exact Ht | reflexivity] | exact Hrd0]. }
    destruct Hcase as (first & Hwhich & Hrd0).
    exists t, h, w0, w1, first.
    split; [exact Hcs|]. split; [exact Hwhich|]. split; [exact Hh|].
    left. split; [exact Hlt|].
    exists h', w2. split; [exact Hh'|]. split; [exact Hmc|].
    split; [simpl reads; lia | reflexivity].
  - destruct (cycle_start_effects _ _ _ Hcs) as (Ht0 & Hlo0 & Hhi0 & Hfirst).
    destruct (averageHeading_effects _ _ _ _ _ Hh) as (_ & Hrd1 & Htg1 & Hlo1 & Hhi1).
    apply Z.ltb_ge in Hge.
    destruct (turn_cycle atan2 mag _ _ _ _ _ Hcs Hh Hge)
      as (w'' & Hrun & _ & Hmc & Htg).
    rewrite H in Hrun. injection Hrun as <-.
    rewrite add_events_compass.
    split; [congruence|]. split; [congruence|].
    assert (Hcase : exists first : nat,
              (target_heading w = Some t /\ first = 0%nat \/
               target_heading w = None /\ first = 10%nat) /\
              reads w0 = (reads w + first)%nat).
    { destruct Hfirst as [[Ht ->] | (Ht & Hrd0 & _)].
      - exists 0%nat. split; [left; split; [exact Ht | reflexivity] | lia].
      - exists 10%nat. split; [right; split; [exact Ht | reflexivity] | exact Hrd0]. }
    destruct Hcase as (first & Hwhich & Hrd0).
    exists t, h, w0, w1, first.
    split; [exact Hcs|]. split; [exact Hwhich|]. split; [exact Hh|].
    right. split; [exact Hge|]. split; [exact Hmc|].
    split; [rewrite add_events_reads; lia|].
    rewrite add_events_target. congruence.
Qed.

End MoreLoop.

Lemma loop_cycle_cases_witness :
  LSM303.m_min (compass (Examples.after
                  (loop Examples.atan2_sign Examples.mag_east)
                  (Examples.world0 (Some 90))))
  = LSM303.m_min (compass (Examples.world0 (Some 90))) /\
  LSM303.m_max (compass (Examples.after
                  (loop Examples.atan2_sign Examples.mag_east)
                  (Examples.world0 (Some 90))))
  = LSM303.m_max (compass (Examples.world0 (Some 90))) /\
  exists (t h : Z) (w0 w1 : World) (first : nat),
    cycle_start Examples.atan2_sign Examples.mag_east
      (Examples.world0 (Some 90)) t w0 /\
    (target_heading (Examples.world0 (Some 90)) = Some t /\ first = 0%nat \/
     target_heading (Examples.world0 (Some 90)) = None /\ first = 10%nat) /\
    averageHeading Examples.atan2_sign Examples.mag_east w0 = Some (h, w1) /\
    ((c_abs (relativeHeading h t) < DEVIATION_THRESHOLD /\
      exists (h' : Z) (w2 : World),
        averageHeading Examples.atan2_sign Examples.mag_east
          (add_events (report t h ++ straight_events) w1) = Some (h', w2) /\
        motor_commands
          (events_since (Examples.world0 (Some 90))
             (Examples.after (loop Examples.atan2_sign Examples.mag_east)
                (Examples.world0 (Some 90))))
        = [(SPEED, SPEED); (0, 0)] /\
        reads (Examples.after (loop Examples.atan2_sign Examples.mag_east)
                 (Examples.world0 (Some 90)))
        = (reads (Examples.world0 (Some 90%Z)) + first + 20)%nat /\
        target_heading (Examples.after
                          (loop Examples.atan2_sign Examples.mag_east)
                          (Examples.world0 (Some 90)))
        = Some (Int16.rem (Int16.add h' 90) 360))
     \/
     (DEVIATION_THRESHOLD <= c_abs (relativeHeading h t) /\
      motor_commands
        (events_since (Examples.world0 (Some 90))
           (Examples.after (loop Examples.atan2_sign Examples.mag_east)
              (Examples.world0 (Some 90))))
      = [(turn_speed (relativeHeading h t),
          Int16.neg (turn_speed (relativeHeading h t)))] /\
      reads (Examples.after (loop Examples.atan2_sign Examples.mag_east)
               (Examples.world0 (Some 90)))
      = (reads (Examples.world0 (Some 90%Z)) + first + 10)%nat /\
      target_heading (Examples.after
                        (loop Examples.atan2_sign Examples.mag_east)
                        (Examples.world0 (Some 90)))
      = Some t)).
Proof.
  apply (loop_cycle_cases Examples.atan2_sign Examples.mag_east
           (Examples.world0 (Some 90))
           (Examples.after (loop Examples.atan2_sign Examples.mag_east)
              (Examples.world0 (Some 90)))).
  vm_compute. reflexivity.
Defined.
Lemma cycles_step
    (atan2 : F32.float -> F32.float -> F32.float) (mag : nat -> LSM303.vector)
    (n : nat) (w w1 : World) :
  loop atan2 mag w = Some (tt, w1) ->
  cycles atan2 mag (S n) w = cycles atan2 mag n w1.
Proof. intros H. simpl cycles. rewrite (bind_Some _ _ _ _ _ H). reflexivity. Qed.

(** *** A robot that is held in place *)

Section Held.

Variable atan2 : F32.float -> F32.float -> F32.float.
Variable mag : nat -> LSM303.vector.
Variable v : LSM303.vector.
Hypothesis Hheld : forall i, mag i = v.

Lemma held_turns (w w0 : World) (h : Z) :
  averageHeading atan2 mag w = Some (h, w0) -> 0 <= h < 360 ->
  forall (n : nat) (u : World),
    target_heading u = Some ((h + 90) mod 360) ->
    LSM303.m_min (compass u) = LSM303.m_min (compass w) ->
    LSM303.m_max (compass u) = LSM303.m_max (compass w) ->
    exists u' es,
      cycles atan2 mag n u = Some (tt, u') /\
      trace u' = trace u ++ es /\
      motor_commands es = repeat (SPEED, - SPEED) n /\
      target_heading u' = Some ((h + 90) mod 360).
Proof.
  intros Hw Hh. induction n as [|n IH]; intros u Ht Hlo Hhi.
  - exists u, []. split; [reflexivity|]. rewrite app_nil_r.
    split; [reflexivity|]. split; [reflexivity | exact Ht].
  - destruct (averageHeading_again atan2 mag w w0 u h Hw Hlo Hhi)
      as (u1 & Hu & Htr1 & _ & Htg1 & Hlo1 & Hhi1).
    { rewrite !(samples_constant mag v) by exact Hheld. reflexivity. }
    pose proof (relativeHeading_quarter h Hh) as Hrel.
    assert (Hge : (c_abs (relativeHeading h ((h + 90) mod 360))
                   <? DEVIATION_THRESHOLD) = false)
      by (rewrite Hrel; reflexivity).
    pose proof (loop_turn_run atan2 mag u u u1 _ h (cycle_later _ _ _ _ Ht) Hu Hge)
      as Hloop.
    rewrite Hrel in Hloop.
    change (turn_speed 90) with SPEED in Hloop.
    change (Int16.neg SPEED) with (- SPEED) in Hloop.
    match type of Hloop with
    | _ = Some (tt, ?u2) =>
        destruct (IH u2) as (u' & es & Hrun & Htr & Hmc & Htg)
    end.
    + rewrite add_events_target, Htg1. exact Ht.
    + rewrite add_events_compass, Hlo1. exact Hlo.
    + rewrite add_events_compass, Hhi1. exact Hhi.
    + exists u'. eexists. split; [|split; [|split; [|exact Htg]]].
      * rewrite (cycles_step _ _ _ _ _ Hloop). exact Hrun.
      * rewrite Htr, add_events_trace, Htr1, <- !app_assoc. reflexivity.
      * rewrite !motor_commands_app, motor_commands_reads, Hmc. reflexivity.
Qed.

(** X10.  A robot that cannot move sees the same reading again and again.  On
    its first call [loop] then finds itself on target and drives straight,
    and every later call finds the target a quarter turn away and commands
    [(SPEED, -SPEED)], without end: the target is set once and never
    reached. *)
Theorem held_robot_keeps_turning (w w0 : World) (h : Z) (n : nat) :
  target_heading w = None ->
  averageHeading atan2 mag w = Some (h, w0) -> 0 <= h < 360 ->
  exists w',
    cycles atan2 mag (S n) w = Some (tt, w') /\
    motor_commands (events_since w w')
      = [(SPEED, SPEED); (0, 0)] ++ repeat (SPEED, - SPEED) n /\
    target_heading w' = Some ((h + 90) mod 360).
Proof.
  intros Ht Hw Hh.
  destruct (averageHeading_effects _ _ _ _ _ Hw) as (Htr0 & _ & _ & Hlo0 & Hhi0).
  pose proof (cycle_first atan2 mag w h w0 Ht Hw) as Hcs.
  destruct (averageHeading_again atan2 mag w w0 (set_target h w0) h Hw Hlo0 Hhi0)
    as (w1 & Hw1 & Htr1 & _ & _ & Hlo1 & Hhi1).
  { rewrite !(samples_constant mag v) by exact Hheld. reflexivity. }
  simpl in Htr1, Hlo1, Hhi1.
  destruct (averageHeading_again atan2 mag w w0
              (add_events (report h h ++ straight_events) w1) h Hw)
    as (w2 & Hw2 & Htr2 & _ & _ & Hlo2 & Hhi2).
  { rewrite add_events_compass, Hlo1. exact Hlo0. }
  { rewrite add_events_compass, Hhi1. exact Hhi0. }
  { rewrite !(samples_constant mag v) by exact Hheld. reflexivity. }
  rewrite add_events_compass in Hlo2, Hhi2.
  rewrite add_events_trace in Htr2.
  assert (Hlt : (c_abs (relativeHeading h h) <? DEVIATION_THRESHOLD) = true)
    by (rewrite relativeHeading_same; reflexivity).
  pose proof (loop_straight_run atan2 mag _ _ _ _ _ _ _ Hcs Hw1 Hlt Hw2) as Hloop.
  rewrite (next_target_mod h Hh) in Hloop.
  match type of Hloop with
  | _ = Some (tt, ?u) =>
      destruct (held_turns w w0 h Hw Hh n u) as (w' & es & Hrun & Htr & Hmc & Htg)
  end.
  - reflexivity.
  - simpl compass. rewrite Hlo2, Hlo1. exact Hlo0.
  - simpl compass. rewrite Hhi2, Hhi1. exact Hhi0.
  - exists w'. split; [|split; [|exact Htg]].
    + rewrite (cycles_step _ _ _ _ _ Hloop). exact Hrun.
    + rewrite (events_since_app w w'
                 (repeat CompassRead 10 ++ repeat CompassRead 10
                  ++ (report h h ++ straight_events)
                  ++ repeat CompassRead 10 ++ [Println] ++ es)).
      * rewrite !motor_commands_app, !motor_commands_reads, Hmc. reflexivity.
      * rewrite Htr. simpl trace. rewrite Htr2, Htr1, Htr0.
        rewrite <- !app_assoc. reflexivity.
Qed.

End Held.

Lemma held_robot_keeps_turning_witness :
  exists w',
    cycles Examples.atan2_sign Examples.mag_east 3 (Examples.world0 None)
      = Some (tt, w') /\
    motor_commands (events_since (Examples.world0 None) w')
      = [(SPEED, SPEED); (0, 0)] ++ repeat (SPEED, - SPEED) 2 /\
    target_heading w' = Some ((0 + 90) mod 360).
Proof.
  apply (held_robot_keeps_turning Examples.atan2_sign Examples.mag_east
           (Examples.vec 100 0 0) (fun _ => eq_refl)
           (Examples.world0 None) (Examples.sampled None) 0 2).
  - reflexivity.
  - vm_compute. reflexivity.
  - lia.
Defined.

(** ** The sketch as a whole *)

Lemma minimum_from_cases (l : list Z) (init : Z) :
  minimum_from init l = init \/ In (minimum_from init l) l.
Proof.
  induction l as [|a l IH]; [left; reflexivity|].
  simpl minimum_from. change (fold_right Z.min init l) with (minimum_from init l).
  destruct (Z.min_spec a (minimum_from init l)) as [[_ ->] | [_ ->]].
  - right. now left.
  - destruct IH as [-> | IH]; [left; reflexivity | right; now right].
Qed.

Lemma maximum_from_cases (l : list Z) (init : Z) :
  maximum_from init l = init \/ In (maximum_from init l) l.
Proof.
  induction l as [|a l IH]; [left; reflexivity|].
  simpl maximum_from. change (fold_right Z.max init l) with (maximum_from init l).
  destruct (Z.max_spec a (maximum_from init l)) as [[_ ->] | [_ ->]].
  - destruct IH as [-> | IH]; [left; reflexivity | right; now right].
  - right. now left.
Qed.

(** A calibration over 16-bit readings that differ on both axes leaves
    bounds [heading] can work with. *)
Lemma setup_calibrated (mag : nat -> LSM303.vector) (w : World) :
  (forall v, In v (samples mag (reads w) 70) ->
     Int16.in_range (LSM303.x v) /\ Int16.in_range (LSM303.y v)) ->
  (exists a b, In a (samples mag (reads w) 70) /\
               In b (samples mag (reads w) 70) /\ LSM303.x a <> LSM303.x b) ->
  (exists a b, In a (samples mag (reads w) 70) /\
               In b (samples mag (reads w) 70) /\ LSM303.y a <> LSM303.y b) ->
  exists w1,
    setup mag w = Some (tt, w1) /\
    int_bounds (compass w1) /\ non_degenerate (compass w1) /\
    target_heading w1 = target_heading w.
Proof.
  intros Hr (ax & bx & Hax & Hbx & Hx) (ay & by_ & Hay & Hby & Hy).
  destruct (setup_runs mag w) as (w1 & Hrun & _ & Hxlo & Hylo & Hxhi & Hyhi & _).
  destruct (setup_keeps_target mag w) as (w1' & Hrun' & Htg).
  rewrite Hrun in Hrun'. injection Hrun' as <-.
  exists w1. split; [exact Hrun|].
  set (S70 := samples mag (reads w) 70) in *.
  assert (Hin : forall (f : LSM303.vector -> Z) (n : Z),
            In n (map f S70) -> exists v, In v S70 /\ n = f v).
  { intros f n Hn. apply in_map_iff in Hn. destruct Hn as (v & <- & Hv).
    exists v. split; [exact Hv | reflexivity]. }
  split; [|split; [|exact Htg]].
  - unfold int_bounds. rewrite Hxlo, Hxhi, Hylo, Hyhi.
    simpl LSM303.x. simpl LSM303.y.
    repeat split.
    + destruct (minimum_from_cases (map LSM303.x S70) 2047) as [-> | H];
        [int16_range|].
      destruct (Hin _ _ H) as (v & Hv & ->). apply (Hr v Hv).
    + destruct (minimum_from_cases (map LSM303.x S70) 2047) as [-> | H];
        [int16_range|].
      destruct (Hin _ _ H) as (v & Hv & ->). apply (Hr v Hv).
    + destruct (maximum_from_cases (map LSM303.x S70) (-2048)) as [-> | H];
        [int16_range|].
      destruct (Hin _ _ H) as (v & Hv & ->). apply (Hr v Hv).
    + destruct (maximum_from_cases (map LSM303.x S70) (-2048)) as [-> | H];
        [int16_range|].
      destruct (Hin _ _ H) as (v & Hv & ->). apply (Hr v Hv).
    + destruct (minimum_from_cases (map LSM303.y S70) 2047) as [-> | H];
        [int16_range|].
      destruct (Hin _ _ H) as (v & Hv & ->). apply (Hr v Hv).
    + destruct (minimum_from_cases (map LSM303.y S70) 2047) as [-> | H];
        [int16_range|].
      destruct (Hin _ _ H) as (v & Hv & ->). apply (Hr v Hv).
    + destruct (maximum_from_cases (map LSM303.y S70) (-2048)) as [-> | H];
        [int16_range|].
      destruct (Hin _ _ H) as (v & Hv & ->). apply (Hr v Hv).
    + destruct (maximum_from_cases (map LSM303.y S70) (-2048)) as [-> | H];
        [int16_range|].
      destruct (Hin _ _ H) as (v & Hv & ->). apply (Hr v Hv).
  - unfold non_degenerate. rewrite Hxlo, Hxhi, Hylo, Hyhi.
    pose proof (proj2 (minimum_from_le (map LSM303.x S70) (LSM303.x running_min_init))) as A1.
    pose proof (proj2 (maximum_from_ge (map LSM303.x S70) (LSM303.x running_max_init))) as A2.
    pose proof (proj2 (minimum_from_le (map LSM303.y S70) (LSM303.y running_min_init))) as A3.
    pose proof (proj2 (maximum_from_ge (map LSM303.y S70) (LSM303.y running_max_init))) as A4.
    pose proof (A1 _ (in_map LSM303.x _ _ Hax)). pose proof (A1 _ (in_map LSM303.x _ _ Hbx)).
    pose proof (A2 _ (in_map LSM303.x _ _ Hax)). pose proof (A2 _ (in_map LSM303.x _ _ Hbx)).
    pose proof (A3 _ (in_map LSM303.y _ _ Hay)). pose proof (A3 _ (in_map LSM303.y _ _ Hby)).
    pose proof (A4 _ (in_map LSM303.y _ _ Hay)). pose proof (A4 _ (in_map LSM303.y _ _ Hby)).
    split; lia.
Qed.

Section Calibrated.

Variable atan2 : F32.float -> F32.float -> F32.float.
Variable mag : nat -> LSM303.vector.
Hypothesis Hatan : atan2_contract atan2.

(** On a calibrated compass a call of [loop] runs to its end, keeps the
    calibration, leaves a target in [0, 360) and commands speeds within
    282. *)
Lemma loop_calibrated (w : World) :
  int_bounds (compass w) -> non_degenerate (compass w) ->
  (forall t, target_heading w = Some t -> 0 <= t < 360) ->
  exists w' es,
    loop atan2 mag w = Some (tt, w') /\
    trace w' = trace w ++ es /\
    Forall (speeds_within 282) (motor_commands es) /\
    LSM303.m_min (compass w') = LSM303.m_min (compass w) /\
    LSM303.m_max (compass w') = LSM303.m_max (compass w) /\
    exists t', target_heading w' = Some t' /\ 0 <= t' < 360.
Proof.
  intros Hc Hnd Ht.
  assert (Hstart : exists t w0,
            cycle_start atan2 mag w t w0 /\ 0 <= t < 360).
  { destruct (target_heading w) as [t|] eqn:E.
    - exists t, w. split; [now constructor | now apply Ht].
    - destruct (averageHeading_calibrated atan2 mag w Hatan Hc Hnd)
        as (t & w0 & Hrun & Hr & _).
      exists t, (set_target t w0). split; [now constructor | exact Hr]. }
  destruct Hstart as (t & w0 & Hcs & Htr).
  destruct (cycle_start_effects atan2 mag _ _ _ Hcs) as (Ht0 & Hlo0 & Hhi0 & _).
  assert (Hc0 : int_bounds (compass w0))
    by (unfold int_bounds in *; rewrite Hlo0, Hhi0; exact Hc).
  assert (Hnd0 : non_degenerate (compass w0))
    by (unfold non_degenerate in *; rewrite Hlo0, Hhi0; exact Hnd).
  destruct (averageHeading_calibrated atan2 mag w0 Hatan Hc0 Hnd0)
    as (h & w1 & Hh & Hhr & _ & _ & Htg1 & Hlo1 & Hhi1).
  destruct (sensing_trace atan2 mag _ _ _ _ _ Hcs Hh) as [k Hk].
  destruct (c_abs (relativeHeading h t) <? DEVIATION_THRESHOLD) eqn:Hlt.
  - set (w1' := add_events (report t h ++ straight_events) w1).
    assert (Hc1 : int_bounds (compass w1'))
      by (unfold int_bounds, w1' in *; rewrite add_events_compass, Hlo1, Hhi1;
          exact Hc0).
    assert (Hnd1 : non_degenerate (compass w1'))
      by (unfold non_degenerate, w1' in *; rewrite add_events_compass, Hlo1, Hhi1;
          exact Hnd0).
    destruct (averageHeading_calibrated atan2 mag w1' Hatan Hc1 Hnd1)
      as (h' & w2 & Hh' & Hhr' & Htr2 & _ & _ & Hlo2 & Hhi2).
    unfold w1' in Hlo2, Hhi2, Htr2.
    rewrite add_events_compass in Hlo2, Hhi2. rewrite add_events_trace in Htr2.
    pose proof (loop_straight_run atan2 mag _ _ _ _ _ _ _ Hcs Hh Hlt Hh') as Hrun.
    eexists _, _. split; [exact Hrun|].
    split; [simpl trace; rewrite Htr2, Hk, <- !app_assoc; reflexivity|].
    split.
    + rewrite !motor_commands_app, !motor_commands_reads. simpl.
      repeat constructor; unfold SPEED; simpl; lia.
    + simpl compass. split; [congruence|]. split; [congruence|].
      exists ((h' + 90) mod 360). simpl target_heading.
      rewrite (next_target_mod h' Hhr'). split; [reflexivity|].
      apply Z.mod_pos_bound. lia.
  - pose proof (loop_turn_run atan2 mag _ _ _ _ _ Hcs Hh Hlt) as Hrun.
    eexists _, _. split; [exact Hrun|].
    split; [rewrite add_events_trace, Hk, <- !app_assoc; reflexivity|].
    split.
    + rewrite !motor_commands_app, !motor_commands_reads. simpl.
      repeat constructor; simpl;
        try apply turn_speed_bounded; apply turn_speed_neg_bounded.
    + rewrite add_events_compass, add_events_target.
      split; [congruence|]. split; [congruence|].
      exists t. split; [congruence | exact Htr].
Qed.

Lemma cycles_calibrated (n : nat) (w : World) :
  int_bounds (compass w) -> non_degenerate (compass w) ->
  (forall t, target_heading w = Some t -> 0 <= t < 360) ->
  exists w' es,
    cycles atan2 mag n w = Some (tt, w') /\
    trace w' = trace w ++ es /\
    Forall (speeds_within 282) (motor_commands es) /\
    LSM303.m_min (compass w') = LSM303.m_min (compass w) /\
    LSM303.m_max (compass w') = LSM303.m_max (compass w) /\
    (forall t, target_heading w' = Some t -> 0 <= t < 360) /\
    (n <> O -> exists t, target_heading w' = Some t).
Proof.
  revert w. induction n as [|n IH]; intros w Hc Hnd Ht.
  - exists w, []. split; [reflexivity|]. rewrite app_nil_r.
    split; [reflexivity|]. split; [constructor|].
    split; [reflexivity|]. split; [reflexivity|]. split; [exact Ht|].
    intros H. now elim H.
  - destruct (loop_calibrated w Hc Hnd Ht)
      as (w1 & es1 & Hrun1 & Htr1 & Hmc1 & Hlo1 & Hhi1 & t1 & Ht1 & Ht1r).
    destruct (IH w1) as (w' & es & Hrun & Htr & Hmc & Hlo & Hhi & Htg & Hset).
    + unfold int_bounds in *. rewrite Hlo1, Hhi1. exact Hc.
    + unfold non_degenerate in *. rewrite Hlo1, Hhi1. exact Hnd.
    + intros t E. rewrite Ht1 in E. injection E as <-. exact Ht1r.
    + exists w', (es1 ++ es).
      split; [rewrite (cycles_step _ _ _ _ _ Hrun1); exact Hrun|].
      split; [rewrite Htr, Htr1, <- app_assoc; reflexivity|].
      split; [rewrite motor_commands_app; apply Forall_app; split; assumption|].
      split; [congruence|]. split; [congruence|]. split; [exact Htg|].
      intros _. destruct n as [|n].
      * simpl in Hrun. injection Hrun as <-. exists t1. exact Ht1.
      * apply Hset. discriminate.
Qed.

End Calibrated.

(** X11.  The sketch never meets an undefined conversion.  Let the magnetometer
    deliver 16-bit readings, and let the 70 readings of the calibration
    differ on the [x] axis and on the [y] axis.  Then [setup] and any
    number of calls of [loop] after it run to their end; the calls of [loop]
    keep the calibration, command speeds within 282 in magnitude, and from
    the first call on leave a target in [0, 360). *)
Theorem sketch_runs
    (atan2 : F32.float -> F32.float -> F32.float) (mag : nat -> LSM303.vector)
    (w : World) (n : nat) :
  atan2_contract atan2 ->
  target_heading w = None ->
  (forall v, In v (samples mag (reads w) 70) ->
     Int16.in_range (LSM303.x v) /\ Int16.in_range (LSM303.y v)) ->
  (exists a b, In a (samples mag (reads w) 70) /\
               In b (samples mag (reads w) 70) /\ LSM303.x a <> LSM303.x b) ->
  (exists a b, In a (samples mag (reads w) 70) /\
               In b (samples mag (reads w) 70) /\ LSM303.y a <> LSM303.y b) ->
  exists w1 w',
    setup mag w = Some (tt, w1) /\
    cycles atan2 mag n w1 = Some (tt, w') /\
    LSM303.m_min (compass w') = LSM303.m_min (compass w1) /\
    LSM303.m_max (compass w') = LSM303.m_max (compass w1) /\
    Forall (speeds_within 282) (motor_commands (events_since w1 w')) /\
    (n <> O -> exists t, target_heading w' = Some t /\ 0 <= t < 360).
Proof.
  intros Hatan Ht Hr Hx Hy.
  destruct (setup_calibrated mag w Hr Hx Hy) as (w1 & Hrun1 & Hc & Hnd & Htg1).
  destruct (cycles_calibrated atan2 mag Hatan n w1 Hc Hnd)
    as (w' & es & Hrun & Htr & Hmc & Hlo & Hhi & Htg & Hset).
  { intros t E. rewrite Htg1, Ht in E. discriminate. }
  exists w1, w'. split; [exact Hrun1|]. split; [exact Hrun|].
  split; [exact Hlo|]. split; [exact Hhi|].
  split; [rewrite (events_since_app _ _ _ Htr); exact Hmc|].
  intros Hn. destruct (Hset Hn) as [t E]. exists t. split; [exact E|].
  exact (Htg t E).
Qed.

Lemma mag_quarters_cases (k : nat) :
  mag_quarters k = Examples.vec 100 0 0 \/ mag_quarters k = Examples.vec 0 100 0 \/
  mag_quarters k = Examples.vec (-100) 0 0 \/ mag_quarters k = Examples.vec 0 (-100) 0.
Proof.
  unfold mag_quarters. destruct (k mod 4)%nat as [|[|[|]]]; auto.
Qed.

Lemma sketch_runs_witness :
  exists w1 w',
    setup mag_quarters (Examples.world0 None) = Some (tt, w1) /\
    cycles Examples.atan2_sign mag_quarters 2 w1 = Some (tt, w') /\
    LSM303.m_min (compass w') = LSM303.m_min (compass w1) /\
    LSM303.m_max (compass w') = LSM303.m_max (compass w1) /\
    Forall (speeds_within 282) (motor_commands (events_since w1 w')) /\
    (2%nat <> O -> exists t, target_heading w' = Some t /\ 0 <= t < 360).
Proof.
  apply (sketch_runs Examples.atan2_sign mag_quarters (Examples.world0 None) 2
           atan2_sign_contract eq_refl).
  - intros v Hv. apply in_map_iff in Hv. destruct Hv as (k & <- & _).
    destruct (mag_quarters_cases k) as [-> | [-> | [-> | ->]]];
      split; simpl; int16_range.
  - exists (mag_quarters 0), (mag_quarters 1).
    split; [apply in_map, in_seq; simpl; lia|].
    split; [apply in_map, in_seq; simpl; lia|]. simpl. lia.
  - exists (mag_quarters 0), (mag_quarters 1).
    split; [apply in_map, in_seq; simpl; lia|].
    split; [apply in_map, in_seq; simpl; lia|]. simpl. lia.
Defined.
(** ** Rounding to binary32 from below *)

(** The shift that [binary_round_aux] rounds after does not take a value
    below a canonical bound it is above. *)
Lemma shr_fexp_ge (mx ex : Z) (lx : location) (mc : positive) (ec : Z)
    (mrs : shr_record) (e' : Z) :
  0 <= mx -> -300 <= ex ->
  canonical_mantissa F32.prec F32.emax mc ec = true ->
  val (Zpos mc) ec <= val mx ex ->
  shr_fexp F32.prec F32.emax mx ex lx = (mrs, e') ->
  0 <= shr_m mrs /\ ex <= e' /\ val (Zpos mc) ec <= val (shr_m mrs) e'.
Proof.
  intros Hm He Hcan Hle E.
  destruct (canonical_bounds mc ec Hcan) as (Hec & Hec' & Hmc).
  assert (Hm0 : 0 < mx).
  { destruct (Z.eq_dec mx 0) as [E0|]; [|lia]. exfalso.
    pose proof (val_pos (Zpos mc) ec ltac:(lia) ltac:(lia)).
    rewrite E0 in Hle. unfold val in Hle at 2. lia. }
  destruct (shr_fexp_spec mx ex lx Hm) as [[Hn E1] | [Hn (mrs1 & E1 & Hmrs & _)]];
    rewrite E1 in E; injection E as <- <-.
  - assert (Hrec : shr_m (shr_record_of_loc mx lx) = mx)
      by (destruct lx as [|[]]; reflexivity).
    rewrite Hrec. split; [exact Hm|]. split; [lia | exact Hle].
  - set (n := fexp F32.prec F32.emax (Zdigits2 mx + ex) - ex) in *.
    pose proof (pow2_pos n ltac:(lia)) as Pn.
    rewrite Hmrs.
    split; [apply Z.div_pos; lia|]. split; [lia|].
    pose proof (fexp_spec (Zdigits2 mx + ex)) as Hf.
    pose proof (val_digits_le (Zpos mc) ec mx ex ltac:(lia) Hm0 ltac:(lia) He Hle) as Hd.
    simpl Zdigits2 in Hd.
    destruct (Z_lt_le_dec ec (ex + n)) as [Hlt | Hge].
    + (* the bound lies in a lower binade *)
      assert (Hn' : n = Zdigits2 mx - 24) by (unfold n in *; lia).
      destruct (Zdigits2_bounds mx Hm0) as [Hlo _].
      assert (H23 : 2 ^ 23 <= mx / 2 ^ n).
      { apply Z.div_le_lower_bound; [exact Pn|].
        rewrite <- Z.pow_add_r by lia.
        replace (n + 23) with (Zdigits2 mx - 1) by lia. exact Hlo. }
      assert (H1 : val (Zpos mc) ec <= val (2 ^ 24) ec) by (apply val_le_mono; lia).
      assert (H2 : val (2 ^ 24) ec = val 1 (ec + 24))
        by (rewrite val_shift by lia; f_equal).
      assert (H3 : val 1 (ec + 24) <= val 1 (ex + n + 23))
        by (apply val_exp_mono; lia).
      assert (H4 : val 1 (ex + n + 23) = val (2 ^ 23) (ex + n))
        by (rewrite val_shift by lia; f_equal).
      assert (H5 : val (2 ^ 23) (ex + n) <= val (mx / 2 ^ n) (ex + n))
        by (apply val_le_mono; lia).
      lia.
    + (* the bound lies on the grid of the result *)
      assert (Heq : ec = ex + n) by (unfold n in *; lia).
      rewrite Heq in Hle |- *.
      rewrite val_shift in Hle by lia.
      apply val_le_mono; [lia|].
      apply Z.div_le_lower_bound; [exact Pn|].
      destruct (Z_le_gt_dec (Zpos mc * 2 ^ n) mx) as [|Hgt]; [lia|].
      exfalso. assert (Hgt' : mx < Zpos mc * 2 ^ n) by lia.
      apply (val_lt_mono _ _ ex He) in Hgt'. lia.
Qed.

(** Rounding a value that lies between two canonical bounds gives a finite
    float between them. *)
Lemma binary_round_aux_between (s : bool) (mx ex : Z) (lx : location)
    (mc : positive) (ec : Z) (mb : positive) (eb : Z) :
  0 <= mx -> -300 <= ex ->
  canonical_mantissa F32.prec F32.emax mc ec = true ->
  canonical_mantissa F32.prec F32.emax mb eb = true -> eb <= 80 ->
  val (Zpos mc) ec <= val mx ex ->
  val mx ex <= val (Zpos mb) eb ->
  (lx <> loc_Exact -> val (mx + 1) ex <= val (Zpos mb) eb) ->
  exists m e,
    binary_round_aux F32.prec F32.emax s mx ex lx = S754_finite s m e /\
    -149 <= e /\
    val (Zpos mc) ec <= val (Zpos m) e <= val (Zpos mb) eb.
Proof.
  intros Hm He Hcc Hcb Heb80 Hlo Hle Hle'.
  destruct (round_first_le mx ex lx mb eb Hm He Hcb Hle Hle')
    as (mrs & e' & E1 & Hm1 & He' & Hv1).
  destruct (shr_fexp_ge mx ex lx mc ec mrs e' Hm He Hcc Hlo E1) as (Hs1 & _ & Hlo1).
  assert (Hlo1' : val (Zpos mc) ec
                  <= val (round_nearest_even (shr_m mrs) (loc_of_shr_record mrs)) e').
  { destruct (round_nearest_even_cases (shr_m mrs) (loc_of_shr_record mrs))
      as [-> | [-> _]]; [exact Hlo1|].
    assert (val (shr_m mrs) e' <= val (shr_m mrs + 1) e')
      by (apply val_le_mono; lia).
    lia. }
  destruct (shr_fexp_exact_le _ e' Hm1 ltac:(lia))
    as (mrs2 & e2 & E2 & Hm2 & He2 & Hv2).
  destruct (shr_fexp_ge _ e' loc_Exact mc ec mrs2 e2 Hm1 ltac:(lia) Hcc Hlo1' E2)
    as (_ & _ & Hlo2).
  unfold binary_round_aux. rewrite E1, E2.
  destruct (canonical_bounds mc ec Hcc) as (_ & Hec' & _).
  pose proof (val_pos (Zpos mc) ec ltac:(lia) ltac:(lia)) as Pc.
  destruct (shr_m mrs2) as [|m2|m2] eqn:Em2; [unfold val in Hlo2 at 2; lia | | lia].
  destruct (canonical_bounds mb eb Hcb) as (_ & Heb' & Hmb).
  assert (He104 : e2 <= 104).
  { assert (H1 : val 1 e2 <= val (Zpos m2) e2) by (apply val_le_mono; lia).
    assert (H2 : val (Zpos mb) eb < val 1 (eb + 24))
      by (rewrite val_shift by lia; apply val_lt_mono; lia).
    destruct (Z_le_gt_dec e2 104) as [|Hgt]; [assumption|].
    assert (H3 : val 1 (eb + 24) <= val 1 e2) by (apply val_exp_mono; lia).
    lia. }
  replace (e2 <=? F32.emax - F32.prec) with true
    by (symmetry; apply Z.leb_le; unfold F32.emax, F32.prec; lia).
  exists m2, e2. split; [reflexivity|]. split; lia.
Qed.

(** *** Division, from both sides *)

(** The quotient [SFdiv] rounds is the floor of the exact quotient on its
    grid. *)
Lemma div_core_floor (mx my : positive) (ex ey : Z) :
  -149 <= ex -> -149 <= ey <= 104 ->
  exists q e' l,
    SFdiv_core_binary F32.prec F32.emax (Zpos mx) ex (Zpos my) ey = (q, e', l) /\
    -300 <= e' /\
    e' <= Z.max (Zpos (digits2_pos mx) + ex - (Zpos (digits2_pos my) + ey) - 24) (-149) /\
    val (Zpos mx) ex * 2 ^ 300 < val (q + 1) e' * val (Zpos my) ey.
Proof.
  intros Hex Hey. unfold SFdiv_core_binary.
  set (e' := Z.min (fexp F32.prec F32.emax
                      (Zdigits2 (Zpos mx) + ex - (Zdigits2 (Zpos my) + ey))) (ex - ey)).
  set (s := ex - ey - e').
  assert (He' : e' <= Z.max (Zpos (digits2_pos mx) + ex - (Zpos (digits2_pos my) + ey) - 24) (-149))
    by (unfold e'; rewrite fexp_spec; simpl Zdigits2; lia).
  assert (He'lo : -300 <= e') by (unfold e'; rewrite fexp_spec; lia).
  assert (Hs : 0 <= s) by (unfold s, e'; lia).
  set (m' := match s with Zpos _ => Z.shiftl (Zpos mx) s | 0 => Zpos mx | Zneg _ => 0 end).
  assert (Hm' : m' = Zpos mx * 2 ^ s) by (apply shift_left_spec; exact Hs).
  pose proof (Z_div_mod m' (Zpos my) ltac:(lia)) as Hdm.
  destruct (Z.div_eucl m' (Zpos my)) as [q r].
  destruct Hdm as [Hdm Hr].
  exists q, e', (new_location (Zpos my) r).
  split; [reflexivity|]. split; [exact He'lo|]. split; [exact He'|].
  assert (E : val (Zpos mx) ex * 2 ^ 300 = val (Zpos mx * 2 ^ s) e' * val 1 ey).
  { unfold val.
    replace (Zpos mx * 2 ^ (ex + 300) * 2 ^ 300)
      with (Zpos mx * (2 ^ (ex + 300) * 2 ^ 300)) by ring.
    rewrite <- Z.pow_add_r by lia.
    replace (Zpos mx * 2 ^ s * 2 ^ (e' + 300) * (1 * 2 ^ (ey + 300)))
      with (Zpos mx * (2 ^ s * 2 ^ (e' + 300) * 2 ^ (ey + 300))) by ring.
    rewrite <- !Z.pow_add_r by lia.
    f_equal. f_equal. unfold s. lia. }
  assert (E2 : val (q + 1) e' * val (Zpos my) ey = val ((q + 1) * Zpos my) e' * val 1 ey).
  { unfold val. ring. }
  rewrite E, E2.
  pose proof (val_pos 1 ey ltac:(lia) ltac:(lia)) as P1.
  apply Z.mul_lt_mono_pos_r; [exact P1|]. apply val_lt_mono; [lia|]. nia.
Qed.

(** The quotient of two finite floats lies between any two canonical bounds
    the exact quotient lies between, as long as the lower one is on the grid
    the quotient is computed on. *)
Lemma div_between (sx sy : bool) (mx my : positive) (ex ey : Z)
    (mc : positive) (ec : Z) (mb : positive) (eb : Z) :
  -149 <= ex -> -149 <= ey <= 104 ->
  canonical_mantissa F32.prec F32.emax mc ec = true ->
  canonical_mantissa F32.prec F32.emax mb eb = true -> eb <= 80 ->
  val (Zpos mc) ec * val (Zpos my) ey <= val (Zpos mx) ex * 2 ^ 300 ->
  val (Zpos mx) ex * 2 ^ 300 <= val (Zpos mb) eb * val (Zpos my) ey ->
  Zpos (digits2_pos mx) + ex - (Zpos (digits2_pos my) + ey) - 24 <= ec ->
  exists m e,
    F32.div (S754_finite sx mx ex) (S754_finite sy my ey)
      = S754_finite (xorb sx sy) m e /\
    -149 <= e /\
    val (Zpos mc) ec <= val (Zpos m) e <= val (Zpos mb) eb.
Proof.
  intros Hex Hey Hcc Hcb Heb80 Hlo Hhi Hgrid.
  destruct (canonical_bounds mc ec Hcc) as (_ & Hec & _).
  destruct (canonical_bounds mb eb Hcb) as (_ & Heb & _).
  unfold F32.div, SFdiv.
  destruct (div_core_spec mx my ex ey Hex Hey)
    as (q & e' & l & E & Hq & He'lo & He' & Hle & Hlt).
  destruct (div_core_floor mx my ex ey Hex Hey)
    as (q2 & e2 & l2 & E' & _ & _ & Hfloor).
  rewrite E in E'. injection E' as <- <- <-.
  rewrite E.
  pose proof (val_pos (Zpos my) ey ltac:(lia) ltac:(lia)) as Py.
  pose proof (val_pos (Zpos mc) ec ltac:(lia) ltac:(lia)) as Pc.
  assert (He'ec : e' <= ec) by lia.
  assert (Hlow : val (Zpos mc) ec <= val q e').
  { replace ec with (e' + (ec - e')) by lia.
    rewrite val_shift by lia.
    apply val_le_mono; [lia|].
    assert (Hk : val (Zpos mc * 2 ^ (ec - e')) e' < val (q + 1) e').
    { apply Z.mul_lt_mono_pos_r with (p := val (Zpos my) ey); [exact Py|].
      rewrite <- val_shift by lia.
      replace (e' + (ec - e')) with ec by lia. lia. }
    apply val_lt_inv in Hk; lia. }
  assert (Hcb_ge : val (Zpos mc) ec <= val (Zpos mb) eb).
  { apply Z.mul_le_mono_pos_r with (p := val (Zpos my) ey); [exact Py | lia]. }
  assert (He'eb : e' <= eb).
  { pose proof (val_digits_le (Zpos mc) ec (Zpos mb) eb
                  ltac:(lia) ltac:(lia) ltac:(lia) ltac:(lia) Hcb_ge) as D.
    simpl Zdigits2 in D.
    destruct (canonical_bounds mc ec Hcc) as (C1 & _ & _).
    destruct (canonical_bounds mb eb Hcb) as (C2 & _ & _).
    lia. }
  apply binary_round_aux_between; try assumption.
  - apply Z.mul_le_mono_pos_r with (p := val (Zpos my) ey); [exact Py | lia].
  - intros Hl. specialize (Hlt Hl).
    apply grid_step; [exact He'lo | exact He'eb |].
    apply Z.mul_lt_mono_pos_r with (p := val (Zpos my) ey); [exact Py | lia].
Qed.

(** *** Truncation, from both sides *)

Lemma trunc_between (s : bool) (m : positive) (e N : Z) :
  -149 <= e -> 0 <= N ->
  val N 0 <= val (Zpos m) e < val (N + 1) 0 ->
  F32.trunc (S754_finite s m e) = Some (if s then - N else N).
Proof.
  intros He HN [Hlo Hhi]. unfold F32.trunc.
  assert (Ha : match e with
               | Zneg p => Z.shiftr (Zpos m) (Zpos p)
               | _ => Z.shiftl (Zpos m) e
               end = N).
  { destruct e as [|p|p].
    - rewrite Z.shiftl_0_r.
      apply val_lt_inv in Hhi; [|lia].
      destruct (Z_le_gt_dec N (Zpos m)) as [|Hgt]; [lia|].
      exfalso. assert (Hgt' : Zpos m < N) by lia.
      apply (val_lt_mono _ _ 0 ltac:(lia)) in Hgt'. lia.
    - rewrite Z.shiftl_mul_pow2 by lia.
      pose proof (pow2_pos (Zpos p) ltac:(lia)).
      change (Zpos p) with (0 + Zpos p) in Hlo at 1, Hhi at 1.
      rewrite val_shift in Hlo, Hhi by lia.
      apply val_lt_inv in Hhi; [|lia].
      destruct (Z_le_gt_dec N (Zpos m * 2 ^ Zpos p)) as [|Hgt]; [lia|].
      exfalso. assert (Hgt' : Zpos m * 2 ^ Zpos p < N) by lia.
      apply (val_lt_mono _ _ 0 ltac:(lia)) in Hgt'. lia.
    - rewrite Z.shiftr_div_pow2 by lia.
      pose proof (pow2_pos (Zpos p) ltac:(lia)) as P.
      assert (E0 : forall k, val k 0 = val (k * 2 ^ Zpos p) (Zneg p)).
      { intros k. rewrite <- val_shift by lia. f_equal. lia. }
      rewrite (E0 N) in Hlo. rewrite (E0 (N + 1)) in Hhi.
      apply val_lt_inv in Hhi; [|lia].
      assert (Hlo' : N * 2 ^ Zpos p <= Zpos m).
      { destruct (Z_le_gt_dec (N * 2 ^ Zpos p) (Zpos m)) as [|Hgt]; [lia|].
        exfalso. assert (Hgt' : Zpos m < N * 2 ^ Zpos p) by lia.
        apply (val_lt_mono _ _ (Zneg p) ltac:(lia)) in Hgt'. lia. }
      symmetry. apply Z.div_unique with (r := Zpos m - N * 2 ^ Zpos p); lia. }
  rewrite Ha. reflexivity.
Qed.

(** *** Dividing an integer by ten *)

(** An integer of at most 24 bits has a canonical mantissa. *)
Lemma small_mantissa (s : bool) (p : positive) :
  Zpos p < 2 ^ 24 ->
  exists mz,
    binary_round F32.prec F32.emax s p 0
      = S754_finite s mz (Zpos (digits2_pos p) - 24) /\
    digits2_pos mz = 24%positive /\
    forall k, -120 <= k <= 0 ->
      val (Zpos mz) (Zpos (digits2_pos p) - 24 + k) = val (Zpos p) k.
Proof.
  intros Hp.
  destruct (binary_round_small s p Hp) as (mz & E & Hv).
  pose proof (Zdigits2_le (Zpos p) 24 ltac:(lia) Hp) as Hd. simpl Zdigits2 in Hd.
  set (d := Zpos (digits2_pos p)) in *.
  assert (Hd1 : 1 <= d) by (unfold d; lia).
  exists mz. split; [exact E|].
  assert (Hdz : Zpos (digits2_pos mz) = 24).
  { pose proof (val_digits_le (Zpos mz) (d - 24) (Zpos p) 0
                  ltac:(lia) ltac:(lia) ltac:(lia) ltac:(lia) ltac:(lia)) as D1.
    pose proof (val_digits_le (Zpos p) 0 (Zpos mz) (d - 24)
                  ltac:(lia) ltac:(lia) ltac:(lia) ltac:(lia) ltac:(lia)) as D2.
    simpl Zdigits2 in D1, D2. fold d in D1, D2. lia. }
  split; [injection Hdz as ->; reflexivity|].
  intros k Hk.
  assert (Hmz : Zpos mz = Zpos p * 2 ^ (24 - d)).
  { assert (Hv' : val (Zpos p) 0 = val (Zpos p * 2 ^ (24 - d)) (d - 24))
      by (rewrite <- val_shift by lia; f_equal; lia).
    rewrite Hv' in Hv.
    destruct (Z.lt_trichotomy (Zpos mz) (Zpos p * 2 ^ (24 - d))) as [H | [H | H]];
      [|exact H|];
      apply (val_lt_mono _ _ (d - 24) ltac:(lia)) in H; lia. }
  rewrite Hmz, <- val_shift by lia. f_equal. lia.
Qed.

Lemma canonical_24 (m : positive) (e : Z) :
  digits2_pos m = 24%positive -> -149 <= e ->
  canonical_mantissa F32.prec F32.emax m e = true.
Proof.
  intros Hd He. unfold canonical_mantissa. rewrite fexp_spec, Hd.
  apply Z.eqb_eq. lia.
Qed.

Lemma val_int (x : Z) : val x 0 = x * 2 ^ 300.
Proof. reflexivity. Qed.

Lemma val_sixteenths (x : Z) : val x (-4) = x * 2 ^ 296.
Proof. reflexivity. Qed.

Lemma val_ten : val 10485760 (-20) = 10 * 2 ^ 300.
Proof. vm_compute. reflexivity. Qed.

Lemma pow2_300 : 2 ^ 300 = 16 * 2 ^ 296.
Proof. vm_compute. reflexivity. Qed.

(** Dividing a 15-bit integer by [10.0] and truncating gives the integer
    quotient. *)
Lemma div_ten_trunc (s : bool) (p : positive) :
  Zpos p <= 32767 ->
  F32.trunc (F32.div (binary_round F32.prec F32.emax s p 0) F32.ten)
  = Some (if s then - (Zpos p / 10) else Zpos p / 10).
Proof.
  intros Hp.
  destruct (small_mantissa s p ltac:(lia)) as (mp & Ep & Hdp & Vp).
  pose proof (Zdigits2_le (Zpos p) 15 ltac:(lia) ltac:(lia)) as Hd.
  simpl Zdigits2 in Hd.
  destruct (digits2_pos_bounds p) as [Hplo Hphi].
  set (d := Zpos (digits2_pos p)) in *.
  assert (Hd1 : 1 <= d) by (unfold d; lia).
  specialize (Vp 0 ltac:(lia)). rewrite Z.add_0_r in Vp.
  pose proof (pow2_pos 296 ltac:(lia)) as P296.
  pose proof (Z.div_mod (Zpos p) 10 ltac:(lia)) as Hdm.
  pose proof (Z.mod_pos_bound (Zpos p) 10 ltac:(lia)) as Hmod.
  set (Q := Zpos p / 10) in *.
  assert (HQ : 0 <= Q) by (apply Z.div_pos; lia).
  rewrite Ep. unfold F32.ten.
  destruct (Z.eq_dec Q 0) as [HQ0 | HQ0].
  - (* below ten *)
    assert (Hq : bounded_by 15728640 (-24)
                   (F32.div (S754_finite s mp (d - 24))
                            (S754_finite false 10485760 (-20)))).
    { apply (div_bounded _ _ 9 0 10485760 (-20) 15728640 (-24)).
      - unfold bounded_by. split; [lia|]. rewrite Vp. apply val_le_mono; lia.
      - unfold at_least. split; [lia | apply Z.le_refl].
      - lia.
      - lia.
      - reflexivity.
      - lia.
      - vm_compute. discriminate.
      - simpl. lia. }
    destruct (trunc_bounded _ 15728640 (-24) 0 Hq) as (n & Hn & Hpos & Hneg).
    + vm_compute. reflexivity.
    + lia.
    + rewrite Hn, HQ0. f_equal.
      destruct (F32.div _ _) as [sg|sg| |sg m e];
        unfold bounded_by in Hq; try contradiction;
        destruct sg; try (specialize (Hneg eq_refl)); try (specialize (Hpos eq_refl));
        destruct s; lia.
  - (* ten and above *)
    destruct Q as [|pq|pq] eqn:EQ; try lia.
    destruct (small_mantissa false pq ltac:(lia)) as (mq & _ & Hdq & Vq).
    specialize (Vq 0 ltac:(lia)). rewrite Z.add_0_r in Vq.
    assert (HB : exists pb, Zpos pb = 16 * Zpos pq + 15)
      by (exists (16 * pq + 15)%positive; lia).
    destruct HB as [pb HB].
    destruct (small_mantissa false pb ltac:(lia)) as (mb & _ & Hdb & Vb).
    specialize (Vb (-4) ltac:(lia)).
    destruct (digits2_pos_bounds pq) as [Hqlo Hqhi].
    destruct (digits2_pos_bounds pb) as [Hblo Hbhi].
    pose proof (Zdigits2_le (Zpos pb) 24 ltac:(lia) ltac:(lia)) as Hdb24.
    simpl Zdigits2 in Hdb24.
    set (dq := Zpos (digits2_pos pq)) in *.
    set (db := Zpos (digits2_pos pb)) in *.
    assert (Hdq1 : 1 <= dq) by (unfold dq; lia).
    assert (Hdb1 : 1 <= db) by (unfold db; lia).
    assert (Hgrid : d - 4 <= dq).
    { destruct (Z_le_gt_dec (d - 4) dq) as [|Hgt]; [assumption|]. exfalso.
      assert (H1 : 2 ^ dq <= 2 ^ (d - 5)) by (apply Z.pow_le_mono_r; lia).
      assert (H2 : 2 ^ (d - 1) = 16 * 2 ^ (d - 5)).
      { replace (d - 1) with (4 + (d - 5)) by lia.
        rewrite Z.pow_add_r by lia. reflexivity. }
      lia. }
    destruct (div_between s false mp 10485760 (d - 24) (-20)
                mq (dq - 24) mb (db - 24 + -4))
      as (m & e & E & He & Hlo & Hhi).
    + lia.
    + lia.
    + apply canonical_24; [exact Hdq | lia].
    + apply canonical_24; [exact Hdb | lia].
    + lia.
    + rewrite Vq, Vp, val_ten, !val_int. nia.
    + rewrite Vb, Vp, val_ten, val_sixteenths, val_int, HB, pow2_300. nia.
    + rewrite Hdp. simpl digits2_pos. fold d. lia.
    + rewrite E. replace (xorb s false) with s by (destruct s; reflexivity).
      apply trunc_between; [exact He | lia |].
      rewrite Vq in Hlo. rewrite Vb in Hhi.
      split; [exact Hlo|].
      rewrite val_sixteenths, HB in Hhi. rewrite val_int, pow2_300. lia.
Qed.

(** [(int)(n / 10.0)] is [n / 10], for every 16-bit [n] but the least. *)
Lemma div_ten_quot (n : Z) :
  -32767 <= n <= 32767 ->
  F32.to_int (F32.div (F32.of_int n) F32.ten) = Some (Z.quot n 10).
Proof.
  intros Hn. unfold F32.to_int, F32.of_int.
  assert (Hq : -3276 <= Z.quot n 10 <= 3276).
  { split.
    - change (-3276) with (Z.quot (-32767) 10). apply Z.quot_le_mono; lia.
    - change 3276 with (Z.quot 32767 10). apply Z.quot_le_mono; lia. }
  destruct n as [|p|p].
  - reflexivity.
  - simpl binary_normalize. rewrite (div_ten_trunc false p) by lia.
    rewrite <- Z.quot_div_nonneg by lia.
    replace (-32768 <=? Z.quot (Zpos p) 10) with true by (symmetry; apply Z.leb_le; lia).
    replace (Z.quot (Zpos p) 10 <=? 32767) with true by (symmetry; apply Z.leb_le; lia).
    reflexivity.
  - simpl binary_normalize. rewrite (div_ten_trunc true p) by lia.
    assert (E : - (Zpos p / 10) = Z.quot (Zneg p) 10).
    { rewrite <- Z.quot_div_nonneg by lia.
      change (Zneg p) with (- Zpos p). rewrite Z.quot_opp_l by lia. reflexivity. }
    rewrite E.
    replace (-32768 <=? Z.quot (Zneg p) 10) with true by (symmetry; apply Z.leb_le; lia).
    replace (Z.quot (Zneg p) 10 <=? 32767) with true by (symmetry; apply Z.leb_le; lia).
    reflexivity.
Qed.

(** *** Exact results *)

Lemma Zdigits2_unique (x n : Z) :
  0 < x -> 2 ^ (n - 1) <= x < 2 ^ n -> Zdigits2 x = n.
Proof.
  intros Hx [Hlo Hhi].
  destruct (Zdigits2_bounds x Hx) as [Dlo Dhi].
  pose proof (Zdigits2_pos x Hx) as Dpos.
  assert (Hn : 0 < n).
  { destruct (Z_lt_le_dec 0 n) as [|Hn]; [assumption|]. exfalso.
    destruct (Z.eq_dec n 0) as [-> | Hne]; [simpl in Hhi; lia|].
    rewrite Z.pow_neg_r in Hhi by lia. lia. }
  destruct (Z.lt_trichotomy (Zdigits2 x) n) as [H | [H | H]]; [|exact H|]; exfalso.
  - assert (2 ^ Zdigits2 x <= 2 ^ (n - 1)) by (apply Z.pow_le_mono_r; lia). lia.
  - assert (2 ^ n <= 2 ^ (Zdigits2 x - 1)) by (apply Z.pow_le_mono_r; lia). lia.
Qed.

Lemma exact_record (mrs : shr_record) :
  inexact mrs = false -> loc_of_shr_record mrs = loc_Exact.
Proof.
  destruct mrs as [m [] []]; unfold inexact; simpl; try discriminate. reflexivity.
Qed.

(** A value that has a canonical representation is not changed by
    rounding. *)
Lemma binary_round_aux_exact (s : bool) (m : positive) (k ex : Z) :
  digits2_pos m = 24%positive -> 0 <= k -> -300 <= ex -> -149 <= ex + k <= 104 ->
  binary_round_aux F32.prec F32.emax s (Zpos m * 2 ^ k) ex loc_Exact
  = S754_finite s m (ex + k).
Proof.
  intros Hd Hk Hex Hek.
  assert (Hdm : Zdigits2 (Zpos m) = 24) by (simpl; rewrite Hd; reflexivity).
  destruct (Zdigits2_bounds (Zpos m) ltac:(lia)) as [Mlo Mhi]. rewrite Hdm in Mlo, Mhi.
  pose proof (pow2_pos k Hk) as Pk.
  assert (Hdx : Zdigits2 (Zpos m * 2 ^ k) = 24 + k).
  { apply Zdigits2_unique; [lia|].
    replace (24 + k - 1) with (23 + k) by lia.
    rewrite !Z.pow_add_r by lia. simpl (24 - 1) in Mlo. split; nia. }
  assert (Hsecond : shr_fexp F32.prec F32.emax (Zpos m) (ex + k) loc_Exact
                    = (shr_record_of_loc (Zpos m) loc_Exact, ex + k)).
  { destruct (shr_fexp_spec (Zpos m) (ex + k) loc_Exact ltac:(lia))
      as [[_ E] | [Hn _]]; [exact E|].
    rewrite fexp_spec, Hdm in Hn. lia. }
  unfold binary_round_aux.
  destruct (shr_fexp_spec (Zpos m * 2 ^ k) ex loc_Exact ltac:(lia))
    as [[Hn E] | [Hn (mrs & E & Hmrs & Hinex)]];
    rewrite fexp_spec, Hdx in Hn.
  - assert (k = 0) by lia. subst k.
    change (2 ^ 0) with 1 in *. rewrite Z.mul_1_r in *. rewrite Z.add_0_r in *.
    rewrite E. simpl shr_m. simpl loc_of_shr_record. simpl round_nearest_even.
    rewrite Hsecond. simpl shr_m.
    replace (ex <=? F32.emax - F32.prec) with true
      by (symmetry; apply Z.leb_le; unfold F32.emax, F32.prec; lia).
    reflexivity.
  - rewrite fexp_spec, Hdx in E, Hmrs, Hinex.
    replace (Z.max (24 + k + ex - 24) (-149) - ex) with k in * by lia.
    rewrite E.
    assert (Hm : shr_m mrs = Zpos m) by (rewrite Hmrs; apply Z.div_mul; lia).
    assert (Hex' : inexact mrs = false).
    { destruct (inexact mrs) eqn:Ei; [|reflexivity]. exfalso.
      destruct (Hinex eq_refl) as [H | H]; [now apply H | rewrite Hm in H; lia]. }
    rewrite (exact_record mrs Hex'), Hm. simpl round_nearest_even.
    rewrite Hsecond. simpl shr_m.
    replace (ex + k <=? F32.emax - F32.prec) with true
      by (symmetry; apply Z.leb_le; unfold F32.emax, F32.prec; lia).
    reflexivity.
Qed.

(** Twice a value, and a value divided by itself. *)
Lemma mul_two_exact (s : bool) (m : positive) (e : Z) :
  digits2_pos m = 24%positive -> -149 <= e <= 100 ->
  F32.mul F32.two (S754_finite s m e) = S754_finite s m (e + 1).
Proof.
  intros Hd He. unfold F32.mul, F32.two, SFmul.
  rewrite Pos2Z.inj_mul.
  replace (8388608 * Zpos m) with (Zpos m * 2 ^ 23) by (change (2 ^ 23) with 8388608; lia).
  rewrite (binary_round_aux_exact _ m 23 (-22 + e) Hd) by lia.
  simpl xorb. f_equal. lia.
Qed.

Lemma div_double_exact (m : positive) (e : Z) :
  digits2_pos m = 24%positive -> -149 <= e <= 100 ->
  F32.div (S754_finite false m (e + 1)) (S754_finite false m e) = F32.two.
Proof.
  intros Hd He. unfold F32.div, SFdiv, SFdiv_core_binary.
  simpl Zdigits2. rewrite Hd.
  replace (24 + (e + 1) - (24 + e)) with 1 by lia.
  replace (e + 1 - e) with 1 by lia.
  change (Z.min (fexp F32.prec F32.emax 1) 1) with (-23).
  change (1 - -23) with 24.
  rewrite Z.shiftl_mul_pow2 by lia.
  assert (E : Z.div_eucl (Zpos m * 2 ^ 24) (Zpos m) = (2 ^ 24, 0)).
  { pose proof (Z_div_mod (Zpos m * 2 ^ 24) (Zpos m) ltac:(lia)) as H.
    destruct (Z.div_eucl (Zpos m * 2 ^ 24) (Zpos m)) as [q r].
    destruct H as [H Hr].
    assert (Hq : q = 2 ^ 24) by nia.
    subst q. f_equal. lia. }
  rewrite E.
  assert (Hloc : new_location (Zpos m) 0 = loc_Exact).
  { unfold new_location, new_location_even, new_location_odd.
    destruct (Z.even (Zpos m)); reflexivity. }
  rewrite Hloc.
  change (2 ^ 24) with (Zpos 8388608 * 2 ^ 1).
  rewrite (binary_round_aux_exact _ 8388608 1 (-23)) by (reflexivity || lia).
  reflexivity.
Qed.

(** ** What [averageHeading] averages *)

Lemma accumulate_sums (l : list LSM303.vector) (avg : LSM303.vector) :
  (forall v, In v l -> -2048 <= LSM303.x v <= 2047 /\ -2048 <= LSM303.y v <= 2047) ->
  Z.abs (LSM303.x avg) + 2048 * Z.of_nat (List.length l) <= 32767 ->
  Z.abs (LSM303.y avg) + 2048 * Z.of_nat (List.length l) <= 32767 ->
  LSM303.x (accumulate avg l) = LSM303.x avg + sum_of LSM303.x l /\
  LSM303.y (accumulate avg l) = LSM303.y avg + sum_of LSM303.y l /\
  LSM303.z (accumulate avg l) = LSM303.z avg.
Proof.
  revert avg. induction l as [|m l IH]; intros avg Hr Hx Hy.
  - simpl. repeat split; lia.
  - unfold accumulate. simpl fold_left.
    destruct (Hr m (or_introl eq_refl)) as [Hmx Hmy].
    simpl List.length in Hx, Hy. rewrite Nat2Z.inj_succ in Hx, Hy.
    match goal with
    | |- context [fold_left ?f l ?a] =>
        change (fold_left f l a) with (accumulate a l);
        destruct (IH a) as (Ex & Ey & Ez)
    end.
    + intros v Hv. apply Hr. now right.
    + simpl LSM303.x. unfold Int16.add. rewrite wrap_id by int16_range. lia.
    + simpl LSM303.y. unfold Int16.add. rewrite wrap_id by int16_range. lia.
    + rewrite Ex, Ey, Ez. simpl LSM303.x. simpl LSM303.y. simpl LSM303.z.
      unfold Int16.add. rewrite !wrap_id by int16_range.
      simpl sum_of. repeat split; lia.
Qed.

Lemma sum_of_bounds (f : LSM303.vector -> Z) (l : list LSM303.vector) :
  (forall v, In v l -> -2048 <= f v <= 2047) ->
  Z.abs (sum_of f l) <= 2048 * Z.of_nat (List.length l).
Proof.
  induction l as [|m l IH]; intros Hr; [simpl; lia|].
  simpl sum_of. simpl List.length. rewrite Nat2Z.inj_succ.
  specialize (IH (fun v Hv => Hr v (or_intror Hv))).
  specialize (Hr m (or_introl eq_refl)). lia.
Qed.

Lemma averaged_mean (l : list LSM303.vector) :
  List.length l = 10%nat ->
  (forall v, In v l -> -2048 <= LSM303.x v <= 2047 /\ -2048 <= LSM303.y v <= 2047) ->
  averaged l = Some {| LSM303.x := Z.quot (sum_of LSM303.x l) 10;
                       LSM303.y := Z.quot (sum_of LSM303.y l) 10;
                       LSM303.z := 0 |}.
Proof.
  intros Hlen Hr. unfold averaged.
  destruct (accumulate_sums l {| LSM303.x := 0; LSM303.y := 0; LSM303.z := 0 |} Hr)
    as (Ex & Ey & Ez); try (rewrite Hlen; simpl; lia).
  simpl in Ex, Ey, Ez. rewrite Ex, Ey, Ez.
  pose proof (sum_of_bounds LSM303.x l (fun v Hv => proj1 (Hr v Hv))) as Bx.
  pose proof (sum_of_bounds LSM303.y l (fun v Hv => proj2 (Hr v Hv))) as By.
  rewrite Hlen in Bx, By.
  rewrite !div_ten_quot by lia. reflexivity.
Qed.

(** X12.  With readings in the 12-bit range of the magnetometer the sums cannot
    overflow and the float division by [10.0] is the integer division:
    [averageHeading] returns the heading of the vector whose [x] and [y]
    are the sums of the ten readings' components divided by 10, rounded
    toward zero, and whose [z] is 0. *)
Theorem averageHeading_averages
    (atan2 : F32.float -> F32.float -> F32.float) (mag : nat -> LSM303.vector)
    (w : World) :
  (forall v, In v (samples mag (reads w) 10) ->
     -2048 <= LSM303.x v <= 2047 /\ -2048 <= LSM303.y v <= 2047) ->
  option_map fst (averageHeading atan2 mag w)
  = heading atan2 (compass w)
      {| LSM303.x := Z.quot (sum_of LSM303.x (samples mag (reads w) 10)) 10;
         LSM303.y := Z.quot (sum_of LSM303.y (samples mag (reads w) 10)) 10;
         LSM303.z := 0 |}.
Proof.
  intros Hr.
  destruct (averageHeading_pure atan2 mag w) as (w1 & _ & _ & _ & _ & _ & ->).
  rewrite (averaged_mean _ (eq_refl : List.length (samples mag (reads w) 10) = 10%nat) Hr).
  destruct (heading atan2 (compass w) _); reflexivity.
Qed.

Lemma averageHeading_averages_witness :
  option_map fst (averageHeading Examples.atan2_sign mag_quarters (Examples.world0 None))
  = heading Examples.atan2_sign (compass (Examples.world0 None))
      {| LSM303.x := Z.quot (sum_of LSM303.x (samples mag_quarters 0 10)) 10;
         LSM303.y := Z.quot (sum_of LSM303.y (samples mag_quarters 0 10)) 10;
         LSM303.z := 0 |}.
Proof.
  apply (averageHeading_averages Examples.atan2_sign mag_quarters (Examples.world0 None)).
  intros v Hv. apply in_map_iff in Hv. destruct Hv as (k & <- & _).
  unfold mag_quarters. destruct (k mod 4)%nat as [|[|[|]]]; simpl; lia.
Defined.

(** ** A calibration during which the robot does not turn *)

Lemma minimum_from_repeat (a init : Z) (n : nat) :
  a <= init -> n <> O -> minimum_from init (repeat a n) = a.
Proof.
  intros Ha Hn. destruct n as [|n]; [contradiction|]. clear Hn.
  induction n as [|n IH]; simpl in *; lia.
Qed.

Lemma maximum_from_repeat (a init : Z) (n : nat) :
  init <= a -> n <> O -> maximum_from init (repeat a n) = a.
Proof.
  intros Ha Hn. destruct n as [|n]; [contradiction|]. clear Hn.
  induction n as [|n IH]; simpl in *; lia.
Qed.

Lemma sum_of_repeat (f : LSM303.vector -> Z) (v : LSM303.vector) (n : nat) :
  sum_of f (repeat v n) = Z.of_nat n * f v.
Proof.
  induction n as [|n IH]; [reflexivity|].
  simpl repeat. simpl sum_of. fold (sum_of f (repeat v n)). rewrite IH. lia.
Qed.

(** A call of [loop] is undefined once its first call of [averageHeading]
    is. *)
Lemma loop_undefined
    (atan2 : F32.float -> F32.float -> F32.float) (mag : nat -> LSM303.vector)
    (w : World) :
  averageHeading atan2 mag w = None -> loop atan2 mag w = None.
Proof.
  intros H. unfold loop.
  destruct (target_heading w) as [t|] eqn:Ht.
  - rewrite (bind_Some _ _ w w t) by (unfold bind, get; rewrite Ht; reflexivity).
    unfold bind at 1. rewrite H. reflexivity.
  - unfold bind at 1. unfold bind at 1. unfold get. rewrite Ht.
    unfold bind at 1. rewrite H. reflexivity.
Qed.

(** X13.  If the robot does not turn while [setup] calibrates, so that all
    readings are the same, the stored bounds coincide on both axes.  The
    average of ten more such readings then sits on the bounds, both scaled
    coordinates are 0/0, and with an [atan2] that passes NaN on the
    conversion of the angle to an integer is undefined: [averageHeading] and
    with it the first call of [loop] have no defined result. *)
Theorem calibration_at_rest
    (atan2 : F32.float -> F32.float -> F32.float) (mag : nat -> LSM303.vector)
    (v : LSM303.vector) (w : World) :
  (forall y, atan2 y S754_nan = S754_nan) ->
  (forall i, mag i = v) ->
  -2048 <= LSM303.x v <= 2047 -> -2048 <= LSM303.y v <= 2047 ->
  exists w1,
    setup mag w = Some (tt, w1) /\
    LSM303.x (LSM303.m_min (compass w1)) = LSM303.x v /\
    LSM303.x (LSM303.m_max (compass w1)) = LSM303.x v /\
    LSM303.y (LSM303.m_min (compass w1)) = LSM303.y v /\
    LSM303.y (LSM303.m_max (compass w1)) = LSM303.y v /\
    averageHeading atan2 mag w1 = None /\
    loop atan2 mag w1 = None.
Proof.
  intros Hnan Hrest Hx Hy.
  destruct (setup_runs mag w) as (w1 & Hrun & _ & Hxlo & Hylo & Hxhi & Hyhi & _).
  exists w1. split; [exact Hrun|].
  rewrite (samples_constant mag v _ _ Hrest), map_repeat in Hxlo, Hylo, Hxhi, Hyhi.
  rewrite minimum_from_repeat in Hxlo, Hylo by (simpl; lia || discriminate).
  rewrite maximum_from_repeat in Hxhi, Hyhi by (simpl; lia || discriminate).
  split; [exact Hxlo|]. split; [exact Hxhi|].
  split; [exact Hylo|]. split; [exact Hyhi|].
  assert (Havg : averageHeading atan2 mag w1 = None).
  { destruct (averageHeading_pure atan2 mag w1) as (w2 & _ & _ & _ & _ & _ & ->).
    rewrite (samples_constant mag v _ _ Hrest).
    rewrite averaged_mean.
    - rewrite !sum_of_repeat.
      change (Z.of_nat 10) with 10. rewrite !(Z.mul_comm 10), !Z.quot_mul by lia.
      destruct (heading_undefined_on_bound atan2 (compass w1)
                  {| LSM303.x := LSM303.x v; LSM303.y := LSM303.y v; LSM303.z := 0 |}
                  Hnan) as [_ E].
      + rewrite Hxhi, Hxlo. reflexivity.
      + rewrite Hxlo. reflexivity.
      + rewrite E. reflexivity.
    - apply repeat_length.
    - intros u Hu. apply repeat_spec in Hu. subst u. split; assumption. }
  split; [exact Havg | exact (loop_undefined atan2 mag w1 Havg)].
Qed.

Lemma calibration_at_rest_witness :
  exists w1,
    setup Examples.mag_east (Examples.world0 None) = Some (tt, w1) /\
    LSM303.x (LSM303.m_min (compass w1)) = LSM303.x (Examples.vec 100 0 0) /\
    LSM303.x (LSM303.m_max (compass w1)) = LSM303.x (Examples.vec 100 0 0) /\
    LSM303.y (LSM303.m_min (compass w1)) = LSM303.y (Examples.vec 100 0 0) /\
    LSM303.y (LSM303.m_max (compass w1)) = LSM303.y (Examples.vec 100 0 0) /\
    averageHeading Examples.atan2_sign Examples.mag_east w1 = None /\
    loop Examples.atan2_sign Examples.mag_east w1 = None.
Proof.
  apply (calibration_at_rest Examples.atan2_sign Examples.mag_east
           (Examples.vec 100 0 0) (Examples.world0 None)).
  - intros y. unfold Examples.atan2_sign.
    destruct (Examples.sign y) as [[]|]; reflexivity.
  - intros i. reflexivity.
  - simpl. lia.
  - simpl. lia.
Defined.

(** ** The scaled coordinates of a reading within the bounds *)

Lemma mul_sign (x y : F32.float) (sx sy : bool) (mb1 eb1 mb2 eb2 : Z)
    (mb3 : positive) (eb3 : Z) :
  bounded_by mb1 eb1 x -> bounded_by mb2 eb2 y ->
  has_sign sx x -> has_sign sy y ->
  canonical_mantissa F32.prec F32.emax mb3 eb3 = true -> eb3 <= 80 ->
  val mb1 eb1 * val mb2 eb2 <= val (Zpos mb3) eb3 * 2 ^ 300 ->
  has_sign (xorb sx sy) (F32.mul x y).
Proof.
  intros Hx Hy Hsx Hsy Hcan Heb Hprod.
  destruct x as [sx'|sx'| |sx' mx ex], y as [sy'|sy'| |sy' my ey];
    unfold bounded_by in Hx, Hy; try contradiction;
    unfold has_sign in Hsx, Hsy; subst sx' sy'; try reflexivity.
  destruct Hx as [Hex Hx], Hy as [Hey Hy].
  unfold F32.mul, SFmul.
  apply (binary_round_aux_le _ _ _ _ mb3 eb3); try assumption; try lia;
    [|intros H; now elim H].
  rewrite Pos2Z.inj_mul.
  pose proof (val_mul (Zpos mx) ex (Zpos my) ey ltac:(lia) ltac:(lia) ltac:(lia)) as E.
  pose proof (val_nonneg (Zpos mx) ex ltac:(lia)).
  pose proof (val_nonneg (Zpos my) ey ltac:(lia)).
  assert (val (Zpos mx) ex * val (Zpos my) ey <= val mb1 eb1 * val mb2 eb2)
    by (apply Z.mul_le_mono_nonneg; lia).
  assert (P : 0 < 2 ^ 300) by (apply pow2_pos; lia).
  nia.
Qed.

Lemma div_sign (x y : F32.float) (sx sy : bool) (mb1 : positive) (eb1 : Z)
    (mc : positive) (ec : Z) (mb3 : positive) (eb3 : Z) :
  bounded_by (Zpos mb1) eb1 x -> at_least (Zpos mc) ec y ->
  has_sign sx x -> has_sign sy y ->
  -300 <= eb1 -> -300 <= ec ->
  canonical_mantissa F32.prec F32.emax mb3 eb3 = true -> eb3 <= 80 ->
  val (Zpos mb1) eb1 * 2 ^ 300 <= val (Zpos mb3) eb3 * val (Zpos mc) ec ->
  Zpos (digits2_pos mb1) + eb1 - (Zpos (digits2_pos mc) + ec) - 24 <= eb3 ->
  has_sign (xorb sx sy) (F32.div x y).
Proof.
  intros Hx Hy Hsx Hsy Heb1 Hec Hcan Heb3 Hquot Hgrid.
  destruct (canonical_bounds mb3 eb3 Hcan) as (_ & Heb3lo & _).
  destruct y as [sy'|sy'| |sy' my ey]; unfold at_least in Hy; try contradiction.
  destruct Hy as [Hey Hy].
  destruct x as [sx'|sx'| |sx' mx ex]; unfold bounded_by in Hx; try contradiction;
    unfold has_sign in Hsx, Hsy; subst sx' sy'.
  - reflexivity.
  - destruct Hx as [Hex Hx].
    unfold F32.div, SFdiv.
    destruct (div_core_spec mx my ex ey Hex Hey)
      as (q & e' & l & E & Hq & He'lo & He' & Hle & Hlt).
    rewrite E.
    pose proof (val_pos (Zpos my) ey ltac:(lia) ltac:(lia)) as Py.
    pose proof (val_nonneg (Zpos mb3) eb3 ltac:(lia)) as Pb3.
    assert (Hchain : val (Zpos mx) ex * 2 ^ 300 <= val (Zpos mb3) eb3 * val (Zpos my) ey).
    { assert (P : 0 < 2 ^ 300) by (apply pow2_pos; lia).
      assert (val (Zpos mx) ex * 2 ^ 300 <= val (Zpos mb1) eb1 * 2 ^ 300)
        by (apply Z.mul_le_mono_nonneg_r; lia).
      assert (val (Zpos mb3) eb3 * val (Zpos mc) ec
              <= val (Zpos mb3) eb3 * val (Zpos my) ey)
        by (apply Z.mul_le_mono_nonneg_l; lia).
      lia. }
    assert (He'eb : e' <= eb3).
    { pose proof (val_digits_le (Zpos mx) ex (Zpos mb1) eb1
                    ltac:(lia) ltac:(lia) ltac:(lia) ltac:(lia) Hx) as D1.
      pose proof (val_digits_le (Zpos mc) ec (Zpos my) ey
                    ltac:(lia) ltac:(lia) ltac:(lia) ltac:(lia) Hy) as D2.
      simpl Zdigits2 in D1, D2. lia. }
    apply (binary_round_aux_le _ _ _ _ mb3 eb3); try assumption.
    + apply Z.mul_le_mono_pos_r with (p := val (Zpos my) ey); [exact Py | lia].
    + intros Hl. specialize (Hlt Hl).
      apply grid_step; [exact He'lo | exact He'eb |].
      apply Z.mul_lt_mono_pos_r with (p := val (Zpos my) ey); [exact Py | lia].
Qed.

(** Taking 1 from a value between 0 and 2 leaves a value within 1. *)
Lemma sub_one_unit (q : F32.float) :
  has_sign false q -> bounded_by 8388608 (-22) q ->
  bounded_by 8388608 (-23) (F32.sub q F32.one).
Proof.
  intros Hs Hb.
  destruct q as [s|s| |s mq eq]; unfold bounded_by in Hb; try contradiction;
    unfold has_sign in Hs; subst s.
  - unfold F32.sub, F32.one, SFsub, bounded_by. split; [lia | apply Z.le_refl].
  - destruct Hb as [He Hq].
    unfold F32.sub, F32.one, SFsub.
    destruct (aligned_spec mq 8388608 eq (-23) ltac:(lia) ltac:(lia)) as [Ax Ay].
    set (ez := Z.min eq (-23)) in *.
    set (ax := Zpos (fst (shl_align mq eq ez))) in *.
    set (ay := Zpos (fst (shl_align 8388608 (-23) ez))) in *.
    apply binary_normalize_le; [unfold ez; lia | reflexivity | lia |].
    simpl cond_Zopp.
    assert (Hez : -300 <= ez) by (unfold ez; lia).
    assert (Htwo : val 8388608 (-22) = val 8388608 (-23) + val 8388608 (-23))
      by (vm_compute; reflexivity).
    destruct (Z_le_gt_dec ay ax) as [Hle | Hgt].
    + rewrite Z.abs_eq by lia.
      replace (val (ax - ay) ez) with (val ax ez - val ay ez)
        by (unfold val; ring).
      lia.
    + rewrite Z.abs_neq by lia.
      replace (val (- (ax - ay)) ez) with (val ay ez - val ax ez)
        by (unfold val; ring).
      pose proof (val_nonneg ax ez ltac:(unfold ax; lia)). lia.
Qed.

(** The scaled coordinate of a difference [n] between 0 and the width [d]
    of the bounds. *)
Lemma scaled_unit (n d : Z) :
  0 <= n <= d -> 0 < d <= 32767 ->
  bounded_by 8388608 (-23)
    (F32.sub (F32.div (F32.mul F32.two (F32.of_int n)) (F32.of_int d)) F32.one).
Proof.
  intros Hn Hd.
  destruct d as [|pd|pd]; try lia.
  unfold F32.of_int at 2. simpl binary_normalize.
  destruct (small_mantissa false pd ltac:(lia)) as (md & Ed & Hdd & Vd).
  rewrite Ed.
  set (ed := Zpos (digits2_pos pd) - 24) in *.
  pose proof (Zdigits2_le (Zpos pd) 15 ltac:(lia) ltac:(lia)) as Hd15.
  simpl Zdigits2 in Hd15.
  assert (Hed : -23 <= ed <= -9) by (unfold ed; lia).
  pose proof (Vd 0 ltac:(lia)) as Vd0. rewrite Z.add_0_r in Vd0.
  assert (Hbn : bounded_by (Zpos md) ed (F32.of_int n) /\
                has_sign false (F32.of_int n)).
  { unfold F32.of_int.
    destruct (binary_normalize_le n 0 false md ed ltac:(lia)) as (Hb & Hpos & _).
    - apply canonical_24; [exact Hdd | lia].
    - lia.
    - rewrite Vd0. apply val_le_mono; lia.
    - split; [exact Hb|].
      destruct (Z.eq_dec n 0) as [-> | Hne]; [reflexivity | apply Hpos; lia]. }
  destruct Hbn as [Hbn Hsn].
  assert (Eprod : val 8388608 (-22) * val (Zpos md) ed
                  = val (Zpos md) (ed + 1) * 2 ^ 300).
  { unfold val. replace (ed + 1 + 300) with (1 + (ed + 300)) by lia.
    rewrite (Z.pow_add_r 2 1 (ed + 300)) by lia.
    change (2 ^ (-22 + 300)) with (2 ^ 278).
    assert (E : 8388608 * 2 ^ 278 = 2 * 2 ^ 300) by (vm_compute; reflexivity).
    rewrite E. change (2 ^ 1) with 2. ring. }
  assert (Hprod : val 8388608 (-22) * val (Zpos md) ed
                  <= val (Zpos md) (ed + 1) * 2 ^ 300) by lia.
  assert (Hcan1 : canonical_mantissa F32.prec F32.emax md (ed + 1) = true)
    by (apply canonical_24; [exact Hdd | lia]).
  assert (Hnum : bounded_by (Zpos md) (ed + 1) (F32.mul F32.two (F32.of_int n))).
  { apply (mul_bounded F32.two (F32.of_int n) 8388608 (-22) (Zpos md) ed).
    - unfold F32.two, bounded_by. split; [lia | apply Z.le_refl].
    - exact Hbn.
    - exact Hcan1.
    - lia.
    - exact Hprod. }
  assert (Hnums : has_sign false (F32.mul F32.two (F32.of_int n))).
  { apply (mul_sign F32.two (F32.of_int n) false false 8388608 (-22) (Zpos md) ed
             md (ed + 1)).
    - unfold F32.two, bounded_by. split; [lia | apply Z.le_refl].
    - exact Hbn.
    - reflexivity.
    - exact Hsn.
    - exact Hcan1.
    - lia.
    - exact Hprod. }
  assert (Hy : at_least (Zpos md) ed (S754_finite false md ed))
    by (unfold at_least; split; [lia | apply Z.le_refl]).
  assert (Hquot : val (Zpos md) (ed + 1) * 2 ^ 300
                  <= val 8388608 (-22) * val (Zpos md) ed) by lia.
  assert (Hgrid : Zpos (digits2_pos md) + (ed + 1) - (Zpos (digits2_pos md) + ed) - 24
                  <= -22) by lia.
  apply sub_one_unit.
  - apply (div_sign _ _ false false md (ed + 1) md ed 8388608 (-22));
      try assumption; try lia; reflexivity.
  - apply (div_bounded _ _ md (ed + 1) md ed 8388608 (-22));
      try assumption; try lia; reflexivity.
Qed.

(** At the upper bound the scaled coordinate is exactly 1. *)
Lemma scaled_top (d : Z) :
  0 < d <= 32767 ->
  F32.sub (F32.div (F32.mul F32.two (F32.of_int d)) (F32.of_int d)) F32.one
  = F32.one.
Proof.
  intros Hd. destruct d as [|pd|pd]; try lia.
  unfold F32.of_int. simpl binary_normalize.
  destruct (small_mantissa false pd ltac:(lia)) as (md & -> & Hdd & _).
  pose proof (Zdigits2_le (Zpos pd) 15 ltac:(lia) ltac:(lia)) as Hd15.
  simpl Zdigits2 in Hd15.
  rewrite (mul_two_exact false md _ Hdd) by lia.
  rewrite (div_double_exact md _ Hdd) by lia.
  reflexivity.
Qed.

(** X14.  For a reading between the calibration bounds of an axis the scaled
    coordinate is normalised: it is a zero or a finite float of magnitude
    at most 1 ([8388608 * 2^-23]); at the lower bound it is exactly -1 and
    at the upper bound exactly 1.  The bounds are taken to be at most 32767
    apart, as the bounds of 12-bit readings always are. *)
Theorem scaled_within_unit (c : LSM303.t) (v : LSM303.vector) :
  (LSM303.x (LSM303.m_min c) < LSM303.x (LSM303.m_max c) ->
   LSM303.x (LSM303.m_max c) - LSM303.x (LSM303.m_min c) <= 32767 ->
   LSM303.x (LSM303.m_min c) <= LSM303.x v <= LSM303.x (LSM303.m_max c) ->
   bounded_by 8388608 (-23) (x_scaled c v) /\
   (LSM303.x v = LSM303.x (LSM303.m_min c) -> x_scaled c v = F32.opp F32.one) /\
   (LSM303.x v = LSM303.x (LSM303.m_max c) -> x_scaled c v = F32.one)) /\
  (LSM303.y (LSM303.m_min c) < LSM303.y (LSM303.m_max c) ->
   LSM303.y (LSM303.m_max c) - LSM303.y (LSM303.m_min c) <= 32767 ->
   LSM303.y (LSM303.m_min c) <= LSM303.y v <= LSM303.y (LSM303.m_max c) ->
   bounded_by 8388608 (-23) (y_scaled c v) /\
   (LSM303.y v = LSM303.y (LSM303.m_min c) -> y_scaled c v = F32.opp F32.one) /\
   (LSM303.y v = LSM303.y (LSM303.m_max c) -> y_scaled c v = F32.one)).
Proof.
  assert (Hlow : forall d, 0 < d <= 32767 ->
            F32.sub (F32.div (F32.mul F32.two (F32.of_int 0)) (F32.of_int d)) F32.one
            = F32.opp F32.one).
  { intros d Hd.
    destruct (of_int_spec d ltac:(int16_range)) as (_ & _ & Hne).
    specialize (Hne ltac:(lia)).
    destruct (F32.of_int d) as [s|s| |s m e]; unfold at_least in Hne;
      try contradiction.
    reflexivity. }
  split; intros Hnd Hw Hv.
  - unfold x_scaled, Int16.sub. rewrite !wrap_id by int16_range.
    split; [apply scaled_unit; lia|]. split.
    + intros ->. rewrite Z.sub_diag. apply Hlow. lia.
    + intros ->. apply scaled_top. lia.
  - unfold y_scaled, Int16.sub. rewrite !wrap_id by int16_range.
    split; [apply scaled_unit; lia|]. split.
    + intros ->. rewrite Z.sub_diag. apply Hlow. lia.
    + intros ->. apply scaled_top. lia.
Qed.

Lemma scaled_within_unit_witness :
  (bounded_by 8388608 (-23) (x_scaled Examples.compass100 (Examples.vec 30 (-100) 0)) /\
   (LSM303.x (Examples.vec 30 (-100) 0) = LSM303.x (LSM303.m_min Examples.compass100) ->
    x_scaled Examples.compass100 (Examples.vec 30 (-100) 0) = F32.opp F32.one) /\
   (LSM303.x (Examples.vec 30 (-100) 0) = LSM303.x (LSM303.m_max Examples.compass100) ->
    x_scaled Examples.compass100 (Examples.vec 30 (-100) 0) = F32.one)) /\
  (bounded_by 8388608 (-23) (y_scaled Examples.compass100 (Examples.vec 30 (-100) 0)) /\
   (LSM303.y (Examples.vec 30 (-100) 0) = LSM303.y (LSM303.m_min Examples.compass100) ->
    y_scaled Examples.compass100 (Examples.vec 30 (-100) 0) = F32.opp F32.one) /\
   (LSM303.y (Examples.vec 30 (-100) 0) = LSM303.y (LSM303.m_max Examples.compass100) ->
    y_scaled Examples.compass100 (Examples.vec 30 (-100) 0) = F32.one)).
Proof.
  destruct (scaled_within_unit Examples.compass100 (Examples.vec 30 (-100) 0))
    as [Hx Hy].
  split; [apply Hx | apply Hy]; simpl; lia.
Defined.

(** ** When [loop] drives straight *)

Lemma near_target_iff (h t : Z) :
  0 <= h < 360 -> 0 <= t < 360 ->
  ((c_abs (relativeHeading h t) <? DEVIATION_THRESHOLD) = true
   <-> (t - h) mod 360 <= 4 \/ 356 <= (t - h) mod 360).
Proof.
  intros Hh Ht.
  rewrite (c_abs_relativeHeading h t Hh Ht), (relativeHeading_math h t Hh Ht).
  unfold DEVIATION_THRESHOLD. rewrite Z.ltb_lt.
  assert (Hmod : (t - h) mod 360 = if t - h <? 0 then t - h + 360 else t - h).
  { destruct (Z.ltb_spec (t - h) 0).
    - rewrite <- (Z.mod_add (t - h) 1 360) by lia.
      apply Z.mod_small. lia.
    - apply Z.mod_small. lia. }
  rewrite Hmod.
  destruct (Z.gtb_spec (t - h) 180), (Z.ltb_spec (t - h) (-180)),
           (Z.ltb_spec (t - h) 0); lia.
Qed.

(** X15.  With the heading and the target in [0, 360), a call of [loop] drives
    straight exactly when the heading is within 4 degrees of the target,
    counted around the circle; otherwise it turns. *)
Theorem straight_iff_near_target
    (atan2 : F32.float -> F32.float -> F32.float) (mag : nat -> LSM303.vector)
    (w w0 w1 w' : World) (t h : Z) :
  cycle_start atan2 mag w t w0 ->
  averageHeading atan2 mag w0 = Some (h, w1) ->
  0 <= h < 360 -> 0 <= t < 360 ->
  loop atan2 mag w = Some (tt, w') ->
  (motor_commands (events_since w w') = [(SPEED, SPEED); (0, 0)]
   <-> (t - h) mod 360 <= 4 \/ 356 <= (t - h) mod 360) /\
  (motor_commands (events_since w w')
     = [(turn_speed (relativeHeading h t), - turn_speed (relativeHeading h t))]
   <-> 5 <= (t - h) mod 360 <= 355).
Proof.
  intros Hcs Hh Hhr Htr Hloop.
  pose proof (near_target_iff h t Hhr Htr) as Hiff.
  assert (Hmod : 0 <= (t - h) mod 360 < 360) by (apply Z.mod_pos_bound; lia).
  destruct (c_abs (relativeHeading h t) <? DEVIATION_THRESHOLD) eqn:Hlt.
  - assert (Hnear : (t - h) mod 360 <= 4 \/ 356 <= (t - h) mod 360)
      by (apply Hiff; reflexivity).
    assert (Hmc : motor_commands (events_since w w') = [(SPEED, SPEED); (0, 0)]).
    { destruct (averageHeading atan2 mag (add_events (report t h ++ straight_events) w1))
        as [[h' w2]|] eqn:Hh'.
      - apply Z.ltb_lt in Hlt.
        destruct (straight_cycle atan2 mag _ _ _ _ _ _ _ Hcs Hh Hlt Hh')
          as (w'' & Hrun & _ & Hmc & _).
        rewrite Hloop in Hrun. injection Hrun as <-. exact Hmc.
      - exfalso. revert Hloop. unfold loop.
        rewrite (bind_Some _ _ _ _ _ (cycle_start_target _ _ _ _ _ Hcs)).
        rewrite (bind_Some _ _ _ _ _ Hh). rewrite Hlt.
        run_events.
        change (add_event (Delay 100) _)
          with (add_events (report t h ++ straight_events) w1).
        unfold bind at 1. rewrite Hh'. discriminate. }
    split.
    + split; [intros _; exact Hnear | intros _; exact Hmc].
    + rewrite Hmc. split; [discriminate | lia].
  - assert (Hfar : 5 <= (t - h) mod 360 <= 355).
    { destruct (Z_le_gt_dec ((t - h) mod 360) 4) as [H|H];
        [pose proof (proj2 Hiff (or_introl H)); discriminate|].
      destruct (Z_le_gt_dec 356 ((t - h) mod 360)) as [H2|H2];
        [pose proof (proj2 Hiff (or_intror H2)); discriminate|].
      lia. }
    apply Z.ltb_ge in Hlt.
    destruct (turn_cycle atan2 mag _ _ _ _ _ Hcs Hh Hlt) as (w'' & Hrun & _ & Hmc & _).
    rewrite Hloop in Hrun. injection Hrun as <-.
    assert (Hneg : Int16.neg (turn_speed (relativeHeading h t))
                   = - turn_speed (relativeHeading h t)).
    { pose proof (turn_speed_bounded (relativeHeading h t)).
      unfold Int16.neg. apply wrap_id. int16_range. }
    rewrite Hneg in Hmc. rewrite Hmc.
    split.
    + split; [discriminate | lia].
    + split; [intros _; exact Hfar | reflexivity].
Qed.

Lemma straight_iff_near_target_witness :
  (motor_commands
     (events_since (Examples.world0 (Some 3))
        (Examples.after (loop Examples.atan2_sign Examples.mag_east)
           (Examples.world0 (Some 3))))
   = [(SPEED, SPEED); (0, 0)]
   <-> (3 - 0) mod 360 <= 4 \/ 356 <= (3 - 0) mod 360) /\
  (motor_commands
     (events_since (Examples.world0 (Some 3))
        (Examples.after (loop Examples.atan2_sign Examples.mag_east)
           (Examples.world0 (Some 3))))
   = [(turn_speed (relativeHeading 0 3), - turn_speed (relativeHeading 0 3))]
   <-> 5 <= (3 - 0) mod 360 <= 355).
Proof.
  apply (straight_iff_near_target Examples.atan2_sign Examples.mag_east
           (Examples.world0 (Some 3)) (Examples.world0 (Some 3))
           (Examples.sampled (Some 3))
           (Examples.after (loop Examples.atan2_sign Examples.mag_east)
              (Examples.world0 (Some 3)))
           3 0).
  - constructor. reflexivity.
  - vm_compute. reflexivity.
  - lia.
  - lia.
  - vm_compute. reflexivity.
Defined.

(** ** Turning with the motors running *)

(** X16.  A call of [loop] that turns does nothing but this: it takes its
    ten readings, prints its report, commands [(speed, -speed)] with a speed
    of more than 100 in magnitude, and prints.  It neither waits nor stops
    the motors, so the readings of the next call are taken while the motors
    run. *)
Theorem turn_cycle_leaves_motors_running
    (atan2 : F32.float -> F32.float -> F32.float) (mag : nat -> LSM303.vector)
    (w w1 : World) (t h : Z) :
  target_heading w = Some t ->
  averageHeading atan2 mag w = Some (h, w1) ->
  0 <= h < 360 -> 0 <= t < 360 ->
  5 <= Z.abs (relativeHeading h t) ->
  exists w' speed,
    loop atan2 mag w = Some (tt, w') /\
    speed = turn_speed (relativeHeading h t) /\
    100 < Z.abs speed <= 300 /\
    events_since w w'
      = repeat CompassRead 10
        ++ [Print "Target heading: "; PrintInt t;
            Print "    Actual heading: "; PrintInt h;
            Print "    Difference: "; PrintInt (relativeHeading h t);
            SetSpeeds speed (- speed); Print "   Turn"; Println] /\
    target_heading w' = Some t.
Proof.
  intros Ht Hh Hhr Htr Hrel.
  pose proof (cycle_later atan2 mag w t Ht) as Hcs.
  assert (Hge : DEVIATION_THRESHOLD <= c_abs (relativeHeading h t))
    by (rewrite (c_abs_relativeHeading h t Hhr Htr); exact Hrel).
  destruct (turn_cycle atan2 mag _ _ _ _ _ Hcs Hh Hge) as (w' & Hrun & Htrace & _ & Htg).
  destruct (averageHeading_effects _ _ _ _ _ Hh) as (Htr1 & _ & Htg1 & _).
  assert (Hrange : -180 <= relativeHeading h t <= 180).
  { rewrite (relativeHeading_math h t Hhr Htr).
    destruct (Z.gtb_spec (t - h) 180), (Z.ltb_spec (t - h) (-180)); lia. }
  destruct (turn_speed_magnitude (relativeHeading h t) ltac:(lia)) as [Hmag Hneg].
  exists w', (turn_speed (relativeHeading h t)).
  split; [exact Hrun|]. split; [reflexivity|]. split; [exact Hmag|].
  split; [|rewrite Htg, Htg1; exact Ht].
  apply events_since_app.
  rewrite Htrace, Htr1, Hneg, <- !app_assoc. reflexivity.
Qed.

Lemma turn_cycle_leaves_motors_running_witness :
  exists w' speed,
    loop Examples.atan2_sign Examples.mag_east (Examples.world0 (Some 90))
      = Some (tt, w') /\
    speed = turn_speed (relativeHeading 0 90) /\
    100 < Z.abs speed <= 300 /\
    events_since (Examples.world0 (Some 90)) w'
      = repeat CompassRead 10
        ++ [Print "Target heading: "; PrintInt 90;
            Print "    Actual heading: "; PrintInt 0;
            Print "    Difference: "; PrintInt (relativeHeading 0 90);
            SetSpeeds speed (- speed); Print "   Turn"; Println] /\
    target_heading w' = Some 90.
Proof.
  apply (turn_cycle_leaves_motors_running Examples.atan2_sign Examples.mag_east
           (Examples.world0 (Some 90)) (Examples.sampled (Some 90)) 90 0).
  - reflexivity.
  - vm_compute. reflexivity.
  - lia.
  - lia.
  - vm_compute. discriminate.
Defined.

(** ** Relative headings add up *)

(** X17.  Relative headings add up around the circle: going from [a] to [b]
    and on to [c] is going from [a] to [c], up to a full turn. *)
Theorem relativeHeading_chain (a b c : Z) :
  0 <= a < 360 -> 0 <= b < 360 -> 0 <= c < 360 ->
  exists k, -1 <= k <= 1 /\
    relativeHeading a b + relativeHeading b c = relativeHeading a c + k * 360.
Proof.
  intros Ha Hb Hc.
  rewrite (relativeHeading_math a b Ha Hb), (relativeHeading_math b c Hb Hc),
          (relativeHeading_math a c Ha Hc).
  destruct (Z.gtb_spec (b - a) 180), (Z.ltb_spec (b - a) (-180)),
           (Z.gtb_spec (c - b) 180), (Z.ltb_spec (c - b) (-180)),
           (Z.gtb_spec (c - a) 180), (Z.ltb_spec (c - a) (-180));
    try lia;
    first [ exists 0; lia | exists 1; lia | exists (-1); lia ].
Qed.

Lemma relativeHeading_chain_witness :
  exists k, -1 <= k <= 1 /\
    relativeHeading 0 170 + relativeHeading 170 340
    = relativeHeading 0 340 + k * 360.
Proof. apply (relativeHeading_chain 0 170 340); lia. Defined.

(** ** Division by zero in [heading] *)






